(** * Kiebitz appointment apps: token refill, invitation scheduling and
      offer confirmation

    A shallow embedding of the provider actions [keyPairs],
    [createAppointment] and [sendInvitations] and of the user action
    [confirmOffers], with the properties of the scheduling cycle and of
    the confirmation loop proved over it.

    Conventions of the embedding:
    - JavaScript objects used as dictionaries ([slotsById],
      [appointmentsBySlotId], [appointments], [slotInfos]) are
      [gmap string _] or association lists; a key that is not in the
      dictionary reads as [undefined], except the property names of
      [Object.prototype] ([objectPrototypeNames]), which read as a
      function or an object wherever the code takes the result apart;
    - token objects are mutated in place and can sit in the pool more
      than once, so the tokens of a cycle live in a heap (a list of
      objects) and the pool is a list of addresses;
    - identifiers, keys, signatures and ciphertexts are strings; the
      id of a slot or an appointment is not [__proto__], which no
      assignment [obj[id] = v] stores as a property;
    - instants are integers (milliseconds), and one cycle reads the
      clock once: the [now] argument. The clock and the expiry of a
      stored token are dates, the clock more than a day before the last
      one, so that [toISOString] does not throw; the timestamp of an
      appointment is whatever the caller gave, and need not be a date;
    - every call to a collaborator (lock, remote service, cryptography,
      random generator) is answered by an oracle of [collaborators] that
      sees the number of calls made before it, and is recorded, with its
      arguments, in the [world];
    - a collaborator answers [Ok v] or [Err e], [e] the thrown value. *)

From stdpp Require Import gmap strings list fin_maps pretty.
From Stdlib Require Import ZArith Lia.

Open Scope string_scope.
Open Scope list_scope.
Open Scope nat_scope.

(** ** JavaScript values and exceptions *)

(** The primitive values the modelled expressions inspect. *)
Inductive jsval :=
| JUndefined
| JNull
| JBool (b : bool)
| JNum (n : Z)
| JStr (s : string).

#[global] Instance jsval_eq_dec : EqDecision jsval.
Proof. solve_decision. Defined.

(** [ToBoolean]: what [!v] and [if (v)] look at. *)
Definition truthy (v : jsval) : bool :=
  match v with
  | JUndefined | JNull => false
  | JBool b => b
  | JNum n => negb (n =? 0)%Z
  | JStr s => negb (bool_decide (s = ""))
  end.

(** [!v] *)
Definition js_not (v : jsval) : jsval := JBool (negb (truthy v)).

(** [a === b]: no coercion, values of different types are never equal. *)
Definition strict_eq (a b : jsval) : bool :=
  match a, b with
  | JUndefined, JUndefined => true
  | JNull, JNull => true
  | JBool x, JBool y => bool_decide (x = y)
  | JNum x, JNum y => bool_decide (x = y)
  | JStr x, JStr y => bool_decide (x = y)
  | _, _ => false
  end.

(** A thrown value, as far as the handlers look into it:
    [typeof e === 'object'], [e.name] and [e.error.code]. *)
Inductive thrown :=
| ThPrim (v : jsval)                       (* a thrown primitive value *)
| ThObject (name : string) (error : option Z).
                                           (* [error = None]: no [e.error] *)

(** [throw null] *)
Definition ThNull : thrown := ThPrim JNull.

Definition TypeError : thrown := ThObject "TypeError" None.
Definition SyntaxError : thrown := ThObject "SyntaxError" None.

(** The answer of a collaborator. *)
Inductive res (A : Type) :=
| Ok (a : A)
| Err (e : thrown).
Arguments Ok {A} a.
Arguments Err {A} e.

(** How a call of an action ends. *)
Inductive completion (A : Type) :=
| Returned (a : A)
| ReturnedUndefined
| Threw (e : thrown).
Arguments Returned {A} a.
Arguments ReturnedUndefined {A}.
Arguments Threw {A} e.

Inductive status := Succeeded | Loaded | Failed.

(** ** Data model *)

(** [slot_token = Some v]: [slot.token] is an object whose [token] field
    is [v]; [None]: [slot.token] is [null] or [undefined]. *)
Record slot := {
  slot_id : string;
  slot_open : bool;
  slot_failed : bool;
  slot_token : option jsval;
}.

(** [ap_publicKey] is the field of the caller's appointment that the
    user side reads as [offer.publicKey]. *)
Record appointment := {
  ap_id : string;
  ap_status : string;
  ap_cancel : string;
  ap_timestamp : Z;
  ap_publicKey : string;
  ap_slotData : list slot;
}.

Record keyPair := {
  kp_publicKey : string;
  kp_privateKey : string;
}.

(** [token.encryptedData] *)
Record encryptedData := {
  ed_data : string;
  ed_publicKey : string;
}.

(** [token.data], the decrypted payload *)
Record tokenData := {
  td_id : string;
  td_publicKey : string;
}.

(** A token as the allocator returns it. *)
Record encryptedToken := {
  et_token : jsval;
  et_queue : string;
  et_encryptedData : encryptedData;
}.

(** A token of the pool ['provider::tokens::open']. [tok_grantID] and
    [tok_slotIDs] are [None] where the field is [undefined]. *)
Record token := {
  tok_token : jsval;
  tok_queue : string;
  tok_encryptedData : encryptedData;
  tok_data : tokenData;
  tok_keyPair : keyPair;
  tok_grantID : option string;
  tok_slotIDs : option (list string);
  tok_expiresAt : Z;
}.

Definition hour : Z := (1000 * 60 * 60)%Z.
Definition day : Z := (1000 * 60 * 60 * 24)%Z.

(** ** Slot reconciliation and top-up (the body of the token loop) *)

(** The property names every plain object inherits from
    [Object.prototype]: [obj[name]] is a function (an object for
    [__proto__]) unless the object has a property of its own under that
    name. *)
Definition objectPrototypeNames : list string :=
  ["constructor"; "__defineGetter__"; "__defineSetter__"; "hasOwnProperty";
   "__lookupGetter__"; "__lookupSetter__"; "isPrototypeOf";
   "propertyIsEnumerable"; "toString"; "valueOf"; "__proto__";
   "toLocaleString"].

(** The callback of [token.slotIDs.filter]:
<<
    const slot = slotsById[id];
    if (slot === undefined) return false;
    if (!slot.open && !slot.token.token === token.token) return false;
    return true;
>>
    [!slot.token.token === token.token] is [(!slot.token.token) ===
    token.token]; reading [slot.token.token] throws a TypeError when
    [slot.token] is [null] or [undefined]. For an id that names no slot
    but an inherited property, [slot] is a function: it has neither
    [open] nor [token], and [slot.token.token] throws as well. (An index
    holding a slot under the id [__proto__] would have that slot as its
    prototype; slot ids are taken to differ from [__proto__].) *)
Definition keepSlotID (slotsById : gmap string slot) (tok : jsval)
    (id : string) : res bool :=
  match slotsById !! id with
  | None =>
      if bool_decide (id ∈ objectPrototypeNames) then Err TypeError
      else Ok false
  | Some sl =>
      if slot_open sl then Ok true
      else match slot_token sl with
           | None => Err TypeError
           | Some st => Ok (negb (strict_eq (js_not st) tok))
           end
  end.

Fixpoint filterSlotIDs (slotsById : gmap string slot) (tok : jsval)
    (ids : list string) : res (list string) :=
  match ids with
  | [] => Ok []
  | id :: rest =>
      match keepSlotID slotsById tok id with
      | Err e => Err e
      | Ok keep =>
          match filterSlotIDs slotsById tok rest with
          | Err e => Err e
          | Ok rest' => Ok (if keep then id :: rest' else rest')
          end
      end
  end.

(** [!token.slotIDs.find(id => id === target)]: [find] yields the element
    found, so a found empty string counts as not found. *)
Definition notFound (ids : list string) (target : string) : bool :=
  match List.find (fun id => bool_decide (id = target)) ids with
  | None => true
  | Some x => negb (truthy (JStr x))
  end.

Definition slotCap : nat := 12.

(** The [for (let i = 0; i < Math.min(3, openSlots.length); i++)] loop over
    the candidates [openSlots[0..]]; the third component says that
    [break addSlots] was taken. *)
Fixpoint addFromAppointment (cands : list slot) (ids : list string)
    (added : nat) : list string * nat * bool :=
  match cands with
  | [] => (ids, added, false)
  | sl :: rest =>
      let '(ids1, added1) :=
        if notFound ids (slot_id sl)
        then (ids ++ [slot_id sl], S added)
        else (ids, added) in
      if (slotCap <=? length ids1) then (ids1, added1, true)
      else addFromAppointment rest ids1 added1
  end.

Definition openSlotsOf (oa : appointment) : list slot :=
  List.filter slot_open (ap_slotData oa).

(** One pass: [for (const oa of selectedAppointments)]. *)
Fixpoint addPass (sel : list appointment) (ids : list string)
    (added : nat) : list string * nat * bool :=
  match sel with
  | [] => (ids, added, false)
  | oa :: rest =>
      let '(ids1, added1, brk) :=
        addFromAppointment (take 3 (openSlotsOf oa)) ids added in
      if brk then (ids1, added1, true) else addPass rest ids1 added1
  end.

(** [addSlots: while (token.slotIDs.length < 12)], [None] when the fuel
    runs out before the loop ends. *)
Fixpoint addSlotsLoop (fuel : nat) (sel : list appointment)
    (ids : list string) : option (list string) :=
  match fuel with
  | O => None
  | S fuel' =>
      if (length ids <? slotCap) then
        let '(ids1, added, brk) := addPass sel ids 0 in
        if brk then Some ids1
        else if (added =? 0) then Some ids1
        else addSlotsLoop fuel' sel ids1
      else Some ids
  end.

(** The loop run with the fuel [addSlotsLoop_terminates] shows enough. *)
Definition addSlots (sel : list appointment) (ids : list string)
    : list string :=
  default ids (addSlotsLoop (S (slotCap - length ids)) sel ids).

(** ** Grants, offers and envelopes *)

Record permission := {
  perm_rights : list string;
  perm_keys : list string;
}.

(** The capability object a grant signature is made over. *)
Record grant := {
  g_objectID : string;
  g_grantID : option string;
  g_singleUse : bool;
  g_expiresAt : Z;
  g_permissions : list permission;
}.

(** [{...oa, slotData: [], grants: []}], filled slot by slot:
    [of_appointment] holds the fields spread from [oa]. *)
Record offer := {
  of_appointment : appointment;
  of_slotData : list slot;
  of_grants : list string;
}.

Definition of_id (o : offer) : string := ap_id (of_appointment o).
Definition of_publicKey (o : offer) : string :=
  ap_publicKey (of_appointment o).

Record userData := {
  ud_provider : string;
  ud_offers : list offer;
}.

Record submitData := {
  sd_id : string;
  sd_data : string;
  sd_permissions : list permission;
}.

Record keyPairSet := {
  kps_sync : option string;
  kps_signing : keyPair;
  kps_encryption : keyPair;
}.

(** [verifiedProviderData]: a private key is [None] where [JSON.parse]
    of the stored text throws. *)
Record verifiedProviderData := {
  vp_signedData : string;
  vp_queuePrivateKeys : list (string * option string);
}.

(** The user's token ([tokenData] of [confirmOffers]) and the proof
    payload [providerData] made of it. *)
Record userToken := {
  ut_signedToken : string;
  ut_tokenData : string;
  ut_encryptedContactData : string;
  ut_keyPair : keyPair;
  ut_signingKeyPair : keyPair;
}.

Record proofData := {
  pd_signedToken : string;
  pd_tokenData : string;
  pd_contactData : string;
}.

Record invitation := {
  inv_publicKey : string;
  inv_providerID : string;
}.

(** The argument of [bookSlot]. *)
Record bookRequest := {
  br_id : string;
  br_providerID : string;
  br_encryptedData : string;
  br_signedTokenData : string;
}.

(** What [sign] is asked to sign, and what [ecdhEncrypt] to encrypt. *)
Inductive payload :=
| PGrant (g : grant)
| PEncrypted (c : string).

Inductive plaintext :=
| PlainUserData (u : userData)
| PlainProof (p : proofData).

(** ** Collaborators and the world *)

Inductive call :=
| CLock (name : option string)
| CUnlock (name : option string)
| CReturnTokens (tokens : list jsval)
| CGetQueueTokens (n : Z)
| CEcdhDecrypt (d : encryptedData) (privateKey : option string)
| CGenerateECDHKeyPair
| CGenerateECDSAKeyPair
| CGenerateSymmetricKey
| CRandomBytes (n : nat)
| CSign (p : payload)
| CEcdhEncrypt (p : plaintext) (kp : keyPair) (publicKey : string)
| CBulkStoreData (l : list submitData)
| CEphemeralECDHEncrypt (p : proofData) (publicKey : string)
| CBookSlot (r : bookRequest) (kp : keyPair).

(** The calls made so far, the latest first, and their number. *)
Record world := {
  w_tick : nat;
  w_calls : list call;
}.

Definition emit (c : call) (w : world) : world :=
  {| w_tick := S (w_tick w); w_calls := c :: w_calls w |}.

Definition world0 : world := {| w_tick := 0; w_calls := [] |}.

(** Each oracle gets the number of calls made before this one, so the
    answer to a call may depend on everything that happened before.
    [co_toString] is the [toString] method of the values the
    collaborators throw: it belongs to the thrown value, is no call, and
    is asked only about objects (see [toStringOf]). *)
Record collaborators := {
  co_lock : nat -> option string -> res unit;
  co_returnTokens : nat -> list jsval -> res unit;
  co_getQueueTokens : nat -> Z -> res (option (list (list encryptedToken)));
  co_ecdhDecrypt : nat -> encryptedData -> option string -> res tokenData;
  co_generateECDHKeyPair : nat -> res keyPair;
  co_generateECDSAKeyPair : nat -> res keyPair;
  co_generateSymmetricKey : nat -> res string;
  co_randomBytes : nat -> nat -> string;
  co_sign : nat -> payload -> res string;
  co_ecdhEncrypt : nat -> plaintext -> keyPair -> string -> res string;
  co_bulkStoreData : nat -> list submitData -> res unit;
  co_ephemeralECDHEncrypt : nat -> proofData -> string -> res string;
  co_bookSlot : nat -> bookRequest -> keyPair -> res unit;
  co_toString : thrown -> res string;
}.

(** The provider's local store: ['provider::appointments::open'],
    ['provider::tokens::open'] and ['provider::keyPairs']. *)
Record providerStore := {
  ps_appointments : list appointment;
  ps_tokens : list token;
  ps_keyPairs : option keyPairSet;
}.

Definition setTokens (toks : list token) (st : providerStore)
    : providerStore :=
  {| ps_appointments := ps_appointments st;
     ps_tokens := toks;
     ps_keyPairs := ps_keyPairs st |}.

(** What an action returns: [{status, data, error}]. *)
Record outcome (D : Type) := {
  oc_status : status;
  oc_data : option D;
  oc_error : option thrown;
}.
Arguments oc_status {D} o.
Arguments oc_data {D} o.
Arguments oc_error {D} o.

Definition succeeded {D} : outcome D :=
  {| oc_status := Succeeded; oc_data := None; oc_error := None |}.
Definition failed {D} : outcome D :=
  {| oc_status := Failed; oc_data := None; oc_error := None |}.
Definition failedWith {D} (e : thrown) : outcome D :=
  {| oc_status := Failed; oc_data := None; oc_error := Some e |}.
Definition loaded {D} (d : D) : outcome D :=
  {| oc_status := Loaded; oc_data := Some d; oc_error := None |}.

(** ** sendInvitations: the refill *)

Fixpoint getQueuePrivateKey (queueID : string)
    (keys : list (string * option string)) : res (option string) :=
  match keys with
  | [] => Ok None
  | (id, parsed) :: rest =>
      if bool_decide (id = queueID) then
        match parsed with
        | Some k => Ok (Some k)
        | None => Err SyntaxError
        end
      else getQueuePrivateKey queueID rest
  end.

Definition newToken (t : encryptedToken) (d : tokenData) (kp : keyPair)
    (grantID : string) (now : Z) : token :=
  {| tok_token := et_token t;
     tok_queue := et_queue t;
     tok_encryptedData := et_encryptedData t;
     tok_data := d;
     tok_keyPair := kp;
     tok_grantID := Some grantID;
     tok_slotIDs := Some [];
     tok_expiresAt := (now + day)%Z |}.

(** [for (const token of tokenList)]: a token that does not decrypt is
    skipped; a failing key lookup or key generation ends the cycle. *)
Fixpoint decryptTokens (E : collaborators) (now : Z) (vpd : verifiedProviderData)
    (tokenList : list encryptedToken) (validTokens : list token)
    (w : world) : res (list token) * world :=
  match tokenList with
  | [] => (Ok validTokens, w)
  | t :: rest =>
      match getQueuePrivateKey (et_queue t) (vp_queuePrivateKeys vpd) with
      | Err e => (Err e, w)
      | Ok privateKey =>
          let w1 := emit (CEcdhDecrypt (et_encryptedData t) privateKey) w in
          match co_ecdhDecrypt E (w_tick w) (et_encryptedData t) privateKey with
          | Err _ => decryptTokens E now vpd rest validTokens w1
          | Ok d =>
              let w2 := emit CGenerateECDHKeyPair w1 in
              match co_generateECDHKeyPair E (w_tick w1) with
              | Err e => (Err e, w2)
              | Ok kp =>
                  let w3 := emit (CRandomBytes 32) w2 in
                  let grantID := co_randomBytes E (w_tick w2) 32 in
                  decryptTokens E now vpd rest
                    (validTokens ++ [newToken t d kp grantID now]) w3
              end
          end
      end
  end.

(** The tokens an array of addresses stands for, given the objects by
    address: what [backend.local.set] writes of the array. *)
Definition deref (objects : list token) (refs : list nat) : list token :=
  omap (fun a => objects !! a) refs.

(** [for (const tokenList of newTokens)]; [validTokens] is not reset
    between the lists, and the whole of it is appended after each:
    [openTokens = [...openTokens, ...validTokens]] copies references, so
    a token of an earlier list is in [openTokens] once more for every
    later list, as the same object. [validTokens] holds the new objects
    in the order they were made, the first of them at the address
    [base]; [openTokens] holds addresses. *)
Fixpoint refillLists (E : collaborators) (now : Z) (vpd : verifiedProviderData)
    (newTokens : list (list encryptedToken)) (base : nat)
    (openTokens : list nat) (validTokens : list token) (w : world)
    : res (list nat * list token) * world :=
  match newTokens with
  | [] => (Ok (openTokens, validTokens), w)
  | tokenList :: rest =>
      match decryptTokens E now vpd tokenList validTokens w with
      | (Err e, w1) => (Err e, w1)
      | (Ok validTokens1, w1) =>
          refillLists E now vpd rest base
            (openTokens ++ seq base (length validTokens1)) validTokens1 w1
      end
  end.

Definition overbookingFactor : Z := 5.
Definition tokenCap : nat := 1000.

(** [openSlots]: the open slots of the appointments on offer. *)
Definition countOpenSlots (openAppointments : list appointment) : nat :=
  fold_left (fun n ap => n + length (openSlotsOf ap)) openAppointments 0.

(** [Math.floor(Math.max(0, openSlots * overbookingFactor -
    openTokens.length))] *)
Definition refillCount (openSlots liveTokens : nat) : Z :=
  Z.max 0 (Z.of_nat openSlots * overbookingFactor - Z.of_nat liveTokens).

(** How the refill ends: the pool to go on with, as addresses and the
    objects at them, or the value the cycle returns at once. *)
Inductive refillEnd :=
| RefillDone (openTokens : list nat) (objects : list token)
| RefillFailed (e : option thrown).

(** The live tokens read from the store, [openTokens], are objects of
    their own, at the addresses [0 .. length openTokens - 1]; the tokens
    the refill makes follow them. *)
Definition refill (E : collaborators) (now : Z) (vpd : verifiedProviderData)
    (openSlots : nat) (openTokens : list token) (st : providerStore)
    (w : world) : refillEnd * providerStore * world :=
  let n := refillCount openSlots (length openTokens) in
  let refs := seq 0 (length openTokens) in
  if bool_decide (0 < n)%Z && (length openTokens <? tokenCap) then
    let w1 := emit (CGetQueueTokens n) w in
    match co_getQueueTokens E (w_tick w) n with
    | Err e => (RefillFailed (Some e), st, w1)
    | Ok None => (RefillFailed None, st, w1)
    | Ok (Some newTokens) =>
        match refillLists E now vpd newTokens (length openTokens) refs []
                w1 with
        | (Err e, w2) => (RefillFailed (Some e), st, w2)
        | (Ok (refs1, validTokens), w2) =>
            let objects := openTokens ++ validTokens in
            (RefillDone refs1 objects, setTokens (deref objects refs1) st,
             w2)
        end
    end
  else (RefillDone refs openTokens, st, w).

(** ** sendInvitations: the token loop *)

(** The three indices built from the selected appointments; a later slot
    with the same id overwrites an earlier one. *)
Definition indexSlots (sel : list appointment) : gmap string slot :=
  fold_left
    (fun m oa => fold_left (fun m sl => <[slot_id sl := sl]> m)
                   (ap_slotData oa) m)
    sel ∅.

Definition indexAppointmentsBySlot (sel : list appointment)
    : gmap string appointment :=
  fold_left
    (fun m oa => fold_left (fun m sl => <[slot_id sl := oa]> m)
                   (ap_slotData oa) m)
    sel ∅.

Definition fullRights : list string := ["read"; "write"; "delete"].

Definition grantFor (keyPairs : keyPairSet) (tok : token) (sl : slot)
    : grant :=
  {| g_objectID := slot_id sl;
     g_grantID := tok_grantID tok;
     g_singleUse := true;
     g_expiresAt := tok_expiresAt tok;
     g_permissions :=
       [ {| perm_rights := ["read"; "write"; "delete"];
            perm_keys := [kp_publicKey (kps_signing keyPairs)] |};
         {| perm_rights := ["write"; "read"; "delete"];
            perm_keys := [td_publicKey (tok_data tok)] |} ] |}.

(** [Promise.all(slots.map(async slot => await sign(...)))]: every call
    is made; the whole fails when one of them does. *)
Fixpoint signGrants (E : collaborators) (grants : list grant) (w : world)
    : res (list string) * world :=
  match grants with
  | [] => (Ok [], w)
  | g :: rest =>
      let r := co_sign E (w_tick w) (PGrant g) in
      let '(rs, w1) := signGrants E rest (emit (CSign (PGrant g)) w) in
      (match r, rs with
       | Err e, _ => Err e
       | Ok _, Err e => Err e
       | Ok s, Ok l => Ok (s :: l)
       end, w1)
  end.

(** [appointments[oa.id]] created on first use, then pushed to: the
    offers in the order their appointments were first met. *)
Fixpoint addToOffers (oa : appointment) (sl : slot) (g : string)
    (offers : list offer) : list offer :=
  match offers with
  | [] => [ {| of_appointment := oa; of_slotData := [sl];
               of_grants := [g] |} ]
  | o :: rest =>
      if bool_decide (of_id o = ap_id oa)
      then {| of_appointment := of_appointment o;
              of_slotData := of_slotData o ++ [sl];
              of_grants := of_grants o ++ [g] |} :: rest
      else o :: addToOffers oa sl g rest
  end.

(** [slots.forEach((slot, i) => ...)] over the slots and their grant
    signatures; reading [oa.id] of a missing appointment throws. So does
    an appointment whose id is an inherited property name:
    [appointments[oa.id]] is not [undefined] then, no offer is made, and
    [appointment.slotData.push] reads [slotData] of a function. *)
Fixpoint groupOffers (bySlot : gmap string appointment)
    (slots : list slot) (grantsData : list string) (offers : list offer)
    : res (list offer) :=
  match slots, grantsData with
  | sl :: slots', g :: grants' =>
      match bySlot !! slot_id sl with
      | None => Err TypeError
      | Some oa =>
          if bool_decide (ap_id oa ∈ objectPrototypeNames) then Err TypeError
          else groupOffers bySlot slots' grants' (addToOffers oa sl g offers)
      end
  | _, _ => Ok offers
  end.

(** A property key that is an array index: the decimal text, without
    sign or leading zeros, of an integer below 2^32 - 1. *)
Definition digitValue (c : Ascii.ascii) : option N :=
  let n := Ascii.N_of_ascii c in
  if (48 <=? n)%N && (n <=? 57)%N then Some (n - 48)%N else None.

Fixpoint parseDigits (s : string) (acc : N) : option N :=
  match s with
  | EmptyString => Some acc
  | String c s' =>
      match digitValue c with
      | Some d => parseDigits s' (10 * acc + d)%N
      | None => None
      end
  end.

Definition arrayIndex (s : string) : option N :=
  match parseDigits s 0 with
  | Some n =>
      if bool_decide (pretty n = s) && (n <? 4294967295)%N then Some n
      else None
  | None => None
  end.

(** Insertion of an offer into offers sorted by their array index. *)
Fixpoint insertIndexed (n : N) (o : offer) (l : list (N * offer))
    : list (N * offer) :=
  match l with
  | [] => [(n, o)]
  | (m, o') :: rest =>
      if (n <=? m)%N then (n, o) :: l
      else (m, o') :: insertIndexed n o rest
  end.

(** [Object.values(appointments)]: the offers whose id is an array index
    first, by ascending index, then the others in the order they were
    made. *)
Definition objectValues (offers : list offer) : list offer :=
  let indexed :=
    fold_right (fun o acc =>
                  match arrayIndex (of_id o) with
                  | Some n => insertIndexed n o acc
                  | None => acc
                  end) [] offers in
  map snd indexed
  ++ List.filter (fun o => bool_decide (arrayIndex (of_id o) = None)) offers.

Definition setGrantID (g : string) (tok : token) : token :=
  {| tok_token := tok_token tok; tok_queue := tok_queue tok;
     tok_encryptedData := tok_encryptedData tok; tok_data := tok_data tok;
     tok_keyPair := tok_keyPair tok; tok_grantID := Some g;
     tok_slotIDs := tok_slotIDs tok; tok_expiresAt := tok_expiresAt tok |}.

Definition setSlotIDs (ids : list string) (tok : token) : token :=
  {| tok_token := tok_token tok; tok_queue := tok_queue tok;
     tok_encryptedData := tok_encryptedData tok; tok_data := tok_data tok;
     tok_keyPair := tok_keyPair tok; tok_grantID := tok_grantID tok;
     tok_slotIDs := Some ids; tok_expiresAt := tok_expiresAt tok |}.

Definition setExpiresAt (t : Z) (tok : token) : token :=
  {| tok_token := tok_token tok; tok_queue := tok_queue tok;
     tok_encryptedData := tok_encryptedData tok; tok_data := tok_data tok;
     tok_keyPair := tok_keyPair tok; tok_grantID := tok_grantID tok;
     tok_slotIDs := tok_slotIDs tok; tok_expiresAt := t |}.

(** The slot part of the loop body: default, filter, top-up, new expiry.
    [Err]: the filter threw, the token keeps its (defaulted) list. *)
Definition updateSlots (now : Z) (sel : list appointment)
    (slotsById : gmap string slot) (tok : token) : res token :=
  let ids0 := default [] (tok_slotIDs tok) in
  match filterSlotIDs slotsById (tok_token tok) ids0 with
  | Err e => Err e
  | Ok ids1 =>
      Ok (setExpiresAt (now + day)%Z (setSlotIDs (addSlots sel ids1) tok))
  end.

(** The slots a token's grants are made for. *)
Definition slotsOf (slotsById : gmap string slot) (tok : token)
    : list slot :=
  omap (fun id => slotsById !! id) (default [] (tok_slotIDs tok)).

Definition envelopePermissions (keyPairs : keyPairSet) (tok : token)
    : list permission :=
  [ {| perm_rights := ["read"];
       perm_keys := [td_publicKey (tok_data tok)] |};
    {| perm_rights := ["read"; "write"; "delete"];
       perm_keys := [kp_publicKey (kps_signing keyPairs)] |} ].

(** The body of [for (const [i, token] of openTokens.entries())]: the
    token as the body left it, and its envelope unless the body threw. *)
Definition processToken (E : collaborators) (now : Z)
    (keyPairs : keyPairSet) (vpd : verifiedProviderData)
    (sel : list appointment) (slotsById : gmap string slot)
    (bySlot : gmap string appointment) (tok : token) (w : world)
    : token * option submitData * world :=
  let '(tok1, w1) :=
    match tok_grantID tok with
    | Some _ => (tok, w)
    | None => (setGrantID (co_randomBytes E (w_tick w) 32) tok,
               emit (CRandomBytes 32) w)
    end in
  match updateSlots now sel slotsById tok1 with
  | Err _ => (setSlotIDs (default [] (tok_slotIDs tok1)) tok1, None, w1)
  | Ok tok2 =>
      let slots := slotsOf slotsById tok2 in
      match signGrants E (map (grantFor keyPairs tok2) slots) w1 with
      | (Err _, w2) => (tok2, None, w2)
      | (Ok grantsData, w2) =>
          match groupOffers bySlot slots grantsData [] with
          | Err _ => (tok2, None, w2)
          | Ok offers =>
              let u := PlainUserData {| ud_provider := vp_signedData vpd;
                                        ud_offers := objectValues offers |} in
              let pk := ed_publicKey (tok_encryptedData tok2) in
              let w3 := emit (CEcdhEncrypt u (tok_keyPair tok2) pk) w2 in
              match co_ecdhEncrypt E (w_tick w2) u (tok_keyPair tok2) pk with
              | Err _ => (tok2, None, w3)
              | Ok c =>
                  let w4 := emit (CSign (PEncrypted c)) w3 in
                  match co_sign E (w_tick w3) (PEncrypted c) with
                  | Err _ => (tok2, None, w4)
                  | Ok signed =>
                      (tok2,
                       Some {| sd_id := td_id (tok_data tok2);
                               sd_data := signed;
                               sd_permissions :=
                                 envelopePermissions keyPairs tok2 |},
                       w4)
                  end
              end
          end
      end
  end.

(** [for (const [i, token] of openTokens.entries())]: the body works on
    the object at the address and leaves it changed for every later
    turn at the same address. (An address without an object is passed
    over; the refill hands out none.) *)
Fixpoint processTokens (E : collaborators) (now : Z)
    (keyPairs : keyPairSet) (vpd : verifiedProviderData)
    (sel : list appointment) (slotsById : gmap string slot)
    (bySlot : gmap string appointment) (openTokens : list nat)
    (objects : list token) (w : world)
    : list token * list submitData * world :=
  match openTokens with
  | [] => (objects, [], w)
  | a :: rest =>
      match objects !! a with
      | None =>
          processTokens E now keyPairs vpd sel slotsById bySlot rest
            objects w
      | Some tok =>
          let '(tok', sd, w1) :=
            processToken E now keyPairs vpd sel slotsById bySlot tok w in
          let '(objects', sds, w2) :=
            processTokens E now keyPairs vpd sel slotsById bySlot rest
              (<[a := tok']> objects) w1 in
          (objects', option_list sd ++ sds, w2)
      end
  end.

(** ** sendInvitations *)

(** The instants a [Date] can hold: 100,000,000 days either side of the
    epoch. [new Date(t)] is an invalid date for any other [t], and every
    comparison with an invalid date is false. *)
Definition maxDate : Z := (8640000000000000)%Z.

Definition validDate (t : Z) : bool :=
  bool_decide (- maxDate <= t)%Z && bool_decide (t <= maxDate)%Z.

(** [new Date(oa.timestamp) > new Date(new Date().getTime() + 1000 * 60 *
    60)]: an appointment whose timestamp is no valid date is never on
    offer. *)
Definition offerable (now : Z) (oa : appointment) : bool :=
  validDate (ap_timestamp oa) && validDate (now + hour)
  && bool_decide (now + hour < ap_timestamp oa)%Z.

Definition expired (now : Z) (tok : token) : bool :=
  bool_decide (tok_expiresAt tok <= now)%Z.

Definition live (now : Z) (tok : token) : bool :=
  bool_decide (now < tok_expiresAt tok)%Z.

(** [oa.slotData.filter(sl => sl.open || true).length > 0] *)
Definition hasSlots (oa : appointment) : bool :=
  bool_decide
    (0 < length (List.filter (fun sl => slot_open sl || true)
                   (ap_slotData oa))).

(** The block under the lock, from reading the appointments to the
    [return] (or the outer [catch], which returns nothing). *)
Definition sendInvitationsLocked (E : collaborators) (now : Z)
    (keyPairs : keyPairSet) (vpd : verifiedProviderData)
    (st : providerStore) (w : world)
    : completion (outcome unit) * providerStore * world :=
  if bool_decide (length (ps_appointments st) = 0) then
    (Returned succeeded, st, w)
  else
    let openAppointments := List.filter (offerable now) (ps_appointments st) in
    let expiredTokens := List.filter (expired now) (ps_tokens st) in
    let returned :=
      if bool_decide (0 < length expiredTokens) then
        (co_returnTokens E (w_tick w) (map tok_token expiredTokens),
         emit (CReturnTokens (map tok_token expiredTokens)) w)
      else (Ok tt, w) in
    match returned with
    | (Err _, w1) => (ReturnedUndefined, st, w1)
    | (Ok _, w1) =>
        let openTokens := List.filter (live now) (ps_tokens st) in
        let openSlots := countOpenSlots openAppointments in
        match refill E now vpd openSlots openTokens st w1 with
        | (RefillFailed None, st1, w2) => (Returned failed, st1, w2)
        | (RefillFailed (Some e), st1, w2) =>
            (Returned (failedWith e), st1, w2)
        | (RefillDone openTokens1 objects1, st1, w2) =>
            let sel := List.filter hasSlots openAppointments in
            let '(objects2, dataToSubmit, w3) :=
              processTokens E now keyPairs vpd sel (indexSlots sel)
                (indexAppointmentsBySlot sel) openTokens1 objects1 w2 in
            let st2 := setTokens (deref objects2 openTokens1) st1 in
            let w4 := emit (CBulkStoreData dataToSubmit) w3 in
            match co_bulkStoreData E (w_tick w3) dataToSubmit with
            | Err e => (Returned (failedWith e), st2, w4)
            | Ok _ => (Returned succeeded, st2, w4)
            end
        end
    end.

Definition sendInvitations (E : collaborators) (now : Z)
    (keyPairs : keyPairSet) (vpd : verifiedProviderData)
    (st : providerStore) (w : world)
    : completion (outcome unit) * providerStore * world :=
  match co_lock E (w_tick w) None with
  | Err _ => (Threw ThNull, st, emit (CLock None) w)
  | Ok _ =>
      let '(r, st1, w1) :=
        sendInvitationsLocked E now keyPairs vpd st (emit (CLock None) w) in
      (r, st1, emit (CUnlock None) w1)
  end.

(** ** keyPairs and createAppointment *)

(** [e.toString()]: a TypeError for [null] and [undefined], the text
    itself for a string, [true] or [false] for a boolean, the decimal
    digits for a number (numbers are integers, small enough to be
    printed without an exponent), and what the object's own [toString]
    gives, or throws, for an object. *)
Definition toStringOf (E : collaborators) (e : thrown) : res string :=
  match e with
  | ThPrim JUndefined | ThPrim JNull => Err TypeError
  | ThPrim (JBool b) => Ok (if b then "true" else "false")
  | ThPrim (JStr s) => Ok s
  | ThPrim (JNum n) => Ok (pretty n)
  | ThObject _ _ => co_toString E e
  end.

(** [return {status: 'failed', error: e.toString()}] in a handler: the
    detail is a string; when [e.toString()] throws, the handler throws
    and nothing is returned. *)
Definition failedWithText {D} (E : collaborators) (e : thrown)
    : completion (outcome D) :=
  match toStringOf E e with
  | Ok s => Returned (failedWith (ThPrim (JStr s)))
  | Err t => Threw t
  end.

(** [key-pairs.js]: the lock is taken inside the [try ... finally], so a
    failed [lock] unlocks and lets the exception through; so does the
    handler of a failed generation when it throws. *)
Definition keyPairs (E : collaborators) (st : providerStore) (w : world)
    : completion (outcome keyPairSet) * providerStore * world :=
  let w0 := emit (CLock None) w in
  match co_lock E (w_tick w) None with
  | Err e => (Threw e, st, emit (CUnlock None) w0)
  | Ok _ =>
      match ps_keyPairs st with
      | Some stored => (Returned (loaded stored), st, emit (CUnlock None) w0)
      | None =>
          let w1 := emit CGenerateECDSAKeyPair w0 in
          match co_generateECDSAKeyPair E (w_tick w0) with
          | Err e => (failedWithText E e, st, emit (CUnlock None) w1)
          | Ok signing =>
              let w2 := emit CGenerateECDHKeyPair w1 in
              match co_generateECDHKeyPair E (w_tick w1) with
              | Err e => (failedWithText E e, st, emit (CUnlock None) w2)
              | Ok encryption =>
                  let kps := {| kps_sync := None; kps_signing := signing;
                                kps_encryption := encryption |} in
                  (Returned (loaded kps),
                   {| ps_appointments := ps_appointments st;
                      ps_tokens := ps_tokens st;
                      ps_keyPairs := Some kps |},
                   emit (CUnlock None) w2)
              end
          end
      end
  end.

(** The variant with a lock name and a sync key: a failed [lock] throws
    [null] before the [try], and the handler of a failed generation
    returns the thrown value itself, [error: e]. *)
Definition keyPairsNamed (E : collaborators) (lockName : option string)
    (st : providerStore) (w : world)
    : completion (outcome keyPairSet) * providerStore * world :=
  let name := Some (default "keyPairs" lockName) in
  let w0 := emit (CLock name) w in
  match co_lock E (w_tick w) name with
  | Err _ => (Threw ThNull, st, w0)
  | Ok _ =>
      match ps_keyPairs st with
      | Some stored => (Returned (loaded stored), st, emit (CUnlock name) w0)
      | None =>
          let w1 := emit CGenerateSymmetricKey w0 in
          match co_generateSymmetricKey E (w_tick w0) with
          | Err e => (Returned (failedWith e), st, emit (CUnlock name) w1)
          | Ok syncKey =>
              let w2 := emit CGenerateECDSAKeyPair w1 in
              match co_generateECDSAKeyPair E (w_tick w1) with
              | Err e => (Returned (failedWith e), st, emit (CUnlock name) w2)
              | Ok signing =>
                  let w3 := emit CGenerateECDHKeyPair w2 in
                  match co_generateECDHKeyPair E (w_tick w2) with
                  | Err e =>
                      (Returned (failedWith e), st, emit (CUnlock name) w3)
                  | Ok encryption =>
                      let kps := {| kps_sync := Some syncKey;
                                    kps_signing := signing;
                                    kps_encryption := encryption |} in
                      (Returned (loaded kps),
                       {| ps_appointments := ps_appointments st;
                          ps_tokens := ps_tokens st;
                          ps_keyPairs := Some kps |},
                       emit (CUnlock name) w3)
                  end
              end
          end
      end
  end.

(** The caller's part of a new appointment. *)
Record appointmentSpec := {
  as_timestamp : Z;
  as_publicKey : string;
  as_slotData : list slot;
}.

Definition createAppointment (E : collaborators) (a : appointmentSpec)
    (st : providerStore) (w : world)
    : completion (outcome (list appointment)) * providerStore * world :=
  let w0 := emit (CLock None) w in
  match co_lock E (w_tick w) None with
  | Err e => (Threw e, st, emit (CUnlock None) w0)
  | Ok _ =>
      let w1 := emit (CRandomBytes 32) w0 in
      let w2 := emit (CRandomBytes 32) w1 in
      let w3 := emit (CRandomBytes 32) w2 in
      let oa := {| ap_id := co_randomBytes E (w_tick w0) 32;
                   ap_status := co_randomBytes E (w_tick w1) 32;
                   ap_cancel := co_randomBytes E (w_tick w2) 32;
                   ap_timestamp := as_timestamp a;
                   ap_publicKey := as_publicKey a;
                   ap_slotData := as_slotData a |} in
      let openAppointments := ps_appointments st ++ [oa] in
      (Returned (loaded openAppointments),
       {| ps_appointments := openAppointments;
          ps_tokens := ps_tokens st;
          ps_keyPairs := ps_keyPairs st |},
       emit (CUnlock None) w3)
  end.

(** ** confirmOffers *)

(** [{status: ...}] of the cache ['user::invitation::slots']. *)
Inductive slotStatus := StOpen | StTaken | StError.

#[global] Instance slotStatus_eq_dec : EqDecision slotStatus.
Proof. solve_decision. Defined.

(** ['user::invitation::slots'] and ['user::invitation::accepted']. *)
Record userStore := {
  us_slots : gmap string slotStatus;
  us_accepted : option (offer * invitation * slot);
}.

(** The handler of a failed [bookSlot]:
<<
    if (typeof e === 'object' && e.name === 'RPCException') {
        if (e.error.code === 401) slotInfos[id] = {status: 'taken'};
        else slotInfos[id] = {status: 'error'};
    }
>>
    the mark to write, if any; [typeof null] is ['object'], so a thrown
    [null] makes [e.name] throw in the handler, and so does a missing
    [e.error]. *)
Definition bookingMark (e : thrown) : res (option slotStatus) :=
  match e with
  | ThPrim JNull => Err TypeError
  | ThPrim _ => Ok None
  | ThObject name error =>
      if bool_decide (name = "RPCException") then
        match error with
        | None => Err TypeError
        | Some code =>
            Ok (Some (if bool_decide (code = 401%Z) then StTaken
                      else StError))
        end
      else Ok None
  end.

(** [providerData]: the proof the user sends with a booking. *)
Definition proofOf (ut : userToken) : proofData :=
  {| pd_signedToken := ut_signedToken ut;
     pd_tokenData := ut_tokenData ut;
     pd_contactData := ut_encryptedContactData ut |}.

(** The argument of [bookSlot] for the slot [sd]. *)
Definition bookRequestFor (inv : invitation) (ut : userToken) (sd : slot)
    (encryptedData : string) : bookRequest :=
  {| br_id := slot_id sd;
     br_providerID := inv_providerID inv;
     br_encryptedData := encryptedData;
     br_signedTokenData := ut_signedToken ut |}.

(** [slotData.failed || !slotData.open], or cached as taken: skipped. *)
Definition skipped (slotInfos : gmap string slotStatus) (sd : slot)
    : bool :=
  slot_failed sd || negb (slot_open sd)
  || bool_decide (slotInfos !! slot_id sd = Some StTaken).

(** [for (let i = 0; i < offer.slotData.length; i++)] from slot [i] on:
    [Ok (Some sd)] when [sd] was booked, [Ok None] when the slots ran
    out, [Err] when the body threw out of the loop. *)
Fixpoint trySlots (E : collaborators) (inv : invitation) (ut : userToken)
    (p : proofData) (o : offer) (slots : list slot)
    (slotInfos : gmap string slotStatus) (w : world)
    : res (option slot) * gmap string slotStatus * world :=
  match slots with
  | [] => (Ok None, slotInfos, w)
  | sd :: rest =>
      if skipped slotInfos sd then trySlots E inv ut p o rest slotInfos w
      else
        let w1 := emit (CEphemeralECDHEncrypt p (of_publicKey o)) w in
        match co_ephemeralECDHEncrypt E (w_tick w) p (of_publicKey o) with
        | Err e => (Err e, slotInfos, w1)
        | Ok encryptedData =>
            let req := bookRequestFor inv ut sd encryptedData in
            let w2 := emit (CBookSlot req (ut_signingKeyPair ut)) w1 in
            match co_bookSlot E (w_tick w1) req (ut_signingKeyPair ut) with
            | Ok _ => (Ok (Some sd), slotInfos, w2)
            | Err e =>
                match bookingMark e with
                | Err e' => (Err e', slotInfos, w2)
                | Ok None => trySlots E inv ut p o rest slotInfos w2
                | Ok (Some s) =>
                    trySlots E inv ut p o rest
                      (<[slot_id sd := s]> slotInfos) w2
                end
            end
        end
  end.

(** [for (const offer of offers)]: an exception out of an offer's slots
    is logged and the next offer is tried. *)
Fixpoint tryOffers (E : collaborators) (inv : invitation) (ut : userToken)
    (p : proofData) (offers : list offer)
    (slotInfos : gmap string slotStatus) (w : world)
    : option (offer * slot) * gmap string slotStatus * world :=
  match offers with
  | [] => (None, slotInfos, w)
  | o :: rest =>
      match trySlots E inv ut p o (of_slotData o) slotInfos w with
      | (Ok (Some sd), slotInfos1, w1) => (Some (o, sd), slotInfos1, w1)
      | (_, slotInfos1, w1) => tryOffers E inv ut p rest slotInfos1 w1
      end
  end.

Definition confirmOffers (E : collaborators) (offers : list offer)
    (inv : invitation) (ut : userToken) (st : userStore) (w : world)
    : completion (outcome (offer * slot)) * userStore * world :=
  let name := Some "confirmOffers" in
  let w0 := emit (CLock name) w in
  match co_lock E (w_tick w) name with
  | Err _ => (Threw ThNull, st, w0)
  | Ok _ =>
      let p := proofOf ut in
      let w1 := emit (CEcdhEncrypt (PlainProof p) (ut_keyPair ut)
                        (inv_publicKey inv)) w0 in
      match co_ecdhEncrypt E (w_tick w0) (PlainProof p) (ut_keyPair ut)
              (inv_publicKey inv) with
      | Err e => (Threw e, st, emit (CUnlock name) w1)
      | Ok _ =>
          match tryOffers E inv ut p offers (us_slots st) w1 with
          | (Some (o, sd), slotInfos, w2) =>
              (Returned {| oc_status := Succeeded; oc_data := Some (o, sd);
                           oc_error := None |},
               {| us_slots := slotInfos;
                  us_accepted := Some (o, inv, sd) |},
               emit (CUnlock name) w2)
          | (None, slotInfos, w2) =>
              (Returned failed,
               {| us_slots := slotInfos; us_accepted := us_accepted st |},
               emit (CUnlock name) w2)
          end
      end
  end.

(** ** What a cycle does to one token, and what it asks to sign *)

(** [if (token.grantID === undefined) token.grantID = randomBytes(32)],
    [g] being what [randomBytes] gives. *)
Definition withGrantID (g : string) (tok : token) : token :=
  match tok_grantID tok with
  | Some _ => tok
  | None => setGrantID g tok
  end.

(** The token as the loop body leaves it, and the grants the body asks
    signatures for (none when the filter threw). *)
Definition tokenPlan (now : Z) (keyPairs : keyPairSet)
    (sel : list appointment) (slotsById : gmap string slot) (g : string)
    (tok : token) : token * list grant :=
  let tok1 := withGrantID g tok in
  match updateSlots now sel slotsById tok1 with
  | Err _ => (setSlotIDs (default [] (tok_slotIDs tok1)) tok1, [])
  | Ok tok2 => (tok2, map (grantFor keyPairs tok2) (slotsOf slotsById tok2))
  end.

Definition grantOfCall (c : call) : option grant :=
  match c with
  | CSign (PGrant g) => Some g
  | _ => None
  end.

(** The grants [sign] was asked for so far, the earliest first. *)
Definition grantsRequested (w : world) : list grant :=
  rev (omap grantOfCall (w_calls w)).

(** The grants asked for between the worlds [w] and [w']. *)
Definition cycleGrants (w w' : world) : list grant :=
  drop (length (grantsRequested w)) (grantsRequested w').

(** A grant without its expiry. *)
Definition eraseExpiry (g : grant) : grant :=
  {| g_objectID := g_objectID g; g_grantID := g_grantID g;
     g_singleUse := g_singleUse g; g_expiresAt := 0;
     g_permissions := g_permissions g |}.

(** The appointments a cycle at [now] works on. *)
Definition selected (now : Z) (apps : list appointment)
    : list appointment :=
  List.filter hasSlots (List.filter (offerable now) apps).

(** The ids a pass looks at: the first three open slots of each
    appointment. *)
Definition candidates (sel : list appointment) : list string :=
  concat (map (fun oa => map slot_id (take 3 (openSlotsOf oa))) sel).

Definition allSlots (sel : list appointment) : list slot :=
  concat (map ap_slotData sel).

Definition slotCount (tok : token) : nat :=
  length (default [] (tok_slotIDs tok)).

(** The offers loop resumed inside the offer [o], at its slots [slots],
    with the offers [rest] still to come. *)
Definition tryOffersFrom (E : collaborators) (inv : invitation)
    (ut : userToken) (p : proofData) (o : offer) (slots : list slot)
    (rest : list offer) (slotInfos : gmap string slotStatus) (w : world)
    : option (offer * slot) * gmap string slotStatus * world :=
  match trySlots E inv ut p o slots slotInfos w with
  | (Ok (Some sd), slotInfos1, w1) => (Some (o, sd), slotInfos1, w1)
  | (_, slotInfos1, w1) => tryOffers E inv ut p rest slotInfos1 w1
  end.

Definition isOk {A} (r : res A) : Prop := exists a, r = Ok a.

(** A remote conflict: the RPC exception with code 401. *)
Definition conflict : thrown := ThObject "RPCException" (Some 401%Z).

(** The statuses of a tagged outcome. *)
Definition tagged {D} (c : completion (outcome D)) (allowed : list status)
    : Prop :=
  exists o, c = Returned o /\ oc_status o ∈ allowed.

(** What a run of the inner loops does to the list [ids]: it appends
    [extra], taken from [cands], each id not in the list before (or
    empty), counts them, and breaks only at the cap. *)
Definition toppedUp (cands : list string) (ids : list string) (added : nat)
    (out : list string * nat * bool) : Prop :=
  exists extra,
    out.1.1 = ids ++ extra /\
    out.1.2 = added + length extra /\
    length extra <= length cands /\
    Forall (fun id => id ∈ cands) extra /\
    Forall (fun id => id ∉ ids \/ id = "") extra /\
    (out.2 = true -> slotCap <= length out.1.1) /\
    (out.2 = false -> length ids < slotCap -> length out.1.1 < slotCap) /\
    (length ids < slotCap -> length out.1.1 <= slotCap).

Definition freshToken (t : token) : Prop := tok_slotIDs t = Some [].

(** The allocator answers a request for [n] tokens with at most one list
    of at most [n] tokens. *)
Definition answersWithin (n : Z)
    (r : res (option (list (list encryptedToken)))) : Prop :=
  forall newTokens, r = Ok (Some newTokens) ->
    newTokens = [] \/
    exists tokenList, newTokens = [tokenList] /\
                      (Z.of_nat (length tokenList) <= n)%Z.

(** ** Concrete collaborators and inputs *)

Definition demoKeyPair : keyPair :=
  {| kp_publicKey := "pub"; kp_privateKey := "priv" |}.

Definition demoKeys : keyPairSet :=
  {| kps_sync := None; kps_signing := demoKeyPair;
     kps_encryption := demoKeyPair |}.

Definition demoProvider : verifiedProviderData :=
  {| vp_signedData := "provider"; vp_queuePrivateKeys := [("q", Some "qk")] |}.

(** Collaborators that never fail; the allocator has no tokens to give,
    and the random generator answers with the number of the call. *)
Definition cooperative : collaborators :=
  {| co_lock := fun _ _ => Ok tt;
     co_returnTokens := fun _ _ => Ok tt;
     co_getQueueTokens := fun _ _ => Ok (Some []);
     co_ecdhDecrypt := fun _ d _ =>
       Ok {| td_id := ed_data d; td_publicKey := ed_publicKey d |};
     co_generateECDHKeyPair := fun _ => Ok demoKeyPair;
     co_generateECDSAKeyPair := fun _ => Ok demoKeyPair;
     co_generateSymmetricKey := fun _ => Ok "sync";
     co_randomBytes := fun k _ => pretty k;
     co_sign := fun _ _ => Ok "signature";
     co_ecdhEncrypt := fun _ _ _ _ => Ok "ciphertext";
     co_bulkStoreData := fun _ _ => Ok tt;
     co_ephemeralECDHEncrypt := fun _ _ _ => Ok "ciphertext";
     co_bookSlot := fun _ _ _ => Ok tt;
     co_toString := fun _ => Ok "Error" |}.

Definition withLock (lock : nat -> option string -> res unit)
    (E : collaborators) : collaborators :=
  {| co_lock := lock;
     co_returnTokens := co_returnTokens E;
     co_getQueueTokens := co_getQueueTokens E;
     co_ecdhDecrypt := co_ecdhDecrypt E;
     co_generateECDHKeyPair := co_generateECDHKeyPair E;
     co_generateECDSAKeyPair := co_generateECDSAKeyPair E;
     co_generateSymmetricKey := co_generateSymmetricKey E;
     co_randomBytes := co_randomBytes E;
     co_sign := co_sign E;
     co_ecdhEncrypt := co_ecdhEncrypt E;
     co_bulkStoreData := co_bulkStoreData E;
     co_ephemeralECDHEncrypt := co_ephemeralECDHEncrypt E;
     co_bookSlot := co_bookSlot E;
     co_toString := co_toString E |}.

Definition withAllocator
    (alloc : nat -> Z -> res (option (list (list encryptedToken))))
    (E : collaborators) : collaborators :=
  {| co_lock := co_lock E;
     co_returnTokens := co_returnTokens E;
     co_getQueueTokens := alloc;
     co_ecdhDecrypt := co_ecdhDecrypt E;
     co_generateECDHKeyPair := co_generateECDHKeyPair E;
     co_generateECDSAKeyPair := co_generateECDSAKeyPair E;
     co_generateSymmetricKey := co_generateSymmetricKey E;
     co_randomBytes := co_randomBytes E;
     co_sign := co_sign E;
     co_ecdhEncrypt := co_ecdhEncrypt E;
     co_bulkStoreData := co_bulkStoreData E;
     co_ephemeralECDHEncrypt := co_ephemeralECDHEncrypt E;
     co_bookSlot := co_bookSlot E;
     co_toString := co_toString E |}.

Definition withBookSlot (book : nat -> bookRequest -> keyPair -> res unit)
    (E : collaborators) : collaborators :=
  {| co_lock := co_lock E;
     co_returnTokens := co_returnTokens E;
     co_getQueueTokens := co_getQueueTokens E;
     co_ecdhDecrypt := co_ecdhDecrypt E;
     co_generateECDHKeyPair := co_generateECDHKeyPair E;
     co_generateECDSAKeyPair := co_generateECDSAKeyPair E;
     co_generateSymmetricKey := co_generateSymmetricKey E;
     co_randomBytes := co_randomBytes E;
     co_sign := co_sign E;
     co_ecdhEncrypt := co_ecdhEncrypt E;
     co_bulkStoreData := co_bulkStoreData E;
     co_ephemeralECDHEncrypt := co_ephemeralECDHEncrypt E;
     co_bookSlot := book;
     co_toString := co_toString E |}.

(** Collaborators whose generation of the signing key pair rejects with
    [null]. *)
Definition rejectingNull : collaborators :=
  {| co_lock := co_lock cooperative;
     co_returnTokens := co_returnTokens cooperative;
     co_getQueueTokens := co_getQueueTokens cooperative;
     co_ecdhDecrypt := co_ecdhDecrypt cooperative;
     co_generateECDHKeyPair := co_generateECDHKeyPair cooperative;
     co_generateECDSAKeyPair := fun _ => Err ThNull;
     co_generateSymmetricKey := co_generateSymmetricKey cooperative;
     co_randomBytes := co_randomBytes cooperative;
     co_sign := co_sign cooperative;
     co_ecdhEncrypt := co_ecdhEncrypt cooperative;
     co_bulkStoreData := co_bulkStoreData cooperative;
     co_ephemeralECDHEncrypt := co_ephemeralECDHEncrypt cooperative;
     co_bookSlot := co_bookSlot cooperative;
     co_toString := co_toString cooperative |}.

(** A lock that is held by someone else. *)
Definition contended : collaborators :=
  withLock (fun _ _ => Err (ThObject "Error" None)) cooperative.

Definition demoEncryptedToken (i : nat) : encryptedToken :=
  {| et_token := JStr ("t" +:+ pretty i); et_queue := "q";
     et_encryptedData := {| ed_data := pretty i; ed_publicKey := "user" |} |}.

(** An allocator that hands out every token it is asked for, in one
    list. *)
Definition generous : collaborators :=
  withAllocator
    (fun _ n => Ok (Some [map demoEncryptedToken (seq 0 (Z.to_nat n))]))
    cooperative.

Definition openSlot (id : string) : slot :=
  {| slot_id := id; slot_open := true; slot_failed := false;
     slot_token := None |}.

(** A slot booked with the token whose secret is [owner]. *)
Definition takenSlot (id owner : string) : slot :=
  {| slot_id := id; slot_open := false; slot_failed := false;
     slot_token := Some (JStr owner) |}.

Definition demoSlots (n : nat) : list slot :=
  map (fun i => openSlot ("s" +:+ pretty i)) (seq 0 n).

(** An appointment a hundred hours after the instant 0. *)
Definition demoAppointment (slots : list slot) : appointment :=
  {| ap_id := "a"; ap_status := "status"; ap_cancel := "cancel";
     ap_timestamp := (100 * hour)%Z; ap_publicKey := "apk";
     ap_slotData := slots |}.

(** A token with the secret [secret], due at [expiresAt]. *)
Definition demoToken (secret : string) (ids : option (list string))
    (expiresAt : Z) : token :=
  {| tok_token := JStr secret; tok_queue := "q";
     tok_encryptedData := {| ed_data := "data"; ed_publicKey := "user" |};
     tok_data := {| td_id := "id-" +:+ secret; td_publicKey := "user" |};
     tok_keyPair := demoKeyPair;
     tok_grantID := Some ("grant-" +:+ secret);
     tok_slotIDs := ids;
     tok_expiresAt := expiresAt |}.

Definition demoStore (apps : list appointment) (toks : list token)
    : providerStore :=
  {| ps_appointments := apps; ps_tokens := toks; ps_keyPairs := None |}.

Definition demoInvitation : invitation :=
  {| inv_publicKey := "provider"; inv_providerID := "p" |}.

Definition demoUserToken : userToken :=
  {| ut_signedToken := "signed"; ut_tokenData := "data";
     ut_encryptedContactData := "contact"; ut_keyPair := demoKeyPair;
     ut_signingKeyPair := demoKeyPair |}.

Definition demoOffer (id : string) (slots : list slot) : offer :=
  {| of_appointment :=
       {| ap_id := id; ap_status := "status"; ap_cancel := "cancel";
          ap_timestamp := (100 * hour)%Z; ap_publicKey := "apk";
          ap_slotData := slots |};
     of_slotData := slots; of_grants := [] |}.

Definition emptyUserStore : userStore :=
  {| us_slots := ∅; us_accepted := None |}.

(** [bookSlot] that answers by slot id. *)
Definition bookingBy (answer : string -> res unit) : collaborators :=
  withBookSlot (fun _ r _ => answer (br_id r)) cooperative.

Definition allocatorRequest (c : call) : option Z :=
  match c with
  | CGetQueueTokens n => Some n
  | _ => None
  end.

(** The token counts asked of the allocator so far, the earliest
    first. *)
Definition allocatorRequests (w : world) : list Z :=
  rev (omap allocatorRequest (w_calls w)).

Definition withEphemeralECDHEncrypt
    (enc : nat -> proofData -> string -> res string)
    (E : collaborators) : collaborators :=
  {| co_lock := co_lock E;
     co_returnTokens := co_returnTokens E;
     co_getQueueTokens := co_getQueueTokens E;
     co_ecdhDecrypt := co_ecdhDecrypt E;
     co_generateECDHKeyPair := co_generateECDHKeyPair E;
     co_generateECDSAKeyPair := co_generateECDSAKeyPair E;
     co_generateSymmetricKey := co_generateSymmetricKey E;
     co_randomBytes := co_randomBytes E;
     co_sign := co_sign E;
     co_ecdhEncrypt := co_ecdhEncrypt E;
     co_bulkStoreData := co_bulkStoreData E;
     co_ephemeralECDHEncrypt := enc;
     co_bookSlot := co_bookSlot E;
     co_toString := co_toString E |}.

(** The booking requests made so far, by slot id, the earliest first. *)
Definition bookingsTried (w : world) : list string :=
  rev (omap (fun c => match c with
                      | CBookSlot r _ => Some (br_id r)
                      | _ => None
                      end) (w_calls w)).

(** A mark of the cache: taken or error. *)
Definition marked (slotInfos : gmap string slotStatus) (id : string)
    : Prop :=
  slotInfos !! id = Some StTaken \/ slotInfos !! id = Some StError.

(** The token loop without its collaborators: the objects as the loop
    leaves them and the grants it asks signatures for, [gs] being the
    grant ids its turns would draw. *)
Fixpoint planTokens (now : Z) (keyPairs : keyPairSet)
    (sel : list appointment) (slotsById : gmap string slot)
    (gs : list string) (refs : list nat) (objects : list token)
    : list token * list grant :=
  match refs, gs with
  | a :: refs', g :: gs' =>
      match objects !! a with
      | None => planTokens now keyPairs sel slotsById gs' refs' objects
      | Some tok =>
          let '(tok', grants) :=
            tokenPlan now keyPairs sel slotsById g tok in
          let '(objects', more) :=
            planTokens now keyPairs sel slotsById gs' refs'
              (<[a := tok']> objects) in
          (objects', grants ++ more)
      end
  | _, _ => (objects, [])
  end.

(** A token as some turn of the loop left it, and the grants a turn asks
    for when it finds the token [t] with a grant id. *)
Definition planned (now : Z) (keyPairs : keyPairSet)
    (sel : list appointment) (t : token) : Prop :=
  exists g t0, t = (tokenPlan now keyPairs sel (indexSlots sel) g t0).1.

Definition grantsOf (now : Z) (keyPairs : keyPairSet)
    (sel : list appointment) (t : token) : list grant :=
  (tokenPlan now keyPairs sel (indexSlots sel) "" t).2.

(** The cycle got to its token loop: the loop ran over the live tokens
    of the store and over the references [refs] to the tokens [valid]
    the refill made, and the store holds what the pool then stood
    for. *)
Definition ranTokenLoop (now : Z) (keyPairs : keyPairSet)
    (st : providerStore) (w : world) (st' : providerStore) (w' : world)
    : Prop :=
  let sel := selected now (ps_appointments st) in
  let stored := List.filter (live now) (ps_tokens st) in
  exists valid refs gs,
    let objects := stored ++ valid in
    let pool := seq 0 (length stored) ++ refs in
    let plan := planTokens now keyPairs sel (indexSlots sel) gs pool
                  objects in
    Forall freshToken valid /\
    Forall (fun a => length stored <= a < length objects) refs /\
    (refs = [] -> valid = []) /\
    length gs = length pool /\
    ps_tokens st' = deref plan.1 pool /\
    grantsRequested w' = grantsRequested w ++ plan.2.

(** A store for two cycles in a row: one appointment with two open
    slots, one token that holds no slot yet. *)
Definition twoRunsStore : providerStore :=
  demoStore [demoAppointment (demoSlots 2)] [demoToken "A" None (2 * day)].


(** ** queueData *)

(** [queueData(state, keyStore, settings, data)] over the entry
    ['user::queueData'] of [backend.temporary]; the entry is [None] where
    [get] gives [null]. The argument is [None] for [undefined],
    [Some None] for [null]. *)
Definition queueData {D} (data : option (option D)) (stored : option D)
    : outcome D * option D :=
  let stored1 := match data with
                 | Some v => v
                 | None => stored
                 end in
  (match stored1 with
   | None => failed
   | Some d => loaded d
   end, stored1).

(** ** Kinds of calls *)

(** The calls the refill makes. *)
Definition isRefillCall (c : call) : Prop :=
  match c with
  | CGetQueueTokens _ | CEcdhDecrypt _ _ | CGenerateECDHKeyPair
  | CRandomBytes _ => True
  | _ => False
  end.

(** The calls the token loop makes. *)
Definition isLoopCall (c : call) : Prop :=
  match c with
  | CRandomBytes _ | CSign _ | CEcdhEncrypt _ _ _ => True
  | _ => False
  end.

(** The calls the confirmation loop makes. *)
Definition isBookingCall (c : call) : Prop :=
  match c with
  | CEphemeralECDHEncrypt _ _ | CBookSlot _ _ => True
  | _ => False
  end.

Definition bookingOfCall (c : call) : option string :=
  match c with
  | CBookSlot r _ => Some (br_id r)
  | _ => None
  end.

(** How often the tokens of each list end up in the pool when the lists
    of one answer are appended: the tokens of a list are appended again
    after every later list. *)
Fixpoint weighted (newTokens : list (list encryptedToken)) : nat :=
  match newTokens with
  | [] => 0
  | l :: rest => length l * S (length rest) + weighted rest
  end.

(** A slot the confirmation loop would try under the cache
    [slotInfos]. *)
Definition eligible (slotInfos : gmap string slotStatus) (sd : slot)
    : Prop :=
  slot_failed sd = false /\ slot_open sd = true /\
  slotInfos !! slot_id sd <> Some StTaken.

(** The slots of the offers, in the order the loop meets them. *)
Definition offeredSlots (offers : list offer) : list slot :=
  concat (map of_slotData offers).

(** What a cycle changes of a token at most: its grant id when it had
    none, its slot ids and its expiry. *)
Definition sameIdentity (t t' : token) : Prop :=
  tok_token t' = tok_token t /\
  tok_queue t' = tok_queue t /\
  tok_encryptedData t' = tok_encryptedData t /\
  tok_data t' = tok_data t /\
  tok_keyPair t' = tok_keyPair t /\
  (forall g, tok_grantID t = Some g -> tok_grantID t' = Some g).

(** A pool token made of the encrypted token [et] of the allocator. *)
Definition madeFrom (et : encryptedToken) (t : token) : Prop :=
  tok_token t = et_token et /\
  tok_queue t = et_queue et /\
  tok_encryptedData t = et_encryptedData et /\
  is_Some (tok_grantID t).

(** The lists [l1; l2; l3; ...] as the refill appends them to the pool:
    [acc ++ l1], then [acc ++ l1 ++ l2], and so on, each time all that
    was made so far. *)
Fixpoint repeats {A : Type} (acc : list A) (ls : list (list A)) : list A :=
  match ls with
  | [] => []
  | l :: rest => (acc ++ l) ++ repeats (acc ++ l) rest
  end.

(** The offers built so far: no two offers of one appointment id, as
    many grants as slots in each, every slot under the offer of the
    appointment the index [bySlot] gives for it. *)
Definition offersOk (bySlot : gmap string appointment)
    (offers : list offer) : Prop :=
  NoDup (map of_id offers) /\
  Forall (fun o =>
    length (of_grants o) = length (of_slotData o) /\
    Forall (fun sl => exists oa, bySlot !! slot_id sl = Some oa /\
                                 ap_id oa = of_id o) (of_slotData o))
    offers.

(** What a stretch of the confirmation loop over the slots [slots] does,
    from the cache [c] and the world [w] to [c'] and [w']: it makes only
    encryption and booking calls; it books only eligible slots of
    [slots]; a slot cached as taken stays so, no entry is removed, and
    an entry changes only to a mark, at the id of a slot it tried. *)
Definition confirmStep (slots : list slot)
    (c : gmap string slotStatus) (w : world)
    (c' : gmap string slotStatus) (w' : world) : Prop :=
  exists later,
    w_calls w' = later ++ w_calls w /\
    Forall isBookingCall later /\
    Forall (fun id => exists sd, sd ∈ slots /\ slot_id sd = id /\
                                 eligible c sd)
      (omap bookingOfCall later) /\
    (forall id, c !! id = Some StTaken -> c' !! id = Some StTaken) /\
    (forall id, is_Some (c !! id) -> is_Some (c' !! id)) /\
    (forall id, c' !! id <> c !! id ->
       marked c' id /\ id ∈ omap bookingOfCall later).

(** The bookings tried between the worlds [w] and [w']. *)
Definition newBookings (w w' : world) : list string :=
  drop (length (bookingsTried w)) (bookingsTried w').

(** * Properties *)

(** ** The top-up loop *)

Section TopUp.

Lemma notFound_spec (ids : list string) (t : string) :
  notFound ids t = true <-> (t ∉ ids \/ t = "").
Proof.
  unfold notFound.
  destruct (List.find _ ids) as [x|] eqn:Hf.
  - apply find_some in Hf as [Hin Hx].
    apply bool_decide_eq_true in Hx. subst x. simpl.
    rewrite negb_involutive, bool_decide_eq_true.
    split; [tauto|]. intros [Hn|]; [|done].
    exfalso. apply Hn. by apply list_elem_of_In.
  - split; [|done]. intros _. left. intros Hin.
    apply list_elem_of_In in Hin.
    eapply find_none in Hf; [|exact Hin].
    by rewrite bool_decide_eq_false in Hf.
Qed.

Lemma toppedUp_step (c : string) (cands : list string) ids added x out :
  (x = [] \/ (x = [c] /\ (c ∉ ids \/ c = ""))) ->
  length (ids ++ x) < slotCap ->
  toppedUp cands (ids ++ x) (added + length x) out ->
  toppedUp (c :: cands) ids added out.
Proof.
  intros Hx Hlt (extra & H1 & H2 & H3 & H4 & H5 & H6 & H7 & H8).
  exists (x ++ extra). rewrite length_app in *.
  repeat split.
  - by rewrite H1, app_assoc.
  - lia.
  - destruct Hx as [->|[-> _]]; simpl; lia.
  - apply Forall_app; split.
    + destruct Hx as [->|[-> _]]; [constructor|].
      constructor; [apply list_elem_of_here|constructor].
    + eapply Forall_impl; [exact H4|]. intros ? ?. by right.
  - apply Forall_app; split.
    + destruct Hx as [->|[-> ?]]; [constructor|]. constructor; [done|constructor].
    + eapply Forall_impl; [exact H5|]. intros id [Hn|?]; [left|by right].
      intros Hin. apply Hn. apply elem_of_app. by left.
  - done.
  - intros. apply H7; [done|]. lia.
  - intros. apply H8. lia.
Qed.

Lemma addFromAppointment_cons sl rest ids added :
  addFromAppointment (sl :: rest) ids added =
  let '(ids1, added1) :=
    if notFound ids (slot_id sl)
    then (ids ++ [slot_id sl], S added) else (ids, added) in
  if slotCap <=? length ids1 then (ids1, added1, true)
  else addFromAppointment rest ids1 added1.
Proof. reflexivity. Qed.

Lemma addFromAppointment_toppedUp (cands : list slot) :
  forall ids added,
    toppedUp (map slot_id cands) ids added
      (addFromAppointment cands ids added).
Proof.
  induction cands as [|sl rest IH]; intros ids added.
  - exists []. rewrite app_nil_r. simpl.
    repeat split; try done; try lia.
  - rewrite addFromAppointment_cons. cbn [map].
    destruct (notFound ids (slot_id sl)) eqn:Hnf.
    + apply notFound_spec in Hnf.
      destruct (slotCap <=? length (ids ++ [slot_id sl])) eqn:Hcap.
      * apply Nat.leb_le in Hcap.
        exists [slot_id sl]. cbn [fst snd]. rewrite length_app in *.
        cbn [length] in *.
        repeat split; try done; try lia.
        -- constructor; [apply list_elem_of_here|constructor].
        -- constructor; [done|constructor].
      * apply Nat.leb_gt in Hcap.
        eapply (toppedUp_step _ _ _ _ [slot_id sl]); [by right|done|].
        replace (added + length [slot_id sl]) with (S added) by (simpl; lia).
        apply IH.
    + destruct (slotCap <=? length ids) eqn:Hcap.
      * apply Nat.leb_le in Hcap.
        exists []. rewrite app_nil_r. cbn [fst snd length].
        repeat split; try done; try lia.
      * apply Nat.leb_gt in Hcap.
        eapply (toppedUp_step _ _ _ _ []); [by left| by rewrite app_nil_r|].
        rewrite app_nil_r. cbn [length]. rewrite Nat.add_0_r. apply IH.
Qed.

Lemma toppedUp_seq (c1 c2 : list string) ids added out1 out2 :
  toppedUp c1 ids added out1 ->
  out1.2 = false ->
  length ids < slotCap ->
  toppedUp c2 out1.1.1 out1.1.2 out2 ->
  toppedUp (c1 ++ c2) ids added out2.
Proof.
  intros (x1 & A1 & A2 & A3 & A4 & A5 & A6 & A7 & A8) Hb Hlt
         (x2 & B1 & B2 & B3 & B4 & B5 & B6 & B7 & B8).
  exists (x1 ++ x2). rewrite !length_app.
  repeat split.
  - by rewrite B1, A1, app_assoc.
  - lia.
  - lia.
  - apply Forall_app; split.
    + eapply Forall_impl; [exact A4|]. intros ? ?. apply elem_of_app. by left.
    + eapply Forall_impl; [exact B4|]. intros ? ?. apply elem_of_app. by right.
  - apply Forall_app; split; [done|].
    eapply Forall_impl; [exact B5|]. intros id [Hn|?]; [left|by right].
    intros Hin. apply Hn. rewrite A1. apply elem_of_app. by left.
  - done.
  - intros. apply B7; [done|]. by apply A7.
  - intros. apply B8. by apply A7.
Qed.

Lemma addPass_toppedUp (sel : list appointment) :
  forall ids added,
    toppedUp (candidates sel) ids added (addPass sel ids added).
Proof.
  induction sel as [|oa rest IH]; intros ids added; simpl.
  - exists []. rewrite app_nil_r. simpl.
    repeat split; try done; try lia.
  - pose proof (addFromAppointment_toppedUp (take 3 (openSlotsOf oa))
                  ids added) as H1.
    destruct (addFromAppointment (take 3 (openSlotsOf oa)) ids added)
      as [[ids1 added1] brk] eqn:Ha.
    unfold candidates. simpl. fold (candidates rest).
    destruct brk.
    + destruct H1 as (x & A1 & A2 & A3 & A4 & A5 & A6 & A7 & A8).
      exists x. simpl in *.
      repeat split; try done.
      * rewrite length_app. lia.
      * eapply Forall_impl; [exact A4|]. intros ? ?. apply elem_of_app. by left.
    + destruct (decide (length ids < slotCap)) as [Hlt|Hge].
      * eapply toppedUp_seq; [exact H1|done|done|]. simpl. apply IH.
      * (* already at the cap: the first candidate breaks, or none *)
        destruct H1 as (x & A1 & A2 & A3 & A4 & A5 & A6 & A7 & A8).
        simpl in *.
        specialize (IH ids1 added1).
        destruct IH as (x2 & B1 & B2 & B3 & B4 & B5 & B6 & B7 & B8).
        exists (x ++ x2). rewrite !length_app.
        repeat split; try done; try lia.
        -- by rewrite B1, A1, app_assoc.
        -- apply Forall_app; split.
           ++ eapply Forall_impl; [exact A4|]. intros ? ?.
              apply elem_of_app. by left.
           ++ eapply Forall_impl; [exact B4|]. intros ? ?.
              apply elem_of_app. by right.
        -- apply Forall_app; split; [done|].
           eapply Forall_impl; [exact B5|]. intros id [Hn|?]; [left|by right].
           intros Hin. apply Hn. rewrite A1. apply elem_of_app. by left.
Qed.

Lemma addSlotsLoop_S fuel sel ids :
  addSlotsLoop (S fuel) sel ids =
  if length ids <? slotCap then
    let '(ids1, added, brk) := addPass sel ids 0 in
    if brk then Some ids1
    else if added =? 0 then Some ids1
    else addSlotsLoop fuel sel ids1
  else Some ids.
Proof. reflexivity. Qed.

(** The loop ends within [S (slotCap - length ids)] rounds: a round that
    goes on has made the list longer and left it under the cap. *)
Lemma addSlotsLoop_some sel fuel :
  forall ids, S (slotCap - length ids) <= fuel ->
    exists r, addSlotsLoop fuel sel ids = Some r.
Proof.
  induction fuel as [|fuel IH]; intros ids Hf; [lia|].
  rewrite addSlotsLoop_S.
  destruct (length ids <? slotCap) eqn:Hlt; [|by eexists].
  apply Nat.ltb_lt in Hlt.
  pose proof (addPass_toppedUp sel ids 0) as Hp.
  destruct (addPass sel ids 0) as [[ids1 added] brk].
  destruct Hp as (x & A1 & A2 & _ & _ & _ & _ & A7 & _). simpl in *.
  destruct brk; [by eexists|].
  destruct (added =? 0) eqn:Ha; [by eexists|].
  apply Nat.eqb_neq in Ha. apply IH.
  specialize (A7 eq_refl Hlt).
  subst ids1. rewrite length_app in *. lia.
Qed.

Lemma addSlotsLoop_mono sel fuel :
  forall fuel' ids r,
    addSlotsLoop fuel sel ids = Some r -> fuel <= fuel' ->
    addSlotsLoop fuel' sel ids = Some r.
Proof.
  induction fuel as [|fuel IH]; intros fuel' ids r H Hle; [done|].
  destruct fuel' as [|fuel']; [lia|].
  rewrite addSlotsLoop_S in *.
  destruct (length ids <? slotCap); [|done].
  destruct (addPass sel ids 0) as [[ids1 added] brk].
  destruct brk; [done|]. destruct (added =? 0); [done|].
  apply IH; [done|lia].
Qed.

Lemma addSlots_loop sel ids fuel :
  S (slotCap - length ids) <= fuel ->
  addSlotsLoop fuel sel ids = Some (addSlots sel ids).
Proof.
  intros Hf. unfold addSlots.
  destruct (addSlotsLoop_some sel _ ids (Nat.le_refl _)) as [r Hr].
  rewrite Hr. simpl. eapply addSlotsLoop_mono; [exact Hr|done].
Qed.

(** How the loop can end: at the cap, or after a pass that added
    nothing. *)
Lemma addSlotsLoop_exit sel fuel :
  forall ids r, addSlotsLoop fuel sel ids = Some r ->
    slotCap <= length r \/ addPass sel r 0 = (r, 0, false).
Proof.
  induction fuel as [|fuel IH]; intros ids r H; [done|].
  rewrite addSlotsLoop_S in H.
  destruct (length ids <? slotCap) eqn:Hlt.
  - pose proof (addPass_toppedUp sel ids 0) as Hp.
    destruct (addPass sel ids 0) as [[ids1 added] brk] eqn:Hpass.
    destruct Hp as (x & A1 & A2 & _ & _ & _ & A6 & _ & _). simpl in *.
    destruct brk.
    + left. injection H as <-. by apply A6.
    + destruct (added =? 0) eqn:Ha; [|by eapply IH].
      apply Nat.eqb_eq in Ha. injection H as <-. right.
      assert (x = []) as -> by (apply length_zero_iff_nil; lia).
      rewrite app_nil_r in A1. by subst.
  - apply Nat.ltb_ge in Hlt. injection H as <-. by left.
Qed.

(** What the loop adds, and that it respects the cap. *)
Lemma addSlotsLoop_extends sel fuel :
  forall ids r, addSlotsLoop fuel sel ids = Some r ->
    exists extra,
      r = ids ++ extra /\
      Forall (fun id => id ∈ candidates sel) extra /\
      Forall (fun id => id ∉ ids \/ id = "") extra /\
      (length ids <= slotCap -> length r <= slotCap).
Proof.
  induction fuel as [|fuel IH]; intros ids r H; [done|].
  rewrite addSlotsLoop_S in H.
  destruct (length ids <? slotCap) eqn:Hlt.
  - apply Nat.ltb_lt in Hlt.
    pose proof (addPass_toppedUp sel ids 0) as Hp.
    destruct (addPass sel ids 0) as [[ids1 added] brk] eqn:Hpass.
    destruct Hp as (x & A1 & A2 & _ & A4 & A5 & A6 & A7 & A8). simpl in *.
    assert (Hdone : Some ids1 = Some r ->
      exists extra, r = ids ++ extra /\
        Forall (fun id => id ∈ candidates sel) extra /\
        Forall (fun id => id ∉ ids \/ id = "") extra /\
        (length ids <= slotCap -> length r <= slotCap)).
    { intros [= <-]. exists x. repeat split; try done. intros _. by apply A8. }
    destruct brk; [by apply Hdone|].
    destruct (added =? 0); [by apply Hdone|].
    destruct (IH _ _ H) as (y & B1 & B2 & B3 & B4).
    exists (x ++ y). repeat split.
    + by rewrite B1, A1, app_assoc.
    + by apply Forall_app.
    + apply Forall_app; split; [done|].
      eapply Forall_impl; [exact B3|]. intros id [Hn|?]; [left|by right].
      intros Hin. apply Hn. rewrite A1. apply elem_of_app. by left.
    + intros _. apply B4. specialize (A7 eq_refl Hlt). lia.
  - injection H as <-. exists []. rewrite app_nil_r.
    repeat split; try done; constructor.
Qed.

(** Topping up a topped-up list changes nothing. *)
Lemma addSlots_fixpoint sel ids :
  addSlots sel (addSlots sel ids) = addSlots sel ids.
Proof.
  set (r := addSlots sel ids).
  assert (Hr : addSlotsLoop (S (slotCap - length ids)) sel ids = Some r)
    by by apply addSlots_loop.
  apply addSlotsLoop_exit in Hr.
  assert (Hone : addSlotsLoop (S (slotCap - length r)) sel r = Some r).
  { rewrite addSlotsLoop_S. destruct (length r <? slotCap) eqn:Hlt; [|done].
    apply Nat.ltb_lt in Hlt. destruct Hr as [Hr|Hr]; [lia|].
    by rewrite Hr. }
  unfold addSlots at 1. by rewrite Hone.
Qed.

Lemma addSlots_length sel ids :
  length ids <= slotCap -> length (addSlots sel ids) <= slotCap.
Proof.
  intros Hle.
  pose proof (addSlots_loop sel ids _ (Nat.le_refl _)) as Hr.
  apply addSlotsLoop_extends in Hr as (? & _ & _ & _ & H). by apply H.
Qed.

End TopUp.

Section SingleAppointment.

(** Candidates that are all new, distinct and non-empty are all added, as
    long as the cap is not reached. *)
Lemma addFromAppointment_all_new (cands : list slot) :
  forall ids added,
    NoDup (map slot_id cands) ->
    (forall sl, sl ∈ cands -> slot_id sl ∉ ids) ->
    length ids + length cands < slotCap ->
    addFromAppointment cands ids added =
      (ids ++ map slot_id cands, added + length cands, false).
Proof.
  induction cands as [|sl rest IH]; intros ids added Hnd Hnew Hlen.
  - simpl. by rewrite app_nil_r, Nat.add_0_r.
  - rewrite addFromAppointment_cons.
    assert (Hnf : notFound ids (slot_id sl) = true).
    { apply notFound_spec. left. apply Hnew. apply list_elem_of_here. }
    rewrite Hnf. cbn [map length] in *.
    apply NoDup_cons in Hnd as [Hsl Hnd].
    assert (Hcap : (slotCap <=? length (ids ++ [slot_id sl])) = false).
    { apply Nat.leb_gt. rewrite length_app. simpl. lia. }
    rewrite Hcap, IH; try done.
    + by rewrite <- app_assoc, Nat.add_succ_r.
    + intros sl' Hin Hin'. apply elem_of_app in Hin' as [Hin'|Hin'].
      * eapply Hnew; [|exact Hin']. by apply list_elem_of_further.
      * apply list_elem_of_singleton in Hin'. apply Hsl. rewrite <- Hin'.
        by apply list_elem_of_fmap_2.
    + rewrite length_app. simpl. lia.
Qed.

(** Candidates that are all in the list already, none of them empty, add
    nothing. *)
Lemma addFromAppointment_all_found (cands : list slot) :
  forall ids added,
    (forall sl, sl ∈ cands -> slot_id sl ∈ ids /\ slot_id sl <> "") ->
    length ids < slotCap ->
    addFromAppointment cands ids added = (ids, added, false).
Proof.
  induction cands as [|sl rest IH]; intros ids added Hin Hlen; [done|].
  rewrite addFromAppointment_cons.
  destruct (Hin sl (list_elem_of_here _ _)) as [Hsl Hne].
  assert (Hnf : notFound ids (slot_id sl) = false).
  { apply not_true_is_false. intros H. apply notFound_spec in H. tauto. }
  rewrite Hnf.
  assert (Hcap : (slotCap <=? length ids) = false) by by apply Nat.leb_gt.
  rewrite Hcap. apply IH; [|done].
  intros sl' ?. apply Hin. by apply list_elem_of_further.
Qed.

(** With one appointment and an empty list the loop stops after its
    second pass, with the first three open slots and no more. *)
Lemma addSlots_single (oa : appointment) :
  let first3 := map slot_id (take 3 (openSlotsOf oa)) in
  NoDup first3 -> "" ∉ first3 ->
  addSlots [oa] [] = first3.
Proof.
  intros first3 Hnd Hne.
  assert (Hlen : length (take 3 (openSlotsOf oa)) <= 3).
  { rewrite length_take. lia. }
  assert (H1 : addPass [oa] [] 0 = (first3, length first3, false)).
  { cbn [addPass]. rewrite addFromAppointment_all_new.
    - unfold first3. by rewrite length_map.
    - done.
    - intros ? ? ?%elem_of_nil. done.
    - unfold slotCap. simpl. lia. }
  assert (H2 : length first3 < slotCap).
  { unfold first3, slotCap. rewrite length_map. lia. }
  assert (H3 : addPass [oa] first3 0 = (first3, 0, false)).
  { cbn [addPass]. rewrite addFromAppointment_all_found; try done.
    intros sl Hsl. split.
    - by apply list_elem_of_fmap_2.
    - intros Heq. apply Hne. rewrite <- Heq. by apply list_elem_of_fmap_2. }
  unfold addSlots.
  change (S (slotCap - length [])) with (S (S 11)).
  rewrite addSlotsLoop_S. change (length [] <? slotCap) with true.
  cbv iota. rewrite H1. cbv iota beta.
  destruct (length first3 =? 0) eqn:Hz; [done|].
  rewrite addSlotsLoop_S.
  apply Nat.ltb_lt in H2. rewrite H2, H3. done.
Qed.

End SingleAppointment.

Section Reconcile.

Variable slotsById : gmap string slot.
Variable tok : jsval.

Lemma filterSlotIDs_cons id rest :
  filterSlotIDs slotsById tok (id :: rest) =
  match keepSlotID slotsById tok id with
  | Err e => Err e
  | Ok keep =>
      match filterSlotIDs slotsById tok rest with
      | Err e => Err e
      | Ok rest' => Ok (if keep then id :: rest' else rest')
      end
  end.
Proof. reflexivity. Qed.

(** The filter shortens the list, and what it keeps passed the test. *)
Lemma filterSlotIDs_kept (ids : list string) :
  forall r, filterSlotIDs slotsById tok ids = Ok r ->
    length r <= length ids /\
    Forall (fun id => keepSlotID slotsById tok id = Ok true) r.
Proof.
  induction ids as [|id rest IH]; intros r H.
  - injection H as <-. split; [done|constructor].
  - rewrite filterSlotIDs_cons in H.
    destruct (keepSlotID slotsById tok id) as [keep|] eqn:Hk; [|done].
    destruct (filterSlotIDs slotsById tok rest) as [rest'|]; [|done].
    destruct (IH _ eq_refl) as [Hl Hf].
    injection H as <-. destruct keep; simpl.
    + split; [lia|]. by constructor.
    + split; [lia|done].
Qed.

Lemma filterSlotIDs_all (ids : list string) :
  Forall (fun id => keepSlotID slotsById tok id = Ok true) ids ->
  filterSlotIDs slotsById tok ids = Ok ids.
Proof.
  induction 1 as [|id rest Hk _ IH]; [done|].
  by rewrite filterSlotIDs_cons, Hk, IH.
Qed.

(** The ownership test of the filter compares a boolean with the token's
    secret: for a secret that is not a boolean it never removes an id
    whose slot exists. *)
Lemma keepSlotID_existing id sl :
  slotsById !! id = Some sl ->
  (forall b, tok <> JBool b) ->
  keepSlotID slotsById tok id = Ok true \/
  keepSlotID slotsById tok id = Err TypeError.
Proof.
  intros Hsl Hb. unfold keepSlotID. rewrite Hsl.
  destruct (slot_open sl); [by left|].
  destruct (slot_token sl) as [st|]; [left|by right].
  destruct tok; try done. by destruct (Hb b).
Qed.

End Reconcile.

Section Index.

Lemma indexSlots_flat_from (sel : list appointment) :
  forall m : gmap string slot,
    fold_left
      (fun m oa => fold_left (fun m sl => <[slot_id sl := sl]> m)
                     (ap_slotData oa) m) sel m =
    fold_left (fun m sl => <[slot_id sl := sl]> m) (allSlots sel) m.
Proof.
  induction sel as [|oa rest IH]; intros m; [done|].
  unfold allSlots. simpl. rewrite fold_left_app. apply IH.
Qed.

Lemma fold_insert_other (l : list slot) :
  forall (m : gmap string slot) id,
    id ∉ map slot_id l ->
    fold_left (fun m sl => <[slot_id sl := sl]> m) l m !! id = m !! id.
Proof.
  induction l as [|x l IH]; intros m id Hid; [done|].
  simpl in *. apply not_elem_of_cons in Hid as [Hne Hid].
  rewrite IH; [|done]. by rewrite lookup_insert_ne.
Qed.

Lemma fold_insert_lookup (l : list slot) :
  forall (m : gmap string slot) sl,
    NoDup (map slot_id l) -> sl ∈ l ->
    fold_left (fun m sl => <[slot_id sl := sl]> m) l m !! slot_id sl
      = Some sl.
Proof.
  induction l as [|x l IH]; intros m sl Hnd Hin.
  - by apply elem_of_nil in Hin.
  - simpl in *. apply NoDup_cons in Hnd as [Hx Hnd].
    apply elem_of_cons in Hin as [->|Hin].
    + rewrite fold_insert_other; [|done]. by rewrite lookup_insert_eq.
    + by apply IH.
Qed.

(** With slot ids that are not shared, the index gives back each slot. *)
Lemma indexSlots_lookup (sel : list appointment) (sl : slot) :
  NoDup (map slot_id (allSlots sel)) -> sl ∈ allSlots sel ->
  indexSlots sel !! slot_id sl = Some sl.
Proof.
  intros. unfold indexSlots. rewrite indexSlots_flat_from.
  by apply fold_insert_lookup.
Qed.

Lemma elem_of_concat {A} (x : A) (ls : list (list A)) :
  x ∈ concat ls <-> exists l, x ∈ l /\ l ∈ ls.
Proof.
  rewrite list_elem_of_In, in_concat. split.
  - intros (l & ? & ?). exists l. by rewrite !list_elem_of_In.
  - intros (l & ? & ?). exists l. by rewrite <- !list_elem_of_In.
Qed.

(** A candidate of a pass is the id of an open slot of a selected
    appointment. *)
Lemma candidates_open (sel : list appointment) (id : string) :
  id ∈ candidates sel ->
  exists oa sl, oa ∈ sel /\ sl ∈ ap_slotData oa /\
                slot_open sl = true /\ slot_id sl = id.
Proof.
  unfold candidates. intros Hin.
  apply elem_of_concat in Hin as (l & Hid & Hl).
  apply list_elem_of_fmap in Hl as (oa & -> & Hoa).
  apply list_elem_of_fmap in Hid as (sl & -> & Hsl).
  apply elem_of_take in Hsl as (i & Hsl & _).
  apply list_elem_of_lookup_2 in Hsl.
  unfold openSlotsOf in Hsl.
  apply list_elem_of_In, filter_In in Hsl as [Hsl Hopen].
  exists oa, sl. repeat split; try done. by apply list_elem_of_In.
Qed.

Lemma candidates_kept (sel : list appointment) (t : jsval) (id : string) :
  NoDup (map slot_id (allSlots sel)) ->
  id ∈ candidates sel ->
  keepSlotID (indexSlots sel) t id = Ok true.
Proof.
  intros Hnd Hin.
  apply candidates_open in Hin as (oa & sl & Hoa & Hsl & Hopen & <-).
  unfold keepSlotID. rewrite indexSlots_lookup; [by rewrite Hopen|done|].
  unfold allSlots. apply elem_of_concat.
  exists (ap_slotData oa). split; [done|]. by apply list_elem_of_fmap_2.
Qed.

End Index.

Section TokenLoop.

Variable E : collaborators.
Variable now : Z.
Variable keyPairs : keyPairSet.
Variable vpd : verifiedProviderData.
Variable sel : list appointment.
Variable slotsById : gmap string slot.
Variable bySlot : gmap string appointment.

Lemma grantsRequested_emit (c : call) (w : world) :
  grantsRequested (emit c w) =
  grantsRequested w ++ option_list (grantOfCall c).
Proof.
  unfold grantsRequested, emit. simpl.
  destruct (grantOfCall c); simpl; [done|by rewrite app_nil_r].
Qed.

Lemma signGrants_requested (gs : list grant) :
  forall w r w', signGrants E gs w = (r, w') ->
    grantsRequested w' = grantsRequested w ++ gs.
Proof.
  induction gs as [|g rest IH]; intros w r w' H; simpl in H.
  - injection H as _ <-. by rewrite app_nil_r.
  - destruct (signGrants E rest (emit (CSign (PGrant g)) w))
      as [rs w1] eqn:Hs.
    injection H as _ <-. rewrite (IH _ _ _ Hs), grantsRequested_emit.
    simpl. by rewrite <- app_assoc.
Qed.

(** The loop body in terms of [tokenPlan]: the token it leaves and the
    grants it asked for do not depend on how the collaborators answered,
    the fresh grant id apart. *)
Lemma processToken_plan (tok : token) (w : world) tok' sd w' :
  processToken E now keyPairs vpd sel slotsById bySlot tok w
    = (tok', sd, w') ->
  let plan := tokenPlan now keyPairs sel slotsById
                (co_randomBytes E (w_tick w) 32) tok in
  tok' = plan.1 /\
  grantsRequested w' = grantsRequested w ++ plan.2.
Proof.
  unfold processToken, tokenPlan, withGrantID. intros H.
  set (g := co_randomBytes E (w_tick w) 32) in *.
  assert (Hw1 : forall w1,
    w1 = match tok_grantID tok with
         | Some _ => w | None => emit (CRandomBytes 32) w end ->
    grantsRequested w1 = grantsRequested w).
  { intros w1 ->. destruct (tok_grantID tok); [done|].
    rewrite grantsRequested_emit. simpl. by rewrite app_nil_r. }
  destruct (tok_grantID tok) as [gid|] eqn:Hg.
  - revert H. generalize (Hw1 _ eq_refl). clear Hw1. intros Hw1 H.
    destruct (updateSlots now sel slotsById tok) as [tok2|e] eqn:Hu.
    + destruct (signGrants E _ w) as [rs w2] eqn:Hs.
      apply signGrants_requested in Hs.
      destruct rs as [grantsData|]; [|by injection H as <- _ <-].
      destruct (groupOffers _ _ _ _); [|by injection H as <- _ <-].
      destruct (co_ecdhEncrypt _ _ _ _ _).
      * destruct (co_sign _ _ _); injection H as <- _ <-; simpl;
          by rewrite !grantsRequested_emit, Hs, !app_nil_r.
      * injection H as <- _ <-; simpl.
        by rewrite !grantsRequested_emit, Hs, !app_nil_r.
    + injection H as <- _ <-. simpl. by rewrite app_nil_r.
  - revert H. generalize (Hw1 _ eq_refl). clear Hw1. intros Hw1 H.
    destruct (updateSlots now sel slotsById (setGrantID g tok))
      as [tok2|e] eqn:Hu.
    + destruct (signGrants E _ _) as [rs w2] eqn:Hs.
      apply signGrants_requested in Hs. rewrite Hw1 in Hs.
      destruct rs as [grantsData|]; [|by injection H as <- _ <-].
      destruct (groupOffers _ _ _ _); [|by injection H as <- _ <-].
      destruct (co_ecdhEncrypt _ _ _ _ _).
      * destruct (co_sign _ _ _); injection H as <- _ <-; simpl;
          by rewrite !grantsRequested_emit, Hs, !app_nil_r.
      * injection H as <- _ <-; simpl.
        by rewrite !grantsRequested_emit, Hs, !app_nil_r.
    + injection H as <- _ <-. simpl. by rewrite Hw1, app_nil_r.
Qed.

(** The whole loop: one plan per turn, each with the grant id the turn
    would draw, on the object as the turns before left it. *)
Lemma processTokens_plan (refs : list nat) :
  forall objects w objects' sds w',
    processTokens E now keyPairs vpd sel slotsById bySlot refs objects w
      = (objects', sds, w') ->
    exists gs,
      length gs = length refs /\
      objects' = (planTokens now keyPairs sel slotsById gs refs objects).1 /\
      grantsRequested w' =
        grantsRequested w ++
        (planTokens now keyPairs sel slotsById gs refs objects).2.
Proof.
  induction refs as [|a rest IH]; intros objects w objects' sds w' H;
    cbn [processTokens] in H.
  - injection H as <- _ <-. exists []. by rewrite app_nil_r.
  - destruct (objects !! a) as [tok|] eqn:Ha.
    + destruct (processToken _ _ _ _ _ _ _ tok w) as [[tok1 sd] w1] eqn:Hp.
      destruct (processTokens _ _ _ _ _ _ _ rest _ w1)
        as [[objects1 sds'] w2] eqn:Hr.
      injection H as <- _ <-.
      apply processToken_plan in Hp as [-> Hg1].
      destruct (IH _ _ _ _ _ Hr) as (gs & Hlen & -> & Hg2).
      exists (co_randomBytes E (w_tick w) 32 :: gs). cbn [planTokens length].
      rewrite Ha.
      destruct (tokenPlan now keyPairs sel slotsById
                  (co_randomBytes E (w_tick w) 32) tok) as [tok' grants].
      cbn [fst snd] in *.
      destruct (planTokens now keyPairs sel slotsById gs rest
                  (<[a:=tok']> objects)) as [objects2 more].
      cbn [fst snd] in *. repeat split; [by rewrite Hlen|].
      by rewrite Hg2, Hg1, <- app_assoc.
    + destruct (IH _ _ _ _ _ H) as (gs & Hlen & -> & Hg2).
      exists ("" :: gs). cbn [planTokens length]. rewrite Ha.
      repeat split; [by rewrite Hlen|done].
Qed.

End TokenLoop.

Section Refill.

Variable E : collaborators.
Variable now : Z.
Variable vpd : verifiedProviderData.

Lemma decryptTokens_spec (tokenList : list encryptedToken) :
  forall validTokens w r w',
    decryptTokens E now vpd tokenList validTokens w = (r, w') ->
    grantsRequested w' = grantsRequested w /\
    forall valid', r = Ok valid' ->
      exists new, valid' = validTokens ++ new /\
                  length new <= length tokenList /\
                  Forall freshToken new.
Proof.
  induction tokenList as [|t rest IH]; intros valid w r w' H; simpl in H.
  - injection H as <- <-. split; [done|]. intros ? [= <-].
    exists []. by rewrite app_nil_r.
  - destruct (getQueuePrivateKey _ _) as [privateKey|e].
    2:{ injection H as <- <-. by split. }
    destruct (co_ecdhDecrypt _ _ _ _) as [d|e].
    2:{ apply IH in H as [Hg Hv]. rewrite grantsRequested_emit in Hg.
        simpl in Hg. rewrite app_nil_r in Hg. split; [done|].
        intros valid' Hr. destruct (Hv _ Hr) as (new & ? & ? & ?).
        exists new. repeat split; try done. simpl. lia. }
    destruct (co_generateECDHKeyPair _ _) as [kp|e].
    2:{ injection H as <- <-. rewrite !grantsRequested_emit. simpl.
        by rewrite !app_nil_r. }
    apply IH in H as [Hg Hv]. rewrite !grantsRequested_emit in Hg.
    simpl in Hg. rewrite !app_nil_r in Hg. split; [done|].
    intros valid' Hr. destruct (Hv _ Hr) as (new & -> & ? & ?).
    eexists (_ :: new). rewrite <- app_assoc. simpl.
    repeat split; [lia|]. by constructor.
Qed.

Lemma refillLists_spec (newTokens : list (list encryptedToken)) :
  forall base openTokens validTokens w r w',
    refillLists E now vpd newTokens base openTokens validTokens w = (r, w') ->
    grantsRequested w' = grantsRequested w /\
    forall refs valid, r = Ok (refs, valid) ->
      exists extra new,
        refs = openTokens ++ extra /\
        valid = validTokens ++ new /\
        Forall (fun a => base <= a < base + length valid) extra /\
        Forall freshToken new /\
        (extra = [] -> new = []).
Proof.
  induction newTokens as [|l rest IH];
    intros base openTokens valid w r w' H; simpl in H.
  - injection H as <- <-. split; [done|]. intros ? ? [= <- <-].
    exists [], []. by rewrite !app_nil_r.
  - destruct (decryptTokens E now vpd l valid w) as [[valid1|e] w1] eqn:Hd;
      apply decryptTokens_spec in Hd as [Hg1 Hv1].
    2:{ injection H as <- <-. by split. }
    destruct (Hv1 _ eq_refl) as (new & -> & _ & Hnew).
    apply IH in H as [Hg Hv]. split; [congruence|].
    intros refs valid' Hr.
    destruct (Hv _ _ Hr) as (extra & new' & -> & -> & Hex & Hf & Hnone).
    exists (seq base (length (valid ++ new)) ++ extra), (new ++ new').
    split; [by rewrite <- app_assoc|]. split; [by rewrite <- app_assoc|].
    split; [|split; [by apply Forall_app|]].
    + apply Forall_app. split; [|done].
      apply Forall_forall. intros a Ha%elem_of_seq.
      rewrite !length_app in *. lia.
    + intros [Hs ->]%app_eq_nil. rewrite (Hnone eq_refl), app_nil_r.
      apply (f_equal length) in Hs. rewrite length_seq, length_app in Hs.
      apply length_zero_iff_nil. simpl in Hs. lia.
Qed.

(** One list in the answer: the pool grows by what decrypts of it, one
    reference to each new token. *)
Lemma refillLists_single (l : list encryptedToken) base openTokens w
    refs valid w' :
  refillLists E now vpd [l] base openTokens [] w = (Ok (refs, valid), w') ->
  refs = openTokens ++ seq base (length valid) /\
  length valid <= length l.
Proof.
  simpl. destruct (decryptTokens E now vpd l [] w) as [[valid1|e] w1] eqn:Hd;
    [|done].
  apply decryptTokens_spec in Hd as [_ Hv].
  destruct (Hv _ eq_refl) as (new & -> & Hlen & _).
  intros [= <- <- _]. done.
Qed.

Lemma refill_spec (openSlots : nat) (openTokens : list token)
    (st : providerStore) (w : world) r st' w' :
  refill E now vpd openSlots openTokens st w = (r, st', w') ->
  grantsRequested w' = grantsRequested w /\
  ps_appointments st' = ps_appointments st /\
  ps_keyPairs st' = ps_keyPairs st /\
  match r with
  | RefillFailed _ => st' = st
  | RefillDone refs objects =>
      (st' = st \/ st' = setTokens (deref objects refs) st) /\
      exists valid extra,
        objects = openTokens ++ valid /\
        refs = seq 0 (length openTokens) ++ extra /\
        Forall freshToken valid /\
        Forall (fun a => length openTokens <= a < length objects) extra /\
        (extra = [] -> valid = [])
  end.
Proof.
  unfold refill. intros H.
  destruct (_ && _).
  2:{ injection H as <- <- <-. do 3 (split; [done|]). split; [by left|].
      exists [], []. rewrite !app_nil_r. by repeat split. }
  destruct (co_getQueueTokens _ _ _) as [[newTokens|]|e].
  - destruct (refillLists _ _ _ _ _ _ _ _) as [[[refs valid]|e] w2] eqn:Hr;
      apply refillLists_spec in Hr as [Hg Hv];
      rewrite grantsRequested_emit in Hg; simpl in Hg;
      rewrite app_nil_r in Hg; injection H as <- <- <-.
    + split; [done|]. split; [done|]. split; [done|].
      split; [by right|].
      destruct (Hv _ _ eq_refl) as (extra & new & -> & -> & Hex & Hf & Hn).
      exists new, extra. split; [done|]. split; [done|]. split; [done|].
      split; [|done].
      eapply Forall_impl; [exact Hex|]. intros a Ha. simpl in *.
      rewrite length_app. lia.
    + by repeat split.
  - injection H as <- <- <-. rewrite grantsRequested_emit. simpl.
    by rewrite app_nil_r.
  - injection H as <- <- <-. rewrite grantsRequested_emit. simpl.
    by rewrite app_nil_r.
Qed.

End Refill.

Section Cycle.

Variable E : collaborators.
Variable now : Z.
Variable keyPairs : keyPairSet.
Variable vpd : verifiedProviderData.

Lemma sendInvitationsLocked_spec (st : providerStore) (w : world) r st' w' :
  sendInvitationsLocked E now keyPairs vpd st w = (r, st', w') ->
  ps_appointments st' = ps_appointments st /\
  ps_keyPairs st' = ps_keyPairs st /\
  ((st' = st /\ grantsRequested w' = grantsRequested w /\
    (r = Returned succeeded -> ps_appointments st = []))
   \/ (ps_appointments st <> [] /\ ranTokenLoop now keyPairs st w st' w' /\
       r <> ReturnedUndefined)).
Proof.
  unfold sendInvitationsLocked. intros H.
  case_bool_decide as Hempty.
  { injection H as <- <- <-. repeat split. left. repeat split.
    intros _. by apply length_zero_iff_nil. }
  assert (Hne : ps_appointments st <> []).
  { intros Heq. apply Hempty. by rewrite Heq. }
  set (expiredTokens := List.filter (expired now) (ps_tokens st)) in *.
  set (ret := if bool_decide (0 < length expiredTokens)
              then _ else _) in *.
  assert (Hret : grantsRequested ret.2 = grantsRequested w).
  { unfold ret. case_bool_decide; [|done]. simpl.
    rewrite grantsRequested_emit. simpl. by rewrite app_nil_r. }
  destruct ret as [[[]|e] w1]; simpl in Hret.
  2:{ injection H as <- <- <-. repeat split. left. by repeat split. }
  destruct (refill _ _ _ _ _ _ _) as [[rf st1] w2] eqn:Hrf.
  apply refill_spec in Hrf as (Hg2 & Hap & Hkp & Hrf).
  destruct rf as [refs objects|oe].
  2:{ subst st1. destruct oe; injection H as <- <- <-;
        repeat split; left; repeat split; try congruence; done. }
  destruct Hrf as [Hst1 (valid & extra & -> & -> & Hfresh & Hex & Hnone)].
  fold (selected now (ps_appointments st)) in H.
  set (sel := selected now (ps_appointments st)) in *.
  set (stored := List.filter (live now) (ps_tokens st)) in *.
  destruct (processTokens _ _ _ _ _ _ _ _ _ _) as [[objects2 sds] w3] eqn:Hp.
  apply processTokens_plan in Hp as (gs & Hlen & -> & Hg3).
  assert (Hrun : forall w4, grantsRequested w4 = grantsRequested w3 ->
    ranTokenLoop now keyPairs st w (setTokens
      (deref (planTokens now keyPairs sel (indexSlots sel) gs
                (seq 0 (length stored) ++ extra) (stored ++ valid)).1
         (seq 0 (length stored) ++ extra)) st1) w4).
  { intros w4 Hw4. exists valid, extra, gs.
    do 5 (split; [done|]). rewrite Hw4, Hg3, Hg2, Hret. done. }
  destruct (co_bulkStoreData _ _ _); injection H as <- <- <-;
    (split; [done|]; split; [done|]; right; split; [done|];
     split; [|done]);
    apply Hrun; rewrite grantsRequested_emit; simpl; by rewrite app_nil_r.
Qed.

Lemma sendInvitations_spec (st : providerStore) (w : world) r st' w' :
  sendInvitations E now keyPairs vpd st w = (r, st', w') ->
  ps_appointments st' = ps_appointments st /\
  ps_keyPairs st' = ps_keyPairs st /\
  ((st' = st /\ grantsRequested w' = grantsRequested w /\
    (r = Returned succeeded -> ps_appointments st = []))
   \/ (ps_appointments st <> [] /\ ranTokenLoop now keyPairs st w st' w' /\
       r <> ReturnedUndefined)).
Proof.
  unfold sendInvitations. intros H.
  destruct (co_lock _ _ _).
  - destruct (sendInvitationsLocked _ _ _ _ _ _) as [[r1 st1] w1] eqn:Hl.
    injection H as <- <- <-.
    apply sendInvitationsLocked_spec in Hl as (? & ? & Hl).
    split; [done|]. split; [done|].
    destruct Hl as [(-> & Hg & Hr)|(Hne & Hrun & Hr)]; [left|right].
    + rewrite !grantsRequested_emit in *. simpl in *.
      rewrite !app_nil_r in *. by split.
    + split; [done|]. split; [|done].
      destruct Hrun as (valid & extra & gs & ? & ? & ? & ? & ? & Hg).
      exists valid, extra, gs. do 5 (split; [done|]).
      rewrite !grantsRequested_emit in *. simpl in *.
      by rewrite !app_nil_r in *.
  - injection H as <- <- <-. split; [done|]. split; [done|]. left.
    rewrite grantsRequested_emit. simpl. rewrite app_nil_r.
    by split.
Qed.

End Cycle.

Section Invariants.

Variable now : Z.
Variable keyPairs : keyPairSet.
Variable sel : list appointment.

Lemma withGrantID_slotIDs g t : tok_slotIDs (withGrantID g t) = tok_slotIDs t.
Proof. unfold withGrantID. by destruct (tok_grantID t). Qed.

Lemma withGrantID_token g t : tok_token (withGrantID g t) = tok_token t.
Proof. unfold withGrantID. by destruct (tok_grantID t). Qed.

Lemma withGrantID_some g t : is_Some (tok_grantID (withGrantID g t)).
Proof. unfold withGrantID. by destruct (tok_grantID t) eqn:H; simpl; rewrite ?H. Qed.

Lemma tokenPlan_slotCount slotsById g t :
  slotCount t <= slotCap ->
  slotCount (tokenPlan now keyPairs sel slotsById g t).1 <= slotCap.
Proof.
  unfold slotCount, tokenPlan, updateSlots.
  rewrite withGrantID_slotIDs, withGrantID_token. intros Hle.
  destruct (filterSlotIDs _ _ _) as [ids1|e] eqn:Hf; simpl; [|done].
  apply filterSlotIDs_kept in Hf as [Hlen _].
  apply addSlots_length. lia.
Qed.

End Invariants.

Section Idempotence.

Variable keyPairs : keyPairSet.
Variable sel : list appointment.
Hypothesis sel_nodup : NoDup (map slot_id (allSlots sel)).

Lemma tokenPlan_ok now slotsById g t ids1 :
  filterSlotIDs slotsById (tok_token t) (default [] (tok_slotIDs t))
    = Ok ids1 ->
  let t2 := setExpiresAt (now + day)%Z
              (setSlotIDs (addSlots sel ids1) (withGrantID g t)) in
  tokenPlan now keyPairs sel slotsById g t =
    (t2, map (grantFor keyPairs t2) (slotsOf slotsById t2)).
Proof.
  intros Hf. unfold tokenPlan, updateSlots.
  by rewrite withGrantID_slotIDs, withGrantID_token, Hf.
Qed.

Lemma tokenPlan_err now slotsById g t e :
  filterSlotIDs slotsById (tok_token t) (default [] (tok_slotIDs t))
    = Err e ->
  tokenPlan now keyPairs sel slotsById g t =
    (setSlotIDs (default [] (tok_slotIDs t)) (withGrantID g t), []).
Proof.
  intros Hf. unfold tokenPlan, updateSlots.
  by rewrite withGrantID_slotIDs, withGrantID_token, Hf.
Qed.

Lemma withGrantID_id g t : is_Some (tok_grantID t) -> withGrantID g t = t.
Proof. intros [x Hx]. unfold withGrantID. by rewrite Hx. Qed.

(** Planning a token that was just planned: the same slots and grant
    id, and the same grants but for their expiry. *)
Lemma tokenPlan_again (now1 now2 : Z) (g1 g2 : string) (t : token) :
  let p1 := tokenPlan now1 keyPairs sel (indexSlots sel) g1 t in
  let p2 := tokenPlan now2 keyPairs sel (indexSlots sel) g2 p1.1 in
  tok_slotIDs p2.1 = tok_slotIDs p1.1 /\
  tok_grantID p2.1 = tok_grantID p1.1 /\
  map eraseExpiry p2.2 = map eraseExpiry p1.2.
Proof.
  intros p1 p2. unfold p2, p1. clear p1 p2.
  pose proof (withGrantID_some g1 t) as Hgid.
  destruct (filterSlotIDs (indexSlots sel) (tok_token t)
              (default [] (tok_slotIDs t))) as [ids1|e] eqn:Hf.
  - (* the filter passed: the second filter keeps all, the second top-up
       adds nothing *)
    rewrite (tokenPlan_ok now1 _ g1 _ _ Hf). cbn [fst snd].
    set (t2 := setExpiresAt _ (setSlotIDs (addSlots sel ids1) _)).
    assert (Hkeep : filterSlotIDs (indexSlots sel) (tok_token t2)
                      (default [] (tok_slotIDs t2))
                    = Ok (addSlots sel ids1)).
    { change (tok_slotIDs t2) with (Some (addSlots sel ids1)).
      change (tok_token t2) with (tok_token (withGrantID g1 t)).
      rewrite withGrantID_token. simpl.
      apply filterSlotIDs_all.
      pose proof (addSlots_loop sel ids1 _ (Nat.le_refl _)) as Hl.
      apply addSlotsLoop_extends in Hl as (extra & -> & Hc & _ & _).
      apply filterSlotIDs_kept in Hf as [_ Hk].
      apply Forall_app. split; [done|].
      eapply Forall_impl; [exact Hc|]. intros id Hid.
      by apply candidates_kept. }
    rewrite (tokenPlan_ok now2 _ g2 _ _ Hkeep). cbn [fst snd].
    rewrite addSlots_fixpoint, (withGrantID_id g2 t2); [|done].
    repeat split. unfold slotsOf. cbn [tok_slotIDs setExpiresAt setSlotIDs].
    rewrite !map_map. by apply map_ext.
  - (* the filter threw: it throws again on the same list *)
    rewrite (tokenPlan_err now1 _ g1 _ _ Hf). cbn [fst snd].
    set (t2 := setSlotIDs _ (withGrantID g1 t)).
    assert (Hthrow : filterSlotIDs (indexSlots sel) (tok_token t2)
                       (default [] (tok_slotIDs t2)) = Err e).
    { change (tok_slotIDs t2) with (Some (default [] (tok_slotIDs t))).
      change (tok_token t2) with (tok_token (withGrantID g1 t)).
      by rewrite withGrantID_token. }
    rewrite (tokenPlan_err now2 _ g2 _ _ Hthrow). cbn [fst snd].
    rewrite (withGrantID_id g2 t2); done.
Qed.

Lemma tokenPlan_expiry (now : Z) (g : string) (t : token) slotsById :
  Forall (fun gr => g_expiresAt gr = (now + day)%Z)
    (tokenPlan now keyPairs sel slotsById g t).2.
Proof.
  unfold tokenPlan.
  destruct (updateSlots _ _ _ _) as [t2|e] eqn:Hu; simpl; [|constructor].
  unfold updateSlots in Hu. destruct (filterSlotIDs _ _ _); [|done].
  injection Hu as <-. apply Forall_forall. intros gr Hin.
  apply list_elem_of_fmap in Hin as (sl & -> & _). done.
Qed.

End Idempotence.

Section Objects.

(** What a list of addresses stands for. *)
Lemma deref_app (objects : list token) (r1 r2 : list nat) :
  deref objects (r1 ++ r2) = deref objects r1 ++ deref objects r2.
Proof. unfold deref. by rewrite omap_app. Qed.

Lemma deref_cons_Some (objects : list token) a refs tok :
  objects !! a = Some tok ->
  deref objects (a :: refs) = tok :: deref objects refs.
Proof. intros H. unfold deref. simpl. by rewrite H. Qed.

Lemma length_deref (objects : list token) (refs : list nat) :
  Forall (fun a => a < length objects) refs ->
  length (deref objects refs) = length refs.
Proof.
  induction 1 as [|a refs Ha _ IH]; [done|].
  apply lookup_lt_is_Some in Ha as [tok Ha].
  rewrite (deref_cons_Some _ _ _ _ Ha). simpl. by rewrite IH.
Qed.

Lemma deref_seq_from (pre objects post : list token) :
  deref (pre ++ objects ++ post) (seq (length pre) (length objects))
  = objects.
Proof.
  revert pre. induction objects as [|tok objects IH]; intros pre; [done|].
  cbn [length seq].
  rewrite (deref_cons_Some _ _ _ tok).
  - f_equal. specialize (IH (pre ++ [tok])).
    rewrite length_app, <- !app_assoc in IH. simpl in IH.
    by rewrite Nat.add_1_r in IH.
  - by apply list_lookup_middle.
Qed.

Lemma deref_seq (objects post : list token) :
  deref (objects ++ post) (seq 0 (length objects)) = objects.
Proof. apply (deref_seq_from [] objects post). Qed.

Lemma deref_Forall (P : token -> Prop) (objects : list token) refs :
  Forall P objects -> Forall P (deref objects refs).
Proof.
  intros H. apply Forall_forall. intros t Ht.
  apply list_elem_of_omap in Ht as (a & _ & Ha).
  eapply Forall_forall; [exact H|]. by eapply list_elem_of_lookup_2.
Qed.

Variable now : Z.
Variable keyPairs : keyPairSet.
Variable sel : list appointment.
Variable slotsById : gmap string slot.

Lemma planTokens_cons g gs a refs (objects : list token) :
  planTokens now keyPairs sel slotsById (g :: gs) (a :: refs) objects =
  match objects !! a with
  | None => planTokens now keyPairs sel slotsById gs refs objects
  | Some tok =>
      let plan := tokenPlan now keyPairs sel slotsById g tok in
      let rest := planTokens now keyPairs sel slotsById gs refs
                    (<[a := plan.1]> objects) in
      (rest.1, plan.2 ++ rest.2)
  end.
Proof.
  cbn [planTokens]. destruct (objects !! a); [|done].
  destruct (tokenPlan _ _ _ _ _ _). cbn [fst snd].
  by destruct (planTokens _ _ _ _ _ _ _).
Qed.

(** The loop changes objects where they are: a property of tokens that
    every turn keeps holds of all objects after the loop. *)
Lemma planTokens_Forall (P : token -> Prop) :
  (forall g t, P t -> P (tokenPlan now keyPairs sel slotsById g t).1) ->
  forall refs gs objects,
    Forall P objects ->
    Forall P (planTokens now keyPairs sel slotsById gs refs objects).1.
Proof.
  intros Hkeep. induction refs as [|a refs IH]; intros gs objects HP.
  - by destruct gs.
  - destruct gs as [|g gs]; [done|]. rewrite planTokens_cons.
    destruct (objects !! a) as [tok|] eqn:Ha; [|by apply IH].
    cbn [fst]. apply IH. apply Forall_insert; [done|]. apply Hkeep.
    eapply Forall_forall; [exact HP|]. by eapply list_elem_of_lookup_2.
Qed.

(** The same for a relation between an object before and after, when
    the relation is reflexive and transitive. *)
Lemma planTokens_Forall2 (R : token -> token -> Prop) :
  (forall t, R t t) ->
  (forall t1 t2 t3, R t1 t2 -> R t2 t3 -> R t1 t3) ->
  (forall g t, R t (tokenPlan now keyPairs sel slotsById g t).1) ->
  forall refs gs objects,
    Forall2 R objects
      (planTokens now keyPairs sel slotsById gs refs objects).1.
Proof.
  intros Hrefl Htrans Hstep.
  assert (Hid : forall l, Forall2 R l l).
  { induction l; by constructor. }
  induction refs as [|a refs IH]; intros gs objects.
  - destruct gs; apply Hid.
  - destruct gs as [|g gs]; [apply Hid|]. rewrite planTokens_cons.
    destruct (objects !! a) as [tok|] eqn:Ha; [|by apply IH].
    cbn [fst].
    assert (H1 : Forall2 R objects
              (<[a := (tokenPlan now keyPairs sel slotsById g tok).1]>
                 objects)).
    { apply Forall2_same_length_lookup. split; [by rewrite length_insert|].
      intros i x y Hx Hy. destruct (decide (i = a)) as [->|Hne].
      - rewrite list_lookup_insert_eq in Hy
          by (by eapply lookup_lt_Some).
        injection Hy as <-. rewrite Ha in Hx. injection Hx as <-.
        apply Hstep.
      - rewrite list_lookup_insert_ne in Hy by done.
        rewrite Hx in Hy. injection Hy as <-. apply Hrefl. }
    specialize (IH gs (<[a := (tokenPlan now keyPairs sel slotsById g tok).1]>
                         objects)).
    clear -H1 IH Htrans.
    revert H1 IH. generalize (planTokens now keyPairs sel slotsById gs refs
      (<[a := (tokenPlan now keyPairs sel slotsById g tok).1]> objects)).1.
    generalize (<[a := (tokenPlan now keyPairs sel slotsById g tok).1]>
                  objects).
    intros l2 l3 H12. revert l3.
    induction H12 as [|x y l1 l2 Hxy _ IH12]; intros l3 H23;
      inversion H23; subst; constructor; eauto.
Qed.

Lemma planTokens_length refs gs (objects : list token) :
  length (planTokens now keyPairs sel slotsById gs refs objects).1
  = length objects.
Proof.
  symmetry.
  eapply (Forall2_length (fun _ _ => True)).
  by apply planTokens_Forall2.
Qed.

End Objects.

Section Settled.

Variable keyPairs : keyPairSet.
Variable sel : list appointment.
Hypothesis sel_nodup : NoDup (map slot_id (allSlots sel)).
Variable now : Z.

(** With slot ids that no two slots share, a turn of the loop on a token
    that a turn at the same instant has left changes nothing and asks
    for the same grants. *)
Lemma tokenPlan_idem (g1 g2 : string) (t : token) :
  tokenPlan now keyPairs sel (indexSlots sel) g2
    (tokenPlan now keyPairs sel (indexSlots sel) g1 t).1
  = tokenPlan now keyPairs sel (indexSlots sel) g1 t.
Proof.
  pose proof (withGrantID_some g1 t) as Hgid.
  destruct (filterSlotIDs (indexSlots sel) (tok_token t)
              (default [] (tok_slotIDs t))) as [ids1|e] eqn:Hf.
  - rewrite (tokenPlan_ok keyPairs sel now _ g1 _ _ Hf). cbn [fst snd].
    set (t2 := setExpiresAt _ (setSlotIDs (addSlots sel ids1) _)).
    assert (Hkeep : filterSlotIDs (indexSlots sel) (tok_token t2)
                      (default [] (tok_slotIDs t2))
                    = Ok (addSlots sel ids1)).
    { change (tok_slotIDs t2) with (Some (addSlots sel ids1)).
      change (tok_token t2) with (tok_token (withGrantID g1 t)).
      rewrite withGrantID_token. simpl.
      apply filterSlotIDs_all.
      pose proof (addSlots_loop sel ids1 _ (Nat.le_refl _)) as Hl.
      apply addSlotsLoop_extends in Hl as (extra & -> & Hc & _ & _).
      apply filterSlotIDs_kept in Hf as [_ Hk].
      apply Forall_app. split; [done|].
      eapply Forall_impl; [exact Hc|]. intros id Hid.
      by apply candidates_kept. }
    rewrite (tokenPlan_ok keyPairs sel now _ g2 _ _ Hkeep). cbn [fst snd].
    rewrite addSlots_fixpoint, (withGrantID_id g2 t2); done.
  - rewrite (tokenPlan_err keyPairs sel now _ g1 _ _ Hf). cbn [fst snd].
    set (t2 := setSlotIDs _ (withGrantID g1 t)).
    assert (Hthrow : filterSlotIDs (indexSlots sel) (tok_token t2)
                       (default [] (tok_slotIDs t2)) = Err e).
    { change (tok_slotIDs t2) with (Some (default [] (tok_slotIDs t))).
      change (tok_token t2) with (tok_token (withGrantID g1 t)).
      by rewrite withGrantID_token. }
    rewrite (tokenPlan_err keyPairs sel now _ g2 _ _ Hthrow). cbn [fst snd].
    rewrite (withGrantID_id g2 t2); done.
Qed.

Lemma planned_fixed (t : token) (g : string) :
  planned now keyPairs sel t ->
  tokenPlan now keyPairs sel (indexSlots sel) g t
  = (t, grantsOf now keyPairs sel t).
Proof.
  intros (g1 & t0 & ->). unfold grantsOf. rewrite !tokenPlan_idem.
  by destruct (tokenPlan now keyPairs sel (indexSlots sel) g1 t0).
Qed.

(** An object that a turn has left is not changed by the turns after
    it. *)
Lemma planTokens_fixed (refs : list nat) :
  forall gs (objects : list token) a t,
    objects !! a = Some t ->
    planned now keyPairs sel t ->
    (planTokens now keyPairs sel (indexSlots sel) gs refs objects).1 !! a
    = Some t.
Proof.
  induction refs as [|b refs IH]; intros gs objects a t Ha Ht.
  - by destruct gs.
  - destruct gs as [|g gs]; [done|]. rewrite planTokens_cons.
    destruct (objects !! b) as [tok|] eqn:Hb; [|by apply IH].
    cbn [fst]. apply IH; [|done].
    destruct (decide (b = a)) as [->|Hne].
    + rewrite Hb in Ha. injection Ha as ->.
      rewrite (planned_fixed _ _ Ht). cbn [fst].
      rewrite list_lookup_insert_eq; [done|]. by eapply lookup_lt_Some.
    + by rewrite list_lookup_insert_ne.
Qed.

(** After the loop every object of the pool is as a turn left it, and
    the grants the loop asked for are those of the pool as it stands at
    the end, turn by turn. *)
Lemma planTokens_settled (refs : list nat) :
  forall gs (objects : list token),
    length refs <= length gs ->
    Forall (fun a => a < length objects) refs ->
    let r := planTokens now keyPairs sel (indexSlots sel) gs refs objects in
    Forall (planned now keyPairs sel) (deref r.1 refs) /\
    r.2 = concat (map (grantsOf now keyPairs sel) (deref r.1 refs)).
Proof.
  induction refs as [|a refs IH]; intros gs objects Hlen Hrefs r.
  - unfold r. destruct gs; by split.
  - destruct gs as [|g gs]; [simpl in Hlen; lia|].
    apply Forall_cons in Hrefs as [Ha Hrefs].
    apply lookup_lt_is_Some in Ha as [tok Ha].
    unfold r. clear r. rewrite planTokens_cons, Ha. cbn [fst snd].
    set (tok' := (tokenPlan now keyPairs sel (indexSlots sel) g tok).1).
    assert (Hp : planned now keyPairs sel tok') by by exists g, tok.
    assert (Hrefs' : Forall (fun a0 => a0 < length (<[a := tok']> objects))
                       refs) by by rewrite length_insert.
    simpl in Hlen.
    destruct (IH gs (<[a := tok']> objects) ltac:(lia) Hrefs') as [IH1 IH2].
    assert (Hfin : (planTokens now keyPairs sel (indexSlots sel) gs refs
                      (<[a := tok']> objects)).1 !! a = Some tok').
    { apply planTokens_fixed; [|done].
      rewrite list_lookup_insert_eq; [done|]. by eapply lookup_lt_Some. }
    rewrite (deref_cons_Some _ _ _ _ Hfin). split; [by constructor|].
    cbn [map concat]. rewrite <- IH2. f_equal.
    unfold grantsOf, tok'. by rewrite tokenPlan_idem.
Qed.

End Settled.

Section TwoCycles.

Variable keyPairs : keyPairSet.
Variable sel : list appointment.
Hypothesis sel_nodup : NoDup (map slot_id (allSlots sel)).

(** A cycle over a pool that an earlier cycle has left, each token an
    object of its own: the same slots and grant ids, and the grants of
    the earlier cycle but for their expiry. *)
Lemma plans_again (now1 now2 : Z) (pool : list token) :
  forall gs,
    length gs = length pool ->
    Forall (planned now1 keyPairs sel) pool ->
    let plan2 := tokenPlan now2 keyPairs sel (indexSlots sel) in
    let toks2 := zip_with (fun g t => (plan2 g t).1) gs pool in
    map tok_slotIDs toks2 = map tok_slotIDs pool /\
    map tok_grantID toks2 = map tok_grantID pool /\
    map eraseExpiry (concat (zip_with (fun g t => (plan2 g t).2) gs pool))
    = map eraseExpiry (concat (map (grantsOf now1 keyPairs sel) pool)).
Proof.
  intros gs Hlen Hpl. revert gs Hlen.
  induction Hpl as [|t pool (g1 & t0 & ->) _ IH]; intros gs Hlen.
  - by destruct gs.
  - destruct gs as [|g2 gs]; [done|]. injection Hlen as Hlen.
    destruct (IH gs Hlen) as (A & B & C).
    destruct (tokenPlan_again keyPairs sel sel_nodup now1 now2 g1 g2 t0)
      as (A1 & B1 & C1).
    cbn zeta in *. cbn [zip_with map concat].
    rewrite !map_app. rewrite A, B, C, A1, B1, C1.
    unfold grantsOf. by rewrite (tokenPlan_idem keyPairs sel sel_nodup).
Qed.

End TwoCycles.

Section Turns.

Variable now : Z.
Variable keyPairs : keyPairSet.
Variable sel : list appointment.
Variable slotsById : gmap string slot.

(** Over objects of their own, one after the other, the loop is a map. *)
Lemma planTokens_seq (objs : list token) :
  forall gs pre post,
    length gs = length objs ->
    planTokens now keyPairs sel slotsById gs
      (seq (length pre) (length objs)) (pre ++ objs ++ post)
    = (pre ++ zip_with (fun g t =>
                 (tokenPlan now keyPairs sel slotsById g t).1) gs objs
           ++ post,
       concat (zip_with (fun g t =>
                 (tokenPlan now keyPairs sel slotsById g t).2) gs objs)).
Proof.
  induction objs as [|t objs IH]; intros gs pre post Hlen.
  - by destruct gs.
  - destruct gs as [|g gs]; [done|]. injection Hlen as Hlen.
    cbn [length seq]. rewrite planTokens_cons.
    change ((t :: objs) ++ post) with (t :: (objs ++ post)).
    rewrite (list_lookup_middle pre (objs ++ post) t (length pre) eq_refl).
    cbv zeta.
    set (t' := (tokenPlan now keyPairs sel slotsById g t).1).
    assert (Hins : <[length pre := t']> (pre ++ t :: (objs ++ post))
                   = (pre ++ [t']) ++ objs ++ post).
    { rewrite insert_app_r_alt by lia. rewrite Nat.sub_diag.
      by rewrite <- app_assoc. }
    rewrite Hins. specialize (IH gs (pre ++ [t']) post Hlen).
    rewrite length_app in IH. simpl in IH. rewrite Nat.add_1_r in IH.
    rewrite IH. cbn [fst snd zip_with concat].
    by rewrite <- app_assoc.
Qed.

End Turns.

Section Pool.

Variable E : collaborators.
Variable now : Z.
Variable vpd : verifiedProviderData.

Lemma allocatorRequests_emit (c : call) (w : world) :
  allocatorRequests (emit c w) =
  allocatorRequests w ++ option_list (allocatorRequest c).
Proof.
  unfold allocatorRequests, emit. simpl.
  destruct (allocatorRequest c); simpl; [done|by rewrite app_nil_r].
Qed.

Lemma decryptTokens_requests (tokenList : list encryptedToken) :
  forall validTokens w r w',
    decryptTokens E now vpd tokenList validTokens w = (r, w') ->
    allocatorRequests w' = allocatorRequests w.
Proof.
  induction tokenList as [|t rest IH]; intros valid w r w' H; simpl in H.
  - by injection H as _ <-.
  - destruct (getQueuePrivateKey _ _); [|by injection H as _ <-].
    destruct (co_ecdhDecrypt _ _ _ _).
    2:{ apply IH in H. rewrite H, allocatorRequests_emit. simpl.
        by rewrite app_nil_r. }
    destruct (co_generateECDHKeyPair _ _).
    2:{ injection H as _ <-. rewrite !allocatorRequests_emit. simpl.
        by rewrite !app_nil_r. }
    apply IH in H. rewrite H, !allocatorRequests_emit. simpl.
    by rewrite !app_nil_r.
Qed.

Lemma refillLists_requests (newTokens : list (list encryptedToken)) :
  forall base openTokens validTokens w r w',
    refillLists E now vpd newTokens base openTokens validTokens w = (r, w') ->
    allocatorRequests w' = allocatorRequests w.
Proof.
  induction newTokens as [|l rest IH];
    intros base openTokens valid w r w' H; simpl in H.
  - by injection H as _ <-.
  - destruct (decryptTokens E now vpd l valid w) as [[valid1|e] w1] eqn:Hd;
      apply decryptTokens_requests in Hd.
    + apply IH in H. congruence.
    + injection H as _ <-. done.
Qed.

(** The pool after a refill whose allocator kept to the request. *)
Lemma refill_bound (openSlots : nat) (openTokens : list token)
    (st : providerStore) (w : world) refs objects st' w' :
  ((0 < refillCount openSlots (length openTokens))%Z ->
   answersWithin (refillCount openSlots (length openTokens))
     (co_getQueueTokens E (w_tick w)
        (refillCount openSlots (length openTokens)))) ->
  refill E now vpd openSlots openTokens st w
    = (RefillDone refs objects, st', w') ->
  length refs <= max (length openTokens) (5 * openSlots).
Proof.
  unfold refill. intros Hans H.
  destruct (bool_decide _ && _) eqn:Hc.
  2:{ injection H as <- _ _ _. rewrite length_seq. lia. }
  apply andb_true_iff in Hc as [Hn _]. apply bool_decide_eq_true in Hn.
  destruct (co_getQueueTokens _ _ _) as [[newTokens|]|e]; [|done|done].
  destruct (Hans Hn _ eq_refl) as [->|(tl & -> & Htl)].
  - simpl in H. injection H as <- _ _ _. rewrite length_seq. lia.
  - destruct (refillLists _ _ _ _ _ _ _ _) as [[[refs1 valid]|e] w2] eqn:Hr;
      [|done].
    injection H as <- _ _ _. apply refillLists_single in Hr as [-> Hlen].
    rewrite length_app, !length_seq.
    unfold refillCount, overbookingFactor in *. lia.
Qed.

(** At the cap nothing is asked for and nothing is added. *)
Lemma refill_at_cap (openSlots : nat) (openTokens : list token)
    (st : providerStore) (w : world) :
  tokenCap <= length openTokens ->
  refill E now vpd openSlots openTokens st w
    = (RefillDone (seq 0 (length openTokens)) openTokens, st, w).
Proof.
  intros Hcap. unfold refill.
  assert (Hlt : (length openTokens <? tokenCap) = false)
    by by apply Nat.ltb_ge.
  by rewrite Hlt, andb_false_r.
Qed.

(** The addresses a refill hands out all hold an object. *)
Lemma refill_refs (openSlots : nat) (openTokens : list token)
    (st : providerStore) (w : world) refs objects st' w' :
  refill E now vpd openSlots openTokens st w
    = (RefillDone refs objects, st', w') ->
  Forall (fun a => a < length objects) refs.
Proof.
  intros H. apply refill_spec in H as (_ & _ & _ & _ & H).
  destruct H as (valid & extra & -> & -> & _ & Hex & _).
  apply Forall_app. split.
  - apply Forall_forall. intros a Ha%elem_of_seq. rewrite length_app. lia.
  - eapply Forall_impl; [exact Hex|]. intros a Ha. simpl in Ha. lia.
Qed.

Lemma processTokens_length keyPairs sel slotsById bySlot refs objects w :
  length (processTokens E now keyPairs vpd sel slotsById bySlot refs
            objects w).1.1
  = length objects.
Proof.
  destruct (processTokens _ _ _ _ _ _ _ _ _ _) as [[objects' sds] w'] eqn:Hp.
  apply processTokens_plan in Hp as (gs & Hlen & -> & _). simpl.
  apply planTokens_length.
Qed.

(** The pool a cycle leaves is the stored one, or as long as the pool
    its refill ended with. *)
Lemma sendInvitations_pool keyPairs (st : providerStore) (w : world) :
  let st' := (sendInvitations E now keyPairs vpd st w).1.2 in
  let openTokens := List.filter (live now) (ps_tokens st) in
  let openSlots :=
    countOpenSlots (List.filter (offerable now) (ps_appointments st)) in
  st' = st \/
  exists w1 refs objects st1 w2,
    refill E now vpd openSlots openTokens st w1
      = (RefillDone refs objects, st1, w2)
    /\ length (ps_tokens st') = length refs.
Proof.
  unfold sendInvitations.
  destruct (co_lock _ _ _); [|by left].
  unfold sendInvitationsLocked.
  case_bool_decide; [by left|].
  match goal with |- context [if bool_decide ?c then ?a else ?b] =>
    destruct (if bool_decide c then a else b) as [[[]|e] w1] end;
    [|by left].
  destruct (refill _ _ _ _ _ _ _) as [[rf st1] w2] eqn:Hrf.
  destruct rf as [refs objects|oe].
  2:{ left. apply refill_spec in Hrf as (_ & _ & _ & ->). by destruct oe. }
  right. exists w1, refs, objects, st1, w2. split; [done|].
  pose proof (processTokens_length keyPairs
    (List.filter hasSlots (List.filter (offerable now) (ps_appointments st)))
    (indexSlots (List.filter hasSlots
       (List.filter (offerable now) (ps_appointments st))))
    (indexAppointmentsBySlot (List.filter hasSlots
       (List.filter (offerable now) (ps_appointments st))))
    refs objects w2) as Hlen.
  apply refill_refs in Hrf.
  destruct (processTokens _ _ _ _ _ _ _ _ _ _) as [[objects2 sds] w3].
  simpl in Hlen.
  assert (Hl : length (deref objects2 refs) = length refs).
  { apply length_deref. by rewrite Hlen. }
  by destruct (co_bulkStoreData _ _ _).
Qed.

End Pool.

(** ** The claims *)

(** C1, evaluated on the code: the slot [s1] is closed and booked with
    the token [B]; the token [A] holds its id before a cycle and still
    holds it after. The test [!slot.token.token === token.token] of the
    filter compares a boolean with the token's secret, which never holds
    for a secret that is a string, so the id is not dropped. *)
Lemma reconcile_keeps_slot_of_other_token :
  let s1 := takenSlot "s1" "B" in
  let st := demoStore [demoAppointment [s1; openSlot "s2"]]
              [demoToken "A" (Some ["s1"]) day] in
  let run := sendInvitations cooperative 0 demoKeys demoProvider st world0 in
  indexSlots (selected 0 (ps_appointments st)) !! "s1" = Some s1 /\
  slot_open s1 = false /\
  slot_token s1 = Some (JStr "B") /\
  run.1.1 = Returned succeeded /\
  map tok_slotIDs (ps_tokens run.1.2) = [Some ["s1"; "s2"]].
Proof. vm_compute. repeat split. Qed.

(** C3, evaluated on the code: one selected appointment with 12 open
    slots [s0 .. s11] and a token that starts with an empty list. The
    claim has the token end the cycle with 12 slot ids; it ends with 3.
    Every pass of the top-up looks at [openSlots[0..2]] of each
    appointment, the same three slots each time, so the second pass
    finds them all in the list, adds nothing, and the loop stops on
    [addedSlots === 0] far from the cap. *)
Lemma single_appointment_gives_three_slots :
  let oa := demoAppointment (demoSlots 12) in
  let st := demoStore [oa] [demoToken "A" (Some []) day] in
  let run := sendInvitations cooperative 0 demoKeys demoProvider st world0 in
  selected 0 (ps_appointments st) = [oa] /\
  length (openSlotsOf oa) = 12 /\
  run.1.1 = Returned succeeded /\
  map tok_slotIDs (ps_tokens run.1.2) = [Some ["s0"; "s1"; "s2"]] /\
  map slotCount (ps_tokens run.1.2) = [3] /\
  addPass [oa] [] 0 = (["s0"; "s1"; "s2"], 3, false) /\
  addPass [oa] ["s0"; "s1"; "s2"] 0 = (["s0"; "s1"; "s2"], 0, false).
Proof. vm_compute. repeat split. Qed.

(** C8: the cap of 12 slot ids is an invariant of the stored pool: when
    every token of the stored pool holds at most 12 slot ids (as in the
    empty pool, and in every pool an earlier cycle wrote), so does
    every token of the pool stored after the cycle, whatever the
    appointments, the instant and the collaborators. *)
Theorem slot_cap_preserved (E : collaborators) (now : Z)
    (keyPairs : keyPairSet) (vpd : verifiedProviderData)
    (st : providerStore) (w : world) :
  Forall (fun t => slotCount t <= slotCap) (ps_tokens st) ->
  Forall (fun t => slotCount t <= slotCap)
    (ps_tokens (sendInvitations E now keyPairs vpd st w).1.2).
Proof.
  intros Hst.
  destruct (sendInvitations E now keyPairs vpd st w) as [[r st'] w'] eqn:Hrun.
  apply sendInvitations_spec in Hrun as (_ & _ & [(-> & _)|(_ & Hloop & _)]);
    [done|]. simpl.
  destruct Hloop as (valid & refs & gs & Hfresh & _ & _ & _ & -> & _).
  apply deref_Forall, planTokens_Forall.
  { intros g t. apply tokenPlan_slotCount. }
  apply Forall_app. split.
  - apply Forall_forall. intros t Hin.
    apply list_elem_of_In, filter_In in Hin as [Hin _].
    eapply Forall_forall in Hst; [exact Hst|]. by apply list_elem_of_In.
  - eapply Forall_impl; [exact Hfresh|]. intros t Ht.
    unfold slotCount. rewrite Ht. simpl. unfold slotCap. lia.
Qed.

(** C8, witness: a token with two ids, one of a slot that is gone. *)
Lemma slot_cap_preserved_witness :
  Forall (fun t => slotCount t <= slotCap)
    (ps_tokens
       (sendInvitations cooperative 0 demoKeys demoProvider
          (demoStore [demoAppointment (demoSlots 5)]
             [demoToken "A" (Some ["s0"; "gone"]) day]) world0).1.2).
Proof.
  apply slot_cap_preserved. constructor; [vm_compute; lia|constructor].
Defined.

(** C9 (amended): two cycles in a row that both succeed, with the same
    selected appointments, slot ids that no two slots share, no token
    expired at the second cycle and none added by it, leave every token
    with the same slot ids and the same grant id, and ask signatures for
    the same grants up to their expiry: the second cycle's grants expire
    a day after the second cycle. *)
Theorem second_run_keeps_slots_and_grants (E : collaborators)
    (now1 now2 : Z) (keyPairs : keyPairSet) (vpd : verifiedProviderData)
    (st : providerStore) (w : world) :
  let run1 := sendInvitations E now1 keyPairs vpd st w in
  let run2 := sendInvitations E now2 keyPairs vpd run1.1.2 run1.2 in
  run1.1.1 = Returned succeeded ->
  run2.1.1 = Returned succeeded ->
  selected now2 (ps_appointments st) = selected now1 (ps_appointments st) ->
  NoDup (map slot_id (allSlots (selected now1 (ps_appointments st)))) ->
  Forall (fun t => live now2 t = true) (ps_tokens run1.1.2) ->
  length (ps_tokens run2.1.2) = length (ps_tokens run1.1.2) ->
  map tok_slotIDs (ps_tokens run2.1.2) = map tok_slotIDs (ps_tokens run1.1.2)
  /\ map tok_grantID (ps_tokens run2.1.2)
     = map tok_grantID (ps_tokens run1.1.2)
  /\ map eraseExpiry (cycleGrants run1.2 run2.2)
     = map eraseExpiry (cycleGrants w run1.2)
  /\ Forall (fun g => g_expiresAt g = (now2 + day)%Z)
       (cycleGrants run1.2 run2.2).
Proof.
  intros run1 run2. unfold run2, run1. clear run1 run2.
  destruct (sendInvitations E now1 keyPairs vpd st w)
    as [[r1 st1] w1] eqn:Hrun1.
  cbn [fst snd].
  destruct (sendInvitations E now2 keyPairs vpd st1 w1)
    as [[r2 st2] w2] eqn:Hrun2.
  cbn [fst snd]. intros -> -> Hsel Hnd Hlive Hsize.
  apply sendInvitations_spec in Hrun1 as (Hap1 & _ & Hrun1).
  apply sendInvitations_spec in Hrun2 as (_ & _ & Hrun2).
  unfold cycleGrants.
  destruct Hrun1 as [(-> & Hg1 & Hempty)|(Hne & Hloop1 & _)].
  { (* nothing to offer: neither run touches anything *)
    specialize (Hempty eq_refl).
    destruct Hrun2 as [(-> & Hg2 & _)|(Hne & _)]; [|done].
    rewrite Hg2, Hg1, drop_all. repeat split. constructor. }
  destruct Hrun2 as [(_ & _ & Hempty)|(_ & Hloop2 & _)].
  { specialize (Hempty eq_refl). congruence. }
  destruct Hloop1
    as (valid1 & refs1 & gs1 & _ & Hb1 & _ & Hlen1 & Htoks1 & Hgr1).
  destruct Hloop2
    as (valid2 & refs2 & gs2 & _ & Hb2 & Hnone2 & Hlen2 & Htoks2 & Hgr2).
  rewrite Hap1, Hsel in Htoks2, Hgr2.
  set (sel := selected now1 (ps_appointments st)) in *.
  (* no token expired, none was added: the second loop runs over the
     stored tokens, each an object of its own *)
  assert (Hkeep : List.filter (live now2) (ps_tokens st1) = ps_tokens st1).
  { clear -Hlive. induction Hlive as [|t l Ht _ IH]; [done|].
    simpl. by rewrite Ht, IH. }
  rewrite Hkeep in *.
  assert (refs2 = []) as ->.
  { apply length_zero_iff_nil.
    rewrite Htoks2, length_deref, length_app, length_seq in Hsize; [lia|].
    rewrite planTokens_length. apply Forall_app. split.
    - apply Forall_forall. intros a Ha%elem_of_seq. rewrite length_app. lia.
    - eapply Forall_impl; [exact Hb2|]. intros a Ha. simpl in Ha. lia. }
  rewrite (Hnone2 eq_refl), !app_nil_r, length_seq in *.
  pose proof (planTokens_seq now2 keyPairs sel (indexSlots sel)
                (ps_tokens st1) gs2 [] [] Hlen2) as Hseq.
  cbn [length app] in Hseq. rewrite app_nil_r in Hseq.
  rewrite Hseq in Htoks2, Hgr2. cbn [fst snd] in Htoks2, Hgr2.
  assert (Hz : length (zip_with (fun g t =>
                  (tokenPlan now2 keyPairs sel (indexSlots sel) g t).1)
                  gs2 (ps_tokens st1)) = length (ps_tokens st1)).
  { rewrite length_zip_with. lia. }
  pose proof (deref_seq (zip_with (fun g t =>
                  (tokenPlan now2 keyPairs sel (indexSlots sel) g t).1)
                  gs2 (ps_tokens st1)) []) as Hd.
  rewrite Hz in Hd. rewrite Hd in Htoks2. clear Hd Hz Hseq.
  (* the first loop left every object of its pool as a turn left it *)
  destruct (planTokens_settled keyPairs sel Hnd now1
              (seq 0 (length (List.filter (live now1) (ps_tokens st)))
                 ++ refs1) gs1
              (List.filter (live now1) (ps_tokens st) ++ valid1))
    as [Hpl Hgrants].
  { lia. }
  { apply Forall_app. split.
    - apply Forall_forall. intros a Ha%elem_of_seq. rewrite length_app. lia.
    - eapply Forall_impl; [exact Hb1|]. intros a Ha. simpl in Ha. lia. }
  rewrite <- Htoks1 in Hpl, Hgrants. rewrite Hgrants in Hgr1.
  rewrite Hgr2, Hgr1, !drop_app_length, Htoks2.
  destruct (plans_again keyPairs sel Hnd now1 now2 (ps_tokens st1) gs2
              Hlen2 Hpl) as (A & B & C).
  repeat split; try done.
  apply Forall_concat. apply Forall_forall. intros l Hl.
  apply list_elem_of_lookup in Hl as [i Hl].
  apply lookup_zip_with_Some in Hl as (g & t & -> & _ & _).
  apply tokenPlan_expiry.
Qed.

(** C9, witness: cycles at the instants 0 and 1000 over
    [twoRunsStore]. *)
Lemma second_run_keeps_slots_and_grants_witness :
  let run1 :=
    sendInvitations cooperative 0 demoKeys demoProvider twoRunsStore world0 in
  let run2 :=
    sendInvitations cooperative 1000 demoKeys demoProvider run1.1.2 run1.2 in
  map tok_slotIDs (ps_tokens run2.1.2) = map tok_slotIDs (ps_tokens run1.1.2)
  /\ map tok_grantID (ps_tokens run2.1.2)
     = map tok_grantID (ps_tokens run1.1.2)
  /\ map eraseExpiry (cycleGrants run1.2 run2.2)
     = map eraseExpiry (cycleGrants world0 run1.2)
  /\ Forall (fun g => g_expiresAt g = (1000 + day)%Z)
       (cycleGrants run1.2 run2.2).
Proof.
  apply (second_run_keeps_slots_and_grants cooperative 0 1000 demoKeys
           demoProvider twoRunsStore world0).
  - reflexivity.
  - reflexivity.
  - reflexivity.
  - apply (bool_decide_unpack _). by vm_compute.
  - apply (bool_decide_unpack _). by vm_compute.
  - reflexivity.
Defined.

(** C9, counterexample: the same two cycles sign grants for the same
    slots, but the signed content differs: the expiry moves from [day]
    to [1000 + day]. *)
Lemma second_run_signs_new_expiry :
  let run1 :=
    sendInvitations cooperative 0 demoKeys demoProvider twoRunsStore world0 in
  let run2 :=
    sendInvitations cooperative 1000 demoKeys demoProvider run1.1.2 run1.2 in
  run1.1.1 = Returned succeeded /\
  run2.1.1 = Returned succeeded /\
  ps_appointments run1.1.2 = ps_appointments twoRunsStore /\
  length (ps_tokens run2.1.2) = length (ps_tokens run1.1.2) /\
  map g_objectID (cycleGrants world0 run1.2) = ["s0"; "s1"] /\
  map g_objectID (cycleGrants run1.2 run2.2) = ["s0"; "s1"] /\
  map g_expiresAt (cycleGrants world0 run1.2) = [day; day] /\
  map g_expiresAt (cycleGrants run1.2 run2.2)
    = [(1000 + day)%Z; (1000 + day)%Z] /\
  cycleGrants run1.2 run2.2 <> cycleGrants world0 run1.2.
Proof. vm_compute. repeat split. discriminate. Qed.

(** C2 (amended): when the allocator answers a request with at most one
    list of at most the requested number of tokens, the pool a cycle
    leaves has at most max(stored tokens, 5 * open slots) tokens; and a
    pool with 1000 or more live tokens is not grown. The cap of 1000
    gates the request, it does not bound the result. *)
Theorem pool_bound (E : collaborators) (now : Z) (keyPairs : keyPairSet)
    (vpd : verifiedProviderData) (st : providerStore) (w : world) :
  (forall k n, (0 < n)%Z -> answersWithin n (co_getQueueTokens E k n)) ->
  let st' := (sendInvitations E now keyPairs vpd st w).1.2 in
  let openTokens := List.filter (live now) (ps_tokens st) in
  let openSlots :=
    countOpenSlots (List.filter (offerable now) (ps_appointments st)) in
  length (ps_tokens st')
    <= max (length (ps_tokens st)) (5 * openSlots) /\
  (tokenCap <= length openTokens ->
   length (ps_tokens st') <= length (ps_tokens st)).
Proof.
  intros Hans st' openTokens openSlots.
  assert (Hlive : length openTokens <= length (ps_tokens st)).
  { unfold openTokens. apply List.filter_length_le. }
  destruct (sendInvitations_pool E now vpd keyPairs st w)
    as [Hsame|(w1 & refs & objects & st1 & w2 & Hrf & Hlen)];
    fold st' in Hsame || fold st' openTokens openSlots in Hrf, Hlen.
  - rewrite Hsame. split; lia.
  - rewrite Hlen. split.
    + apply refill_bound in Hrf; [lia|intros; by apply Hans].
    + intros Hcap. rewrite refill_at_cap in Hrf; [|done].
      injection Hrf as <- _ _ _. by rewrite length_seq.
Qed.

(** C2, witness: three open slots, an empty pool, and the allocator
    that hands out what it is asked for. *)
Lemma pool_bound_witness :
  let st := demoStore [demoAppointment (demoSlots 3)] [] in
  length (ps_tokens
    (sendInvitations generous 0 demoKeys demoProvider st world0).1.2)
  <= max 0 (5 * 3).
Proof.
  apply (pool_bound generous 0 demoKeys demoProvider
           (demoStore [demoAppointment (demoSlots 3)] []) world0).
  intros k n Hn newTokens [= <-]. right. eexists. split; [done|].
  rewrite length_map, length_seq. lia.
Defined.

(** C2, counterexample: 201 open slots and an empty pool; the cycle
    asks for 1005 tokens, gets them, and stores a pool of 1005. *)
Lemma refill_exceeds_token_cap :
  let st := demoStore [demoAppointment (demoSlots 201)] [] in
  let run := sendInvitations generous 0 demoKeys demoProvider st world0 in
  run.1.1 = Returned succeeded /\
  allocatorRequests run.2 = [1005%Z] /\
  length (ps_tokens run.1.2) = 1005 /\
  ~ length (ps_tokens run.1.2) <= tokenCap.
Proof. vm_compute. repeat split. lia. Qed.

(** C7: with n = max(0, openSlots * 5 - live tokens) positive and fewer
    than 1000 live tokens, the refill makes exactly one request to the
    allocator, for n tokens. *)
Theorem refill_requests_deficit (E : collaborators) (now : Z)
    (vpd : verifiedProviderData) (openSlots : nat)
    (openTokens : list token) (st : providerStore) (w : world) :
  let n := Z.max 0 (Z.of_nat openSlots * 5 - Z.of_nat (length openTokens)) in
  (0 < n)%Z -> length openTokens < tokenCap ->
  allocatorRequests (refill E now vpd openSlots openTokens st w).2
    = allocatorRequests w ++ [n].
Proof.
  intros n Hn Hcap. unfold refill.
  change (refillCount openSlots (length openTokens)) with n.
  apply Nat.ltb_lt in Hcap.
  rewrite (bool_decide_eq_true_2 _ Hn), Hcap. cbn [andb].
  destruct (co_getQueueTokens _ _ _) as [[newTokens|]|e]; cbn [snd];
    try by rewrite allocatorRequests_emit.
  destruct (refillLists _ _ _ _ _ _ _ _) as [[[refs valid]|e] w2] eqn:Hr;
    apply refillLists_requests in Hr; cbn [snd];
    by rewrite Hr, allocatorRequests_emit.
Qed.

(** C7, witness: 10 open slots and an empty pool: 50 tokens are asked
    for, by the refill and by the cycle around it. *)
Lemma refill_requests_deficit_witness :
  allocatorRequests
    (refill cooperative 0 demoProvider 10 [] (demoStore [] []) world0).2
  = [50%Z]
  /\ countOpenSlots [demoAppointment (demoSlots 10)] = 10
  /\ allocatorRequests
       (sendInvitations cooperative 0 demoKeys demoProvider
          (demoStore [demoAppointment (demoSlots 10)] []) world0).2
     = [50%Z].
Proof.
  split; [|by vm_compute].
  apply (refill_requests_deficit cooperative 0 demoProvider 10 []
           (demoStore [] []) world0).
  - reflexivity.
  - vm_compute. lia.
Defined.

(** C10 (amended): with no open appointment the cycle does nothing but
    take its lock. When the lock is acquired it returns succeeded,
    leaves the store as it was, and calls no collaborator but the lock
    and the unlock: no [returnTokens], no refill, no signature, no
    submission. When the lock is not acquired it throws [null], having
    called nothing but the lock, and the store is as it was. *)
Theorem no_appointments_no_effect (E : collaborators) (now : Z)
    (keyPairs : keyPairSet) (vpd : verifiedProviderData)
    (st : providerStore) (w : world) :
  ps_appointments st = [] ->
  sendInvitations E now keyPairs vpd st w =
    match co_lock E (w_tick w) None with
    | Ok _ =>
        (Returned succeeded, st, emit (CUnlock None) (emit (CLock None) w))
    | Err _ => (Threw ThNull, st, emit (CLock None) w)
    end.
Proof.
  intros Hempty. unfold sendInvitations, sendInvitationsLocked.
  destruct (co_lock E (w_tick w) None); [|done]. by rewrite Hempty.
Qed.

(** C10, witness: a pool with an expired token and no appointment. *)
Lemma no_appointments_no_effect_witness :
  let st := demoStore [] [demoToken "A" (Some []) (-5)] in
  sendInvitations cooperative 0 demoKeys demoProvider st world0 =
    (Returned succeeded, st,
     {| w_tick := 2; w_calls := [CUnlock None; CLock None] |})
  /\ expired 0 (demoToken "A" (Some []) (-5)) = true.
Proof.
  split; [|reflexivity].
  apply (no_appointments_no_effect cooperative 0 demoKeys demoProvider
           (demoStore [] [demoToken "A" (Some []) (-5)]) world0).
  reflexivity.
Defined.

(** C10, counterexample: no appointment, and the lock held elsewhere:
    the cycle does not return succeeded, it throws [null]. *)
Lemma empty_list_without_lock_throws :
  let st := demoStore [] [demoToken "A" (Some []) (-5)] in
  let run := sendInvitations contended 0 demoKeys demoProvider st world0 in
  ps_appointments st = [] /\
  run.1.1 = Threw ThNull /\
  run.1.1 <> Returned succeeded.
Proof. vm_compute. by repeat split. Qed.

Section Confirm.

Variable E : collaborators.
Variable inv : invitation.
Variable ut : userToken.

Lemma trySlots_cons p o sd rest slotInfos w :
  trySlots E inv ut p o (sd :: rest) slotInfos w =
  if skipped slotInfos sd then trySlots E inv ut p o rest slotInfos w
  else
    let w1 := emit (CEphemeralECDHEncrypt p (of_publicKey o)) w in
    match co_ephemeralECDHEncrypt E (w_tick w) p (of_publicKey o) with
    | Err e => (Err e, slotInfos, w1)
    | Ok encryptedData =>
        let req := bookRequestFor inv ut sd encryptedData in
        let w2 := emit (CBookSlot req (ut_signingKeyPair ut)) w1 in
        match co_bookSlot E (w_tick w1) req (ut_signingKeyPair ut) with
        | Ok _ => (Ok (Some sd), slotInfos, w2)
        | Err e =>
            match bookingMark e with
            | Err e' => (Err e', slotInfos, w2)
            | Ok None => trySlots E inv ut p o rest slotInfos w2
            | Ok (Some s) =>
                trySlots E inv ut p o rest (<[slot_id sd := s]> slotInfos) w2
            end
        end
    end.
Proof. reflexivity. Qed.

Lemma tryOffers_cons p o rest slotInfos w :
  tryOffers E inv ut p (o :: rest) slotInfos w =
  tryOffersFrom E inv ut p o (of_slotData o) rest slotInfos w.
Proof. reflexivity. Qed.

(** A mark of the cache is never removed, and never set back to open. *)
Lemma marked_insert slotInfos id id' s :
  s <> StOpen -> marked slotInfos id -> marked (<[id' := s]> slotInfos) id.
Proof.
  intros Hs Hm. unfold marked. destruct (decide (id' = id)) as [->|Hne].
  - rewrite lookup_insert_eq. destruct s; [done|by left|by right].
  - by rewrite lookup_insert_ne.
Qed.

Lemma bookingMark_not_open e s : bookingMark e = Ok (Some s) -> s <> StOpen.
Proof.
  destruct e as [[]|name [code|]]; simpl; try done;
    case_bool_decide; try done; intros [= <-]; by case_bool_decide.
Qed.

Lemma trySlots_marked p o id (slots : list slot) :
  forall slotInfos w,
    marked slotInfos id ->
    marked (trySlots E inv ut p o slots slotInfos w).1.2 id.
Proof.
  induction slots as [|sd rest IH]; intros slotInfos w Hm; [done|].
  rewrite trySlots_cons. destruct (skipped slotInfos sd); [by apply IH|].
  cbv zeta. destruct (co_ephemeralECDHEncrypt _ _ _ _); [|done].
  destruct (co_bookSlot _ _ _ _) as [|e]; [done|].
  destruct (bookingMark e) as [[s|]|] eqn:Hb; [|by apply IH|done].
  apply IH. apply marked_insert; [|done]. by eapply bookingMark_not_open.
Qed.

Lemma tryOffers_marked p id (offers : list offer) :
  forall slotInfos w,
    marked slotInfos id ->
    marked (tryOffers E inv ut p offers slotInfos w).1.2 id.
Proof.
  induction offers as [|o rest IH]; intros slotInfos w Hm; [done|].
  simpl. pose proof (trySlots_marked p o id (of_slotData o) slotInfos w Hm)
    as Hs.
  destruct (trySlots _ _ _ _ _ _ _ _) as [[[[sd|]|e] c] w1]; simpl in *;
    [done|by apply IH|by apply IH].
Qed.

End Confirm.

(** C4: two offers with one eligible slot each; booking the first slot
    raises the remote conflict, booking the second succeeds. The call
    returns succeeded with the second offer and its slot, and the stored
    cache is the old one with the first slot marked taken. *)
Theorem confirm_falls_back_to_second_offer (E : collaborators)
    (inv : invitation) (ut : userToken) (st : userStore) (w : world)
    (o1 o2 : offer) (s1 s2 : slot) :
  of_slotData o1 = [s1] -> of_slotData o2 = [s2] ->
  skipped (us_slots st) s1 = false ->
  skipped (us_slots st) s2 = false ->
  isOk (co_lock E (w_tick w) (Some "confirmOffers")) ->
  (forall k p kp pk, isOk (co_ecdhEncrypt E k p kp pk)) ->
  (forall k p pk, isOk (co_ephemeralECDHEncrypt E k p pk)) ->
  (forall k r kp, br_id r = slot_id s1 ->
     co_bookSlot E k r kp = Err conflict) ->
  (forall k r kp, br_id r = slot_id s2 -> isOk (co_bookSlot E k r kp)) ->
  let run := confirmOffers E [o1; o2] inv ut st w in
  run.1.1 = Returned {| oc_status := Succeeded; oc_data := Some (o2, s2);
                        oc_error := None |} /\
  us_slots run.1.2 = <[slot_id s1 := StTaken]> (us_slots st) /\
  us_slots run.1.2 !! slot_id s1 = Some StTaken /\
  us_accepted run.1.2 = Some (o2, inv, s2).
Proof.
  intros Ho1 Ho2 Hs1 Hs2 [u Hlock] Henc Heph Hbook1 Hbook2.
  assert (Hne : slot_id s1 <> slot_id s2).
  { intros Heq.
    destruct (Hbook2 0 (bookRequestFor inv ut s2 "") demoKeyPair eq_refl)
      as [u' Hu].
    rewrite Hbook1 in Hu; [done|]. by rewrite Heq. }
  assert (Hs2' : skipped (<[slot_id s1 := StTaken]> (us_slots st)) s2 = false).
  { unfold skipped in *. rewrite lookup_insert_ne; done. }
  intros run. unfold run, confirmOffers. rewrite Hlock.
  destruct (Henc (w_tick (emit (CLock (Some "confirmOffers")) w))
              (PlainProof (proofOf ut)) (ut_keyPair ut) (inv_publicKey inv))
    as [c Hc].
  cbv zeta. rewrite Hc.
  rewrite tryOffers_cons. unfold tryOffersFrom.
  rewrite Ho1, trySlots_cons, Hs1. cbv zeta.
  match goal with |- context [co_ephemeralECDHEncrypt E ?k ?p ?pk] =>
    destruct (Heph k p pk) as [c1 Hc1]; rewrite Hc1 end.
  rewrite Hbook1; [|done]. cbn [bookingMark conflict].
  rewrite !bool_decide_eq_true_2 by done.
  cbn [trySlots]. rewrite tryOffers_cons. unfold tryOffersFrom.
  rewrite Ho2, trySlots_cons, Hs2'. cbv zeta.
  match goal with |- context [co_ephemeralECDHEncrypt E ?k ?p ?pk] =>
    destruct (Heph k p pk) as [c2 Hc2]; rewrite Hc2 end.
  match goal with |- context [co_bookSlot E ?k ?r ?kp] =>
    destruct (Hbook2 k r kp eq_refl) as [u2 Hu2]; rewrite Hu2 end.
  cbn [fst snd us_slots us_accepted]. repeat split.
  by rewrite lookup_insert_eq.
Qed.

(** C4, witness: the slots [s1] and [s2], [s1] in conflict. *)
Lemma confirm_falls_back_to_second_offer_witness :
  let E := bookingBy (fun id => if bool_decide (id = "s1") then Err conflict
                                else Ok tt) in
  let o1 := demoOffer "a1" [openSlot "s1"] in
  let o2 := demoOffer "a2" [openSlot "s2"] in
  let run := confirmOffers E [o1; o2] demoInvitation demoUserToken
               emptyUserStore world0 in
  run.1.1 = Returned {| oc_status := Succeeded;
                        oc_data := Some (o2, openSlot "s2");
                        oc_error := None |} /\
  us_slots run.1.2 = <["s1" := StTaken]> ∅ /\
  us_slots run.1.2 !! "s1" = Some StTaken /\
  us_accepted run.1.2 = Some (o2, demoInvitation, openSlot "s2").
Proof.
  apply (confirm_falls_back_to_second_offer
           (bookingBy (fun id => if bool_decide (id = "s1") then Err conflict
                                 else Ok tt))
           demoInvitation demoUserToken emptyUserStore world0
           (demoOffer "a1" [openSlot "s1"]) (demoOffer "a2" [openSlot "s2"])
           (openSlot "s1") (openSlot "s2")).
  - reflexivity.
  - reflexivity.
  - reflexivity.
  - reflexivity.
  - by exists tt.
  - intros. by eexists.
  - intros. by eexists.
  - intros k r kp Hr. simpl in *. by rewrite Hr.
  - intros k r kp Hr. simpl in *. rewrite Hr. by eexists.
Defined.

(** C5 (amended): for an attempted slot, by what the booking or the
    encryption before it throws: (1) an RPC exception whose code is not
    401 marks the slot error and the loop goes on with the next slot,
    the mark staying to the end; (2) an RPC exception with the code 401
    marks the slot taken and the loop goes on with the next slot; (3) an
    exception object that is no RPC exception, or a thrown primitive
    other than [null], marks nothing and the loop goes on with the next
    slot; (4) a thrown [null], or an RPC exception without [error],
    makes the handler itself throw: nothing is marked, the other slots
    of the offer are passed over and the loop goes on with the next
    offer; (5) when the per-slot encryption fails, nothing is marked and
    the loop goes on with the next offer. *)
Theorem failed_booking_handling (E : collaborators) (inv : invitation)
    (ut : userToken) (o : offer) (sd : slot) (slots : list slot)
    (rest : list offer) (slotInfos : gmap string slotStatus) (w : world) :
  skipped slotInfos sd = false ->
  let p := proofOf ut in
  let encrypted := co_ephemeralECDHEncrypt E (w_tick w) p (of_publicKey o) in
  let w1 := emit (CEphemeralECDHEncrypt p (of_publicKey o)) w in
  let booked c :=
    co_bookSlot E (w_tick w1) (bookRequestFor inv ut sd c)
      (ut_signingKeyPair ut) in
  let w2 c :=
    emit (CBookSlot (bookRequestFor inv ut sd c) (ut_signingKeyPair ut)) w1 in
  let run := tryOffersFrom E inv ut p o (sd :: slots) rest slotInfos w in
  (forall c code,
     encrypted = Ok c ->
     booked c = Err (ThObject "RPCException" (Some code)) ->
     code <> 401%Z ->
     run = tryOffersFrom E inv ut p o slots rest
             (<[slot_id sd := StError]> slotInfos) (w2 c) /\
     marked run.1.2 (slot_id sd)) /\
  (forall c,
     encrypted = Ok c ->
     booked c = Err (ThObject "RPCException" (Some 401%Z)) ->
     run = tryOffersFrom E inv ut p o slots rest
             (<[slot_id sd := StTaken]> slotInfos) (w2 c) /\
     marked run.1.2 (slot_id sd)) /\
  (forall c e,
     encrypted = Ok c ->
     booked c = Err e ->
     (exists name error, e = ThObject name error /\ name <> "RPCException")
     \/ (exists v, e = ThPrim v /\ v <> JNull) ->
     run = tryOffersFrom E inv ut p o slots rest slotInfos (w2 c)) /\
  (forall c e,
     encrypted = Ok c ->
     booked c = Err e ->
     e = ThPrim JNull \/ e = ThObject "RPCException" None ->
     run = tryOffers E inv ut p rest slotInfos (w2 c)) /\
  (forall e,
     encrypted = Err e ->
     run = tryOffers E inv ut p rest slotInfos w1).
Proof.
  intros Hsk p encrypted w1 booked w2 run.
  unfold run, tryOffersFrom. rewrite trySlots_cons, Hsk. cbv zeta.
  fold p encrypted w1.
  assert (Hmark : forall s c, s <> StOpen ->
    marked (tryOffersFrom E inv ut p o slots rest
              (<[slot_id sd := s]> slotInfos) (w2 c)).1.2 (slot_id sd)).
  { intros s c Hs. unfold tryOffersFrom.
    assert (Hm : marked (<[slot_id sd := s]> slotInfos) (slot_id sd)).
    { unfold marked. rewrite lookup_insert_eq.
      destruct s; [done|by left|by right]. }
    pose proof (trySlots_marked E inv ut p o (slot_id sd) slots _ (w2 c) Hm)
      as Hs'.
    destruct (trySlots _ _ _ _ _ _ _ _) as [[[[sd'|]|e] c'] w3];
      simpl in *; try done; by apply tryOffers_marked. }
  split; [|split; [|split; [|split]]].
  - intros c code Hc Hb Hcode. rewrite Hc. fold (booked c) (w2 c).
    rewrite Hb. cbn [bookingMark].
    rewrite bool_decide_eq_true_2 by done.
    rewrite bool_decide_eq_false_2 by done. split; [done|].
    by apply (Hmark StError c).
  - intros c Hc Hb. rewrite Hc. fold (booked c) (w2 c).
    rewrite Hb. cbn [bookingMark].
    rewrite !bool_decide_eq_true_2 by done. split; [done|].
    by apply (Hmark StTaken c).
  - intros c e Hc Hb He. rewrite Hc. fold (booked c) (w2 c). rewrite Hb.
    destruct He as [(name & error & -> & Hname)|(v & -> & Hv)].
    + cbn [bookingMark]. by rewrite bool_decide_eq_false_2 by done.
    + by destruct v.
  - intros c e Hc Hb He. rewrite Hc. fold (booked c) (w2 c). rewrite Hb.
    by destruct He as [-> | ->].
  - intros e He. by rewrite He.
Qed.

(** C5, witness: [s1] fails with the RPC code 500, [s2] is booked. *)
Lemma failed_booking_handling_witness :
  let E := bookingBy (fun id => if bool_decide (id = "s1")
                                then Err (ThObject "RPCException" (Some 500%Z))
                                else Ok tt) in
  let o := demoOffer "a1" [openSlot "s1"; openSlot "s2"] in
  let run := tryOffersFrom E demoInvitation demoUserToken
               (proofOf demoUserToken) o (of_slotData o) [] ∅ world0 in
  marked run.1.2 "s1" /\
  confirmOffers E [o] demoInvitation demoUserToken emptyUserStore world0
  = (Returned {| oc_status := Succeeded;
                 oc_data := Some (o, openSlot "s2"); oc_error := None |},
     {| us_slots := <["s1" := StError]> ∅;
        us_accepted := Some (o, demoInvitation, openSlot "s2") |},
     {| w_tick := 7;
        w_calls := rev
          [CLock (Some "confirmOffers");
           CEcdhEncrypt (PlainProof (proofOf demoUserToken)) demoKeyPair
             "provider";
           CEphemeralECDHEncrypt (proofOf demoUserToken) "apk";
           CBookSlot (bookRequestFor demoInvitation demoUserToken
                        (openSlot "s1") "ciphertext") demoKeyPair;
           CEphemeralECDHEncrypt (proofOf demoUserToken) "apk";
           CBookSlot (bookRequestFor demoInvitation demoUserToken
                        (openSlot "s2") "ciphertext") demoKeyPair;
           CUnlock (Some "confirmOffers")] |}).
Proof.
  split; [|by vm_compute].
  assert (Hsk : skipped (∅ : gmap string slotStatus) (openSlot "s1") = false)
    by reflexivity.
  destruct (failed_booking_handling
              (bookingBy (fun id => if bool_decide (id = "s1")
                                    then Err (ThObject "RPCException"
                                                (Some 500%Z))
                                    else Ok tt))
              demoInvitation demoUserToken
              (demoOffer "a1" [openSlot "s1"; openSlot "s2"])
              (openSlot "s1") [openSlot "s2"] [] ∅ world0 Hsk)
    as (H & _).
  apply (H "ciphertext" 500%Z).
  - reflexivity.
  - reflexivity.
  - done.
Defined.

(** C5, counterexample: a booking that fails with a network error, and
    a failing encryption, leave the slot unmarked; after the failed
    encryption the second slot of the offer is not even tried. *)
Lemma other_failures_are_not_marked :
  let o := demoOffer "a1" [openSlot "s1"; openSlot "s2"] in
  let network := bookingBy (fun _ => Err (ThObject "TypeError" None)) in
  let run1 := confirmOffers network [o] demoInvitation demoUserToken
                emptyUserStore world0 in
  let noEncryption :=
    withEphemeralECDHEncrypt
      (fun k _ _ => if bool_decide (k = 2) then Err (ThObject "Error" None)
                    else Ok "ciphertext") cooperative in
  let run2 := confirmOffers noEncryption [o] demoInvitation demoUserToken
                emptyUserStore world0 in
  run1.1.1 = Returned failed /\
  bookingsTried run1.2 = ["s1"; "s2"] /\
  us_slots run1.1.2 !! "s1" = None /\
  run2.1.1 = Returned failed /\
  bookingsTried run2.2 = [] /\
  us_slots run2.1.2 !! "s1" = None.
Proof. vm_compute. repeat split. Qed.

(** With the lock and a [returnTokens] that does not fail, the cycle
    returns succeeded or failed. *)
Lemma sendInvitations_tagged (E : collaborators) now keyPairs vpd st w :
  (forall k toks, isOk (co_returnTokens E k toks)) ->
  isOk (co_lock E (w_tick w) None) ->
  tagged (sendInvitations E now keyPairs vpd st w).1.1 [Succeeded; Failed].
Proof.
  intros Hret [u Hlock]. unfold sendInvitations. rewrite Hlock.
  unfold sendInvitationsLocked.
  assert (Hs : forall o : outcome unit, oc_status o = Succeeded ->
            tagged (Returned o) [Succeeded; Failed]).
  { intros o Ho. exists o. split; [done|]. rewrite Ho. set_solver. }
  assert (Hf : forall o : outcome unit, oc_status o = Failed ->
            tagged (Returned o) [Succeeded; Failed]).
  { intros o Ho. exists o. split; [done|]. rewrite Ho. set_solver. }
  case_bool_decide; [by apply Hs|].
  match goal with |- context [if bool_decide ?c then ?a else ?b] =>
    assert (Hr : exists w1, (if bool_decide c then a else b) = (Ok tt, w1));
    [|destruct Hr as [w1 ->]] end.
  { case_bool_decide; [|by eexists].
    match goal with |- context [co_returnTokens E ?k ?l] =>
      destruct (Hret k l) as [[] ->] end. by eexists. }
  destruct (refill _ _ _ _ _ _ _) as [[[refs objects|[e|]] st1] w2];
    [|by apply Hf|by apply Hf].
  destruct (processTokens _ _ _ _ _ _ _ _ _ _) as [[objects2 sds] w3].
  destruct (co_bulkStoreData _ _ _); [by apply Hs|by apply Hf].
Qed.

(** Under the lock the cycle returns succeeded or failed, unless
    [returnTokens] fails: then the outer handler logs the exception and
    the call returns [undefined]. *)
Lemma sendInvitations_outcome (E : collaborators) now keyPairs vpd st w :
  isOk (co_lock E (w_tick w) None) ->
  let run := sendInvitations E now keyPairs vpd st w in
  let expiredTokens := List.filter (expired now) (ps_tokens st) in
  tagged run.1.1 [Succeeded; Failed] \/
  run.1.1 = ReturnedUndefined /\
  exists e, co_returnTokens E (S (w_tick w)) (map tok_token expiredTokens)
            = Err e.
Proof.
  intros [u Hlock]. cbv zeta. unfold sendInvitations. rewrite Hlock.
  unfold sendInvitationsLocked.
  assert (Hs : forall o : outcome unit, oc_status o = Succeeded ->
            tagged (Returned o) [Succeeded; Failed]).
  { intros o Ho. exists o. split; [done|]. rewrite Ho. set_solver. }
  assert (Hf : forall o : outcome unit, oc_status o = Failed ->
            tagged (Returned o) [Succeeded; Failed]).
  { intros o Ho. exists o. split; [done|]. rewrite Ho. set_solver. }
  case_bool_decide; [left; by apply Hs|].
  case_bool_decide.
  - cbn [w_tick emit].
    destruct (co_returnTokens E _ _) as [[]|e] eqn:Hret;
      [|right; split; [done|by exists e]].
    left.
    destruct (refill _ _ _ _ _ _ _) as [[[refs objects|[e|]] st1] w2];
      [|by apply Hf|by apply Hf].
    destruct (processTokens _ _ _ _ _ _ _ _ _ _) as [[objects2 sds] w3].
    destruct (co_bulkStoreData _ _ _); [by apply Hs|by apply Hf].
  - left.
    destruct (refill _ _ _ _ _ _ _) as [[[refs objects|[e|]] st1] w2];
      [|by apply Hf|by apply Hf].
    destruct (processTokens _ _ _ _ _ _ _ _ _ _) as [[objects2 sds] w3].
    destruct (co_bulkStoreData _ _ _); [by apply Hs|by apply Hf].
Qed.

(** C6 (amended): what each entry point gives back, for every input and
    every behaviour of the collaborators. With its lock acquired an
    entry point returns an outcome tagged succeeded, loaded or failed,
    but for three cases: [keyPairs] throws when a key generation fails
    with a value whose [toString] throws (as [null] has none);
    [sendInvitations] returns [undefined] when [returnTokens] fails;
    [confirmOffers] throws when the encryption of the proof fails.
    Without its lock the call throws: the lock's exception in [keyPairs]
    and [createAppointment], [null] in [sendInvitations], the named
    [keyPairs] and [confirmOffers]. *)
Theorem entry_points_outcome (E : collaborators) (now : Z)
    (keyPairSet0 : keyPairSet) (vpd : verifiedProviderData)
    (lockName : option string) (a : appointmentSpec) (offers : list offer)
    (inv : invitation) (ut : userToken) (pst : providerStore)
    (ust : userStore) (w : world) :
  let expiredTokens := List.filter (expired now) (ps_tokens pst) in
  match co_lock E (w_tick w) None with
  | Ok _ =>
      (tagged (keyPairs E pst w).1.1 [Loaded; Failed] \/
       exists e t,
         (co_generateECDSAKeyPair E (S (w_tick w)) = Err e \/
          co_generateECDHKeyPair E (S (S (w_tick w))) = Err e) /\
         toStringOf E e = Err t /\
         (keyPairs E pst w).1.1 = Threw t) /\
      tagged (createAppointment E a pst w).1.1 [Loaded] /\
      (tagged (sendInvitations E now keyPairSet0 vpd pst w).1.1
         [Succeeded; Failed] \/
       (sendInvitations E now keyPairSet0 vpd pst w).1.1 = ReturnedUndefined
       /\ exists e,
            co_returnTokens E (S (w_tick w)) (map tok_token expiredTokens)
            = Err e)
  | Err e =>
      (keyPairs E pst w).1.1 = Threw e /\
      (createAppointment E a pst w).1.1 = Threw e /\
      (sendInvitations E now keyPairSet0 vpd pst w).1.1 = Threw ThNull
  end /\
  match co_lock E (w_tick w) (Some (default "keyPairs" lockName)) with
  | Ok _ => tagged (keyPairsNamed E lockName pst w).1.1 [Loaded; Failed]
  | Err _ => (keyPairsNamed E lockName pst w).1.1 = Threw ThNull
  end /\
  match co_lock E (w_tick w) (Some "confirmOffers") with
  | Ok _ =>
      tagged (confirmOffers E offers inv ut ust w).1.1 [Succeeded; Failed] \/
      exists e,
        co_ecdhEncrypt E (S (w_tick w)) (PlainProof (proofOf ut))
          (ut_keyPair ut) (inv_publicKey inv) = Err e /\
        (confirmOffers E offers inv ut ust w).1.1 = Threw e
  | Err _ => (confirmOffers E offers inv ut ust w).1.1 = Threw ThNull
  end.
Proof.
  cbv zeta.
  assert (Ht : forall D (o : outcome D) l,
            oc_status o ∈ l -> tagged (Returned o) l).
  { intros D o l Ho. by exists o. }
  assert (Htext : forall e : thrown,
    tagged (failedWithText (D := keyPairSet) E e) [Loaded; Failed] \/
    exists t, toStringOf E e = Err t /\
              failedWithText (D := keyPairSet) E e = Threw t).
  { intros e. unfold failedWithText.
    destruct (toStringOf E e) as [s|t]; [left|right; by exists t].
    apply Ht. set_solver. }
  split; [|split].
  - destruct (co_lock E (w_tick w) None) as [u|e] eqn:Hlock.
    + split; [|split].
      * unfold keyPairs. rewrite Hlock.
        destruct (ps_keyPairs pst); [left; apply Ht; set_solver|].
        cbn [w_tick emit].
        destruct (co_generateECDSAKeyPair E (S (w_tick w))) as [kp|e] eqn:H1.
        2:{ cbn [fst]. destruct (Htext e) as [?|(t & ? & ?)]; [by left|].
            right. exists e, t. split; [by left|done]. }
        destruct (co_generateECDHKeyPair E (S (S (w_tick w))))
          as [kp'|e] eqn:H2.
        2:{ cbn [fst]. destruct (Htext e) as [?|(t & ? & ?)]; [by left|].
            right. exists e, t. split; [by right|done]. }
        left. apply Ht. set_solver.
      * unfold createAppointment. rewrite Hlock. apply Ht. set_solver.
      * apply (sendInvitations_outcome E now keyPairSet0 vpd pst w).
        rewrite Hlock. by eexists.
    + unfold keyPairs, createAppointment, sendInvitations.
      by rewrite Hlock.
  - unfold keyPairsNamed.
    destruct (co_lock E (w_tick w) (Some (default "keyPairs" lockName)));
      [|done].
    destruct (ps_keyPairs pst); [apply Ht; set_solver|].
    destruct (co_generateSymmetricKey _ _); [|apply Ht; set_solver].
    destruct (co_generateECDSAKeyPair _ _); [|apply Ht; set_solver].
    destruct (co_generateECDHKeyPair _ _); apply Ht; set_solver.
  - unfold confirmOffers.
    destruct (co_lock E (w_tick w) (Some "confirmOffers")); [|done].
    cbn [w_tick emit].
    destruct (co_ecdhEncrypt E (S (w_tick w)) _ _ _) as [c|e] eqn:Henc;
      [left|right; by exists e].
    destruct (tryOffers _ _ _ _ _ _ _) as [[[[o sd]|] c'] w2];
      apply Ht; simpl; set_solver.
Qed.

(** C6, counterexample: with the lock held elsewhere, [sendInvitations]
    and [confirmOffers] throw [null] and return no outcome; and with
    the lock acquired [keyPairs] throws a TypeError when the generation
    of the signing key pair rejects with [null]. *)
Lemma lock_failure_escapes :
  let pst := demoStore [demoAppointment (demoSlots 2)]
               [demoToken "A" None day] in
  (sendInvitations contended 0 demoKeys demoProvider pst world0).1.1
    = Threw ThNull /\
  (confirmOffers contended [demoOffer "a1" [openSlot "s1"]] demoInvitation
     demoUserToken emptyUserStore world0).1.1 = Threw ThNull /\
  ~ tagged (sendInvitations contended 0 demoKeys demoProvider pst world0).1.1
      [Succeeded; Loaded; Failed] /\
  isOk (co_lock rejectingNull 0 None) /\
  (keyPairs rejectingNull pst world0).1.1 = Threw TypeError.
Proof.
  vm_compute. repeat split; [|by exists tt].
  intros (o & Ho & _). discriminate.
Qed.

(** * Further properties *)

(** ** The calls of a cycle *)

Section Calls.

Variable E : collaborators.
Variable now : Z.
Variable keyPairs : keyPairSet.
Variable vpd : verifiedProviderData.

Lemma decryptTokens_calls (tokenList : list encryptedToken) :
  forall validTokens w r w',
    decryptTokens E now vpd tokenList validTokens w = (r, w') ->
    exists later, w_calls w' = later ++ w_calls w /\
                  Forall isRefillCall later /\
                  omap allocatorRequest later = [].
Proof.
  induction tokenList as [|t rest IH]; intros valid w r w' H; simpl in H.
  - injection H as _ <-. by exists [].
  - destruct (getQueuePrivateKey _ _); [|injection H as _ <-; by exists []].
    destruct (co_ecdhDecrypt _ _ _ _).
    2:{ apply IH in H as (later & -> & Hf & Ho).
        exists (later ++ [CEcdhDecrypt (et_encryptedData t) a]).
        rewrite <- app_assoc. split; [done|]. split.
        - apply Forall_app. split; [done|]. by repeat constructor.
        - by rewrite omap_app, Ho. }
    destruct (co_generateECDHKeyPair _ _).
    2:{ injection H as _ <-. eexists [_; _]. split; [done|].
        split; [by repeat constructor|done]. }
    apply IH in H as (later & -> & Hf & Ho).
    eexists (later ++ [_; _; _]). rewrite <- app_assoc. split; [done|].
    split.
    + apply Forall_app. split; [done|]. by repeat constructor.
    + by rewrite omap_app, Ho.
Qed.

Lemma refillLists_calls (newTokens : list (list encryptedToken)) :
  forall base openTokens validTokens w r w',
    refillLists E now vpd newTokens base openTokens validTokens w = (r, w') ->
    exists later, w_calls w' = later ++ w_calls w /\
                  Forall isRefillCall later /\
                  omap allocatorRequest later = [].
Proof.
  induction newTokens as [|l rest IH];
    intros base openTokens valid w r w' H; simpl in H.
  - injection H as _ <-. by exists [].
  - destruct (decryptTokens E now vpd l valid w) as [[valid1|e] w1] eqn:Hd;
      apply decryptTokens_calls in Hd as (l1 & Hl1 & Hf1 & Ho1).
    + apply IH in H as (l2 & -> & Hf2 & Ho2). exists (l2 ++ l1).
      rewrite Hl1, app_assoc. split; [done|]. split.
      * by apply Forall_app.
      * by rewrite omap_app, Ho1, Ho2.
    + injection H as _ <-. by exists l1.
Qed.

(** The refill asks the allocator once, for the deficit, when there is a
    deficit and room under the cap, and not at all otherwise. *)
Lemma refill_calls (openSlots : nat) (openTokens : list token)
    (st : providerStore) (w : world) r st' w' :
  refill E now vpd openSlots openTokens st w = (r, st', w') ->
  let n := refillCount openSlots (length openTokens) in
  exists later, w_calls w' = later ++ w_calls w /\
                Forall isRefillCall later /\
                omap allocatorRequest later =
                  if bool_decide (0 < n)%Z && (length openTokens <? tokenCap)
                  then [n] else [].
Proof.
  intros H. cbv zeta. unfold refill in H.
  set (n := refillCount openSlots (length openTokens)) in *.
  destruct (bool_decide (0 < n)%Z && (length openTokens <? tokenCap)).
  2:{ injection H as _ _ <-. by exists []. }
  assert (Hone : exists later,
    w_calls (emit (CGetQueueTokens n) w) = later ++ w_calls w /\
    Forall isRefillCall later /\ omap allocatorRequest later = [n]).
  { exists [CGetQueueTokens n]. split; [done|].
    split; [by repeat constructor|done]. }
  destruct (co_getQueueTokens _ _ _) as [[newTokens|]|e];
    [|by injection H as _ _ <-|by injection H as _ _ <-].
  destruct (refillLists _ _ _ _ _ _ _ _) as [[[refs valid]|e] w2] eqn:Hr;
    apply refillLists_calls in Hr as (l2 & Hl2 & Hf2 & Ho2);
    injection H as _ _ <-;
    (exists (l2 ++ [CGetQueueTokens n]); rewrite Hl2, <- app_assoc;
     split; [done|]; split;
     [apply Forall_app; split; [done|by repeat constructor]
     |by rewrite omap_app, Ho2]).
Qed.

Lemma signGrants_calls (gs : list grant) :
  forall w r w', signGrants E gs w = (r, w') ->
    exists later, w_calls w' = later ++ w_calls w /\ Forall isLoopCall later.
Proof.
  induction gs as [|g rest IH]; intros w r w' H; simpl in H.
  - injection H as _ <-. by exists [].
  - destruct (signGrants E rest (emit (CSign (PGrant g)) w))
      as [rs w1] eqn:Hs.
    injection H as _ <-. apply IH in Hs as (later & -> & Hf).
    exists (later ++ [CSign (PGrant g)]). rewrite <- app_assoc.
    split; [done|]. apply Forall_app. split; [done|]. by repeat constructor.
Qed.

Lemma processToken_calls sel slotsById bySlot tok w :
  exists later,
    w_calls (processToken E now keyPairs vpd sel slotsById bySlot tok w).2
      = later ++ w_calls w /\
    Forall isLoopCall later.
Proof.
  unfold processToken.
  set (start := match tok_grantID tok with Some _ => _ | None => _ end).
  assert (Hstart : exists l0, w_calls start.2 = l0 ++ w_calls w /\
                              Forall isLoopCall l0).
  { unfold start. destruct (tok_grantID tok); [by exists []|].
    exists [CRandomBytes 32]. split; [done|]. by repeat constructor. }
  destruct start as [tok1 w1]. destruct Hstart as (l0 & Hl0 & Hf0).
  simpl in Hl0.
  destruct (updateSlots _ _ _ _); [|by exists l0].
  destruct (signGrants _ _ _) as [rs w2] eqn:Hs.
  apply signGrants_calls in Hs as (l1 & Hl1 & Hf1).
  assert (Hw2 : exists l, w_calls w2 = l ++ w_calls w /\ Forall isLoopCall l).
  { exists (l1 ++ l0). rewrite Hl1, Hl0, app_assoc. split; [done|].
    by apply Forall_app. }
  assert (Hemit : forall c w3,
    isLoopCall c ->
    (exists l, w_calls w3 = l ++ w_calls w /\ Forall isLoopCall l) ->
    exists l, w_calls (emit c w3) = l ++ w_calls w /\ Forall isLoopCall l).
  { intros c w3 Hc (l & Hl & Hf). exists (c :: l). simpl. rewrite Hl.
    split; [done|]. by constructor. }
  destruct rs; [|done].
  destruct (groupOffers _ _ _ _); [|done].
  destruct (co_ecdhEncrypt _ _ _ _ _); [|by apply Hemit].
  destruct (co_sign _ _ _); cbn [snd];
    (apply Hemit; [done|]; by apply Hemit).
Qed.

Lemma processTokens_calls sel slotsById bySlot (refs : list nat) :
  forall objects w, exists later,
    w_calls (processTokens E now keyPairs vpd sel slotsById bySlot refs
               objects w).2
      = later ++ w_calls w /\
    Forall isLoopCall later.
Proof.
  induction refs as [|a rest IH]; intros objects w; cbn [processTokens].
  - by exists [].
  - destruct (objects !! a) as [tok|]; [|apply IH].
    destruct (processToken_calls sel slotsById bySlot tok w)
      as (l1 & Hl1 & Hf1).
    destruct (processToken _ _ _ _ _ _ _ tok w) as [[tok1 sd] w1].
    destruct (IH (<[a := tok1]> objects) w1) as (l2 & Hl2 & Hf2).
    destruct (processTokens _ _ _ _ _ _ _ rest _ w1) as [[rest' sds] w2].
    simpl in *. exists (l2 ++ l1). rewrite Hl2, Hl1, app_assoc.
    split; [done|]. by apply Forall_app.
Qed.

End Calls.

Section CycleCalls.

Variable E : collaborators.
Variable now : Z.
Variable keyPairs : keyPairSet.
Variable vpd : verifiedProviderData.

Lemma omap_cons_None {A B} (f : A -> option B) (x : A) (l : list A) :
  f x = None -> omap f (x :: l) = omap f l.
Proof. intros H. simpl. by rewrite H. Qed.

Lemma loopCalls_no_request (l : list call) :
  Forall isLoopCall l -> omap allocatorRequest l = [].
Proof.
  induction 1 as [|c l Hc _ IH]; [done|].
  destruct c; try done; exact IH.
Qed.

(** The calls of the block under the lock, the latest first: the report
    of the expired tokens, the refill, the token loop, the submission. *)
Lemma sendInvitationsLocked_calls (st : providerStore) (w : world) r st' w' :
  sendInvitationsLocked E now keyPairs vpd st w = (r, st', w') ->
  let expiredTokens := List.filter (expired now) (ps_tokens st) in
  let openTokens := List.filter (live now) (ps_tokens st) in
  let n := refillCount
             (countOpenSlots
                (List.filter (offerable now) (ps_appointments st)))
             (length openTokens) in
  exists returns refillCalls loopCalls submits,
    w_calls w' = submits ++ loopCalls ++ refillCalls ++ returns ++ w_calls w
    /\ (returns = [] \/
        (expiredTokens <> [] /\ ps_appointments st <> [] /\
         returns = [CReturnTokens (map tok_token expiredTokens)]))
    /\ (expiredTokens <> [] -> ps_appointments st <> [] -> returns <> [])
    /\ Forall isRefillCall refillCalls
    /\ Forall isLoopCall loopCalls
    /\ ((submits = [] /\ loopCalls = []) \/
        exists sds, submits = [CBulkStoreData sds])
    /\ (ps_appointments st <> [] -> r <> ReturnedUndefined ->
        omap allocatorRequest refillCalls =
          if bool_decide (0 < n)%Z && (length openTokens <? tokenCap)
          then [n] else [])
    /\ (r = Returned succeeded -> ps_appointments st <> [] -> submits <> []).
Proof.
  unfold sendInvitationsLocked. intros H. cbv zeta.
  case_bool_decide as Hempty.
  { injection H as <- _ <-. exists [], [], [], [].
    apply length_zero_iff_nil in Hempty.
    repeat split; try done; try (by left); by constructor. }
  assert (Hne : ps_appointments st <> []).
  { intros Heq. apply Hempty. by rewrite Heq. }
  set (expiredTokens := List.filter (expired now) (ps_tokens st)) in *.
  set (ret := if bool_decide (0 < length expiredTokens)
              then _ else _) in *.
  assert (Hret : exists returns,
    w_calls ret.2 = returns ++ w_calls w /\
    (returns = [] \/
     (expiredTokens <> [] /\ ps_appointments st <> [] /\
      returns = [CReturnTokens (map tok_token expiredTokens)])) /\
    (expiredTokens <> [] -> ps_appointments st <> [] -> returns <> [])).
  { unfold ret. case_bool_decide as Hexp.
    - eexists [_]. split; [done|]. split; [|done]. right.
      repeat split; try done. intros Heq. rewrite Heq in Hexp. simpl in Hexp.
      lia.
    - exists []. split; [done|]. split; [by left|].
      intros Hx. destruct expiredTokens; [done|]. simpl in Hexp. lia. }
  destruct Hret as (returns & Hw1 & Hreturns & Hreported).
  destruct ret as [[[]|e] w1]; simpl in Hw1.
  2:{ injection H as <- _ <-. exists returns, [], [], [].
      repeat split; try done; try (by left); by constructor. }
  destruct (refill _ _ _ _ _ _ _) as [[rf st1] w2] eqn:Hrf.
  apply refill_calls in Hrf as (refillCalls & Hw2 & Hfr & Hreq).
  destruct rf as [openTokens1 objects1|oe].
  2:{ exists returns, refillCalls, [], [].
      destruct oe; injection H as <- _ <-; rewrite Hw2, Hw1;
        repeat split; try done; try (by left); by constructor. }
  pose proof (processTokens_calls E now keyPairs vpd
    (List.filter hasSlots (List.filter (offerable now) (ps_appointments st)))
    (indexSlots (List.filter hasSlots
       (List.filter (offerable now) (ps_appointments st))))
    (indexAppointmentsBySlot (List.filter hasSlots
       (List.filter (offerable now) (ps_appointments st))))
    openTokens1 objects1 w2) as (loopCalls & Hw3 & Hfl).
  destruct (processTokens _ _ _ _ _ _ _ _ _ _) as [[objects2 sds] w3].
  simpl in Hw3.
  exists returns, refillCalls, loopCalls, [CBulkStoreData sds].
  destruct (co_bulkStoreData _ _ _); injection H as <- _ <-; simpl;
    rewrite Hw3, Hw2, Hw1; repeat split; try done; by right; eexists.
Qed.

End CycleCalls.

(** ** Further properties of the scheduling cycle *)

(** X1: a cycle, however it ends, leaves the appointment list and the
    stored key pairs as they were. *)
Theorem cycle_keeps_appointments_and_keys (E : collaborators) (now : Z)
    (keyPairs : keyPairSet) (vpd : verifiedProviderData)
    (st : providerStore) (w : world) :
  let st' := (sendInvitations E now keyPairs vpd st w).1.2 in
  ps_appointments st' = ps_appointments st /\
  ps_keyPairs st' = ps_keyPairs st.
Proof.
  destruct (sendInvitations E now keyPairs vpd st w) as [[r st'] w'] eqn:Hrun.
  apply sendInvitations_spec in Hrun as (? & ? & _). by split.
Qed.

(** X2: the calls of a cycle that got the lock, the latest first: the
    unlock, then at most one submission, the calls of the token loop,
    the calls of the refill, at most one report of expired tokens (made
    whenever there are appointments and expired tokens), and the lock.
    Without a submission the token loop made no call. *)
Theorem cycle_call_order (E : collaborators) (now : Z)
    (keyPairs : keyPairSet) (vpd : verifiedProviderData)
    (st : providerStore) (w : world) :
  isOk (co_lock E (w_tick w) None) ->
  let run := sendInvitations E now keyPairs vpd st w in
  let expiredTokens := List.filter (expired now) (ps_tokens st) in
  exists returns refillCalls loopCalls submits,
    w_calls run.2 =
      CUnlock None :: submits ++ loopCalls ++ refillCalls ++ returns
        ++ CLock None :: w_calls w
    /\ (returns = [] \/
        returns = [CReturnTokens (map tok_token expiredTokens)])
    /\ (expiredTokens <> [] -> ps_appointments st <> [] -> returns <> [])
    /\ Forall isRefillCall refillCalls
    /\ Forall isLoopCall loopCalls
    /\ ((submits = [] /\ loopCalls = []) \/
        exists sds, submits = [CBulkStoreData sds])
    /\ (run.1.1 = Returned succeeded -> ps_appointments st <> [] ->
        submits <> []).
Proof.
  intros [u Hlock] run expiredTokens. unfold run, sendInvitations.
  rewrite Hlock.
  destruct (sendInvitationsLocked _ _ _ _ _ _) as [[r st1] w1] eqn:Hl.
  apply sendInvitationsLocked_calls in Hl
    as (returns & refillCalls & loopCalls & submits & Hw & Hret & Hrep
        & Hfr & Hfl & Hsub & _ & Hsucc).
  exists returns, refillCalls, loopCalls, submits. cbn [fst snd].
  split; [simpl; by rewrite Hw|].
  split; [destruct Hret as [?|(_ & _ & ?)]; [by left|by right]|].
  done.
Qed.

Lemma cycle_call_order_witness :
  let st := demoStore [demoAppointment (demoSlots 1)]
              [demoToken "A" (Some []) day; demoToken "B" (Some []) (-1)] in
  exists returns refillCalls loopCalls submits,
    w_calls (sendInvitations cooperative 0 demoKeys demoProvider st world0).2
    = CUnlock None :: submits ++ loopCalls ++ refillCalls ++ returns
        ++ [CLock None]
    /\ returns = [CReturnTokens [JStr "B"]]
    /\ Forall isRefillCall refillCalls
    /\ Forall isLoopCall loopCalls
    /\ exists sds, submits = [CBulkStoreData sds].
Proof.
  destruct (cycle_call_order cooperative 0 demoKeys demoProvider
              (demoStore [demoAppointment (demoSlots 1)]
                 [demoToken "A" (Some []) day; demoToken "B" (Some []) (-1)])
              world0)
    as (returns & refillCalls & loopCalls & submits & Hw & Hret & Hrep
        & Hfr & Hfl & Hsub & Hsucc).
  { by exists tt. }
  exists returns, refillCalls, loopCalls, submits.
  split; [exact Hw|]. split.
  { destruct Hret as [Hr|Hr]; [|exact Hr]. exfalso.
    apply Hrep; [discriminate|discriminate|exact Hr]. }
  split; [exact Hfr|]. split; [exact Hfl|].
  destruct Hsub as [[Hs _]|Hs]; [|exact Hs]. exfalso.
  apply Hsucc; [reflexivity|discriminate|exact Hs].
Defined.

Section Counts.

Lemma countOpenSlots_from (apps : list appointment) (n : nat) :
  fold_left (fun n ap => n + length (openSlotsOf ap)) apps n =
  n + countOpenSlots apps.
Proof.
  unfold countOpenSlots. revert n.
  induction apps as [|ap apps IH]; intros n; simpl; [lia|].
  rewrite IH, (IH (length _)). lia.
Qed.

Lemma countOpenSlots_app (apps more : list appointment) :
  countOpenSlots (apps ++ more) = countOpenSlots apps + countOpenSlots more.
Proof.
  unfold countOpenSlots at 1. rewrite fold_left_app.
  fold (countOpenSlots apps). apply countOpenSlots_from.
Qed.

(** The slot count of the refill is the number of open slots of the
    appointments on offer. *)
Lemma countOpenSlots_flat (apps : list appointment) :
  countOpenSlots apps
  = length (List.filter slot_open (concat (map ap_slotData apps))).
Proof.
  induction apps as [|ap apps IH]; [done|].
  change (ap :: apps) with ([ap] ++ apps).
  rewrite countOpenSlots_app, IH. cbn [app map concat].
  rewrite List.filter_app, length_app. by f_equal.
Qed.

(** [offerable] written out: both instants are dates, and the
    appointment is more than an hour ahead. *)
Lemma offerable_spec (now : Z) (oa : appointment) :
  offerable now oa
  = bool_decide (Z.abs (ap_timestamp oa) <= 8640000000000000 /\
                 Z.abs (now + 3600000) <= 8640000000000000 /\
                 now + 3600000 < ap_timestamp oa)%Z.
Proof.
  unfold offerable, validDate, maxDate, hour.
  apply eq_true_iff_eq.
  rewrite !andb_true_iff, !bool_decide_eq_true. lia.
Qed.

Lemma filter_offerable (now : Z) (apps : list appointment) :
  List.filter (offerable now) apps
  = List.filter (fun oa =>
      bool_decide (Z.abs (ap_timestamp oa) <= 8640000000000000 /\
                   Z.abs (now + 3600000) <= 8640000000000000 /\
                   now + 3600000 < ap_timestamp oa)%Z) apps.
Proof. apply List.filter_ext. intros oa. apply offerable_spec. Qed.

End Counts.

(** X3: a cycle that got the lock, has appointments and whose report of
    expired tokens did not fail asks the allocator exactly once, for
    n = max(0, 5 * open slots - live tokens), when n is positive and
    fewer than 1000 tokens are live, and never otherwise. The open
    slots are those of the appointments whose timestamp is a date (at
    most 8,640,000,000,000,000 ms from the epoch) more than an hour
    after the instant of the cycle; the live tokens are the stored ones
    that expire after that instant. *)
Theorem cycle_requests_deficit (E : collaborators) (now : Z)
    (keyPairs : keyPairSet) (vpd : verifiedProviderData)
    (st : providerStore) (w : world) :
  isOk (co_lock E (w_tick w) None) ->
  (forall k toks, isOk (co_returnTokens E k toks)) ->
  ps_appointments st <> [] ->
  let liveTokens :=
    length (List.filter (fun t => bool_decide (now < tok_expiresAt t)%Z)
              (ps_tokens st)) in
  let onOffer :=
    List.filter (fun oa =>
      bool_decide (Z.abs (ap_timestamp oa) <= 8640000000000000 /\
                   Z.abs (now + 3600000) <= 8640000000000000 /\
                   now + 3600000 < ap_timestamp oa)%Z) (ps_appointments st) in
  let openSlots :=
    length (List.filter slot_open (concat (map ap_slotData onOffer))) in
  let n := Z.max 0 (Z.of_nat openSlots * 5 - Z.of_nat liveTokens) in
  allocatorRequests (sendInvitations E now keyPairs vpd st w).2 =
    allocatorRequests w ++
    (if bool_decide (0 < n)%Z && (liveTokens <? 1000) then [n] else []).
Proof.
  intros Hlock Hret Hne liveTokens onOffer openSlots n.
  pose proof (sendInvitations_tagged E now keyPairs vpd st w Hret Hlock)
    as (o & Ho & _).
  destruct Hlock as [u Hlock].
  unfold sendInvitations in *. rewrite Hlock in *.
  destruct (sendInvitationsLocked _ _ _ _ _ _) as [[r st1] w1] eqn:Hl.
  simpl in Ho. subst r.
  apply sendInvitationsLocked_calls in Hl
    as (returns & refillCalls & loopCalls & submits & Hw & Hreturns & _
        & _ & Hfl & Hsub & Hreq & _).
  specialize (Hreq Hne ltac:(done)).
  rewrite countOpenSlots_flat, filter_offerable in Hreq.
  unfold allocatorRequests. cbn [snd emit w_calls]. rewrite Hw.
  rewrite omap_cons_None by done. rewrite !omap_app.
  rewrite (loopCalls_no_request _ Hfl), Hreq.
  assert (omap allocatorRequest submits = []) as ->.
  { destruct Hsub as [[-> _]|[sds ->]]; done. }
  assert (omap allocatorRequest returns = []) as ->.
  { destruct Hreturns as [->|(_ & _ & ->)]; done. }
  cbn [app emit w_calls]. rewrite omap_cons_None by done.
  rewrite rev_app_distr.
  change (refillCount _ _) with n.
  change (length (List.filter (live now) (ps_tokens st))) with liveTokens.
  change tokenCap with 1000.
  by destruct (_ && _).
Qed.

(** X3, witness: four open slots an appointment ahead, one live token
    and one expired: 19 tokens are asked for. *)
Lemma cycle_requests_deficit_witness :
  allocatorRequests
    (sendInvitations cooperative 0 demoKeys demoProvider
       (demoStore [demoAppointment (demoSlots 4)]
          [demoToken "A" (Some []) day; demoToken "B" (Some []) (-1)])
       world0).2
  = [19%Z].
Proof.
  apply (cycle_requests_deficit cooperative 0 demoKeys demoProvider
           (demoStore [demoAppointment (demoSlots 4)]
              [demoToken "A" (Some []) day; demoToken "B" (Some []) (-1)])
           world0).
  - by exists tt.
  - intros. by exists tt.
  - discriminate.
Defined.

Section Pool2.

Variable now : Z.
Variable keyPairs : keyPairSet.
Variable sel : list appointment.
Variable slotsById : gmap string slot.

Lemma withGrantID_sameIdentity g t : sameIdentity t (withGrantID g t).
Proof.
  unfold withGrantID, sameIdentity.
  destruct (tok_grantID t) eqn:Hg; simpl; repeat split; try done;
    intros; congruence.
Qed.

Lemma tokenPlan_sameIdentity g t :
  sameIdentity t (tokenPlan now keyPairs sel slotsById g t).1.
Proof.
  destruct (withGrantID_sameIdentity g t) as (A & B & C & D & F & G).
  unfold tokenPlan, updateSlots.
  destruct (filterSlotIDs _ _ _); simpl; repeat split; try done;
    intros; by apply G.
Qed.

Lemma tokenPlan_live g t :
  live now t = true \/ tok_slotIDs t = Some [] ->
  live now (tokenPlan now keyPairs sel slotsById g t).1 = true.
Proof.
  intros Ht. unfold tokenPlan, updateSlots.
  rewrite withGrantID_slotIDs, withGrantID_token.
  destruct (filterSlotIDs _ _ _) eqn:Hf; simpl.
  - apply bool_decide_eq_true. cbn [tok_expiresAt setExpiresAt setSlotIDs].
    unfold day. lia.
  - destruct Ht as [Ht|Ht]; [|by rewrite Ht in Hf].
    unfold live, withGrantID in *. by destruct (tok_grantID t).
Qed.

End Pool2.

Section Made.

Variable E : collaborators.
Variable now : Z.
Variable vpd : verifiedProviderData.
Variable decrypts : encryptedToken -> bool.

Lemma repeats_deref (objects : list token) (acc : list nat) ass :
  deref objects (repeats acc ass)
  = repeats (deref objects acc) (map (deref objects) ass).
Proof.
  revert acc. induction ass as [|a ass IH]; intros acc; [done|].
  cbn [repeats map]. by rewrite deref_app, IH, deref_app.
Qed.

Lemma decryptTokens_made (tokenList : list encryptedToken) :
  forall validTokens w valid',
    (decryptTokens E now vpd tokenList validTokens w).1 = Ok valid' ->
    exists d new,
      valid' = validTokens ++ new /\ sublist d tokenList /\
      ((forall k t pk, isOk (co_ecdhDecrypt E k (et_encryptedData t) pk)
                       <-> decrypts t = true) ->
       d = List.filter decrypts tokenList) /\
      Forall2 (fun et t => exists td kp g, t = newToken et td kp g now)
        d new.
Proof.
  induction tokenList as [|t rest IH]; intros valid w valid' H; simpl in H.
  - injection H as <-. exists [], []. by rewrite app_nil_r.
  - destruct (getQueuePrivateKey _ _) as [privateKey|e]; [|done].
    destruct (co_ecdhDecrypt _ _ _ _) as [td|e] eqn:Hd.
    + destruct (co_generateECDHKeyPair _ _) as [kp|e]; [|done].
      apply IH in H as (d & new & -> & Hsub & Hfil & Hall).
      eexists (t :: d), (_ :: new). rewrite <- app_assoc. cbn [app].
      split; [done|]. split; [by apply sublist_skip|]. split.
      * intros Hdec. simpl.
        assert (Ht : decrypts t = true).
        { apply (Hdec (w_tick w) t privateKey). rewrite Hd. by eexists. }
        rewrite Ht. f_equal. by apply Hfil.
      * constructor; [|done]. by eexists _, _, _.
    + apply IH in H as (d & new & -> & Hsub & Hfil & Hall).
      exists d, new. split; [done|]. split; [by apply sublist_cons|].
      split; [|done]. intros Hdec. simpl.
      assert (Ht : decrypts t = false).
      { destruct (decrypts t) eqn:Ht; [|done].
        apply (Hdec (w_tick w) t privateKey) in Ht as [? Hok]. congruence. }
      rewrite Ht. by apply Hfil.
Qed.

(** The addresses the lists add to the pool, read in a heap [pre ++ fin]
    whose part [fin] holds the new objects. *)
Lemma refillLists_made (newTokens : list (list encryptedToken)) :
  forall base refs validTokens w refs' valid',
    (refillLists E now vpd newTokens base refs validTokens w).1
      = Ok (refs', valid') ->
    exists os,
      valid' = validTokens ++ concat os /\
      Forall2 (fun l o => exists d, sublist d l /\
                 ((forall k t pk,
                     isOk (co_ecdhDecrypt E k (et_encryptedData t) pk)
                     <-> decrypts t = true) ->
                  d = List.filter decrypts l) /\
                 Forall2 (fun et t => exists td kp g,
                            t = newToken et td kp g now) d o)
        newTokens os /\
      forall pre fin,
        length pre = base -> length fin = length valid' ->
        exists os',
          drop (length validTokens) fin = concat os' /\
          map length os' = map length os /\
          deref (pre ++ fin) refs' =
            deref (pre ++ fin) refs
            ++ repeats (take (length validTokens) fin) os'.
Proof.
  induction newTokens as [|l rest IH];
    intros base refs valid w refs' valid' H; simpl in H.
  - injection H as <- <-. exists []. simpl. rewrite app_nil_r.
    split; [done|]. split; [constructor|]. intros pre fin _ Hfin.
    exists []. simpl. rewrite app_nil_r. split; [|done].
    by rewrite drop_ge by lia.
  - destruct (decryptTokens E now vpd l valid w) as [[valid1|e] w1] eqn:Hd;
      [|done].
    apply (f_equal fst) in Hd. simpl in Hd.
    apply decryptTokens_made in Hd as (d & new & -> & Hsub & Hfil & Hnew).
    apply IH in H as (os & -> & Hshape & Hread).
    exists (new :: os). simpl. rewrite <- app_assoc. split; [done|].
    split; [constructor; [by exists d|done]|].
    intros pre fin Hpre Hfin.
    destruct (Hread pre fin Hpre) as (os' & Hdrop & Hlens & Hderef).
    { by rewrite Hfin, <- app_assoc. }
    exists (take (length new) (drop (length valid) fin) :: os').
    rewrite !length_app in Hfin. rewrite length_app in Hdrop, Hderef.
    split; [|split].
    + simpl. rewrite <- Hdrop, <- drop_drop. by rewrite take_drop.
    + simpl. rewrite Hlens. f_equal. rewrite length_take, length_drop. lia.
    + rewrite Hderef, deref_app, <- app_assoc. f_equal.
      cbn [repeats]. rewrite take_take_drop.
      pose proof (deref_seq_from pre
        (take (length valid + length new) fin)
        (drop (length valid + length new) fin)) as Hs.
      rewrite take_drop, length_take, Hpre in Hs.
      rewrite Nat.min_l in Hs by lia.
      by rewrite Hs.
Qed.

Lemma refill_made openSlots (openTokens : list token) st w refs objects
    st1 w2 :
  refill E now vpd openSlots openTokens st w
    = (RefillDone refs objects, st1, w2) ->
  exists lists os,
    (let n := refillCount openSlots (length openTokens) in
     if bool_decide (0 < n)%Z && (length openTokens <? tokenCap)
     then co_getQueueTokens E (w_tick w) n = Ok (Some lists)
     else lists = []) /\
    objects = openTokens ++ concat os /\
    Forall2 (fun l o => exists d, sublist d l /\
               ((forall k t pk,
                   isOk (co_ecdhDecrypt E k (et_encryptedData t) pk)
                   <-> decrypts t = true) ->
                d = List.filter decrypts l) /\
               Forall2 (fun et t => exists td kp g,
                          t = newToken et td kp g now) d o)
      lists os /\
    forall pre fin,
      length pre = length openTokens -> length fin = length (concat os) ->
      exists os',
        fin = concat os' /\ map length os' = map length os /\
        deref (pre ++ fin) refs = pre ++ repeats [] os'.
Proof.
  unfold refill. cbv zeta. intros H.
  destruct (_ && _).
  2:{ injection H as <- <- <-. exists [], []. simpl. rewrite app_nil_r.
      split; [done|]. split; [done|]. split; [constructor|].
      intros pre fin Hpre Hfin. exists []. simpl.
      apply length_zero_iff_nil in Hfin as ->.
      rewrite !app_nil_r, <- Hpre. split; [done|]. split; [done|].
      rewrite <- (app_nil_r pre) at 1. apply deref_seq. }
  destruct (co_getQueueTokens _ _ _) as [[newTokens|]|e] eqn:Hq; [|done..].
  destruct (refillLists _ _ _ _ _ _ _ _) as [[[refs1 valid]|e] w3] eqn:Hr;
    [|done].
  injection H as <- <- <- <-.
  apply (f_equal fst) in Hr. simpl in Hr.
  apply refillLists_made in Hr as (os & -> & Hshape & Hread).
  exists newTokens, os. split; [done|]. split; [done|].
  split; [done|]. intros pre fin Hpre Hfin.
  destruct (Hread pre fin Hpre Hfin) as (os' & Hdrop & Hlens & Hderef).
  exists os'. simpl in Hdrop, Hderef. rewrite drop_0 in Hdrop.
  rewrite take_0 in Hderef.
  split; [done|]. split; [done|]. rewrite Hderef. f_equal.
  rewrite <- Hpre. apply deref_seq.
Qed.

End Made.

Lemma Forall2_concat_shape {A B : Type} (R : A -> B -> Prop)
    (ls : list (list A)) :
  forall ls' : list (list B),
    map length ls' = map length ls ->
    Forall2 R (concat ls) (concat ls') ->
    Forall2 (Forall2 R) ls ls'.
Proof.
  induction ls as [|l ls IH]; intros [|l' ls'] Hlen H; try done.
  simpl in Hlen, H. injection Hlen as Hl Hlen.
  apply Forall2_app_inv in H as [H1 H2]; [|done].
  constructor; [done|by apply IH].
Qed.

Lemma Forall2_chain {A B C : Type} (P : A -> B -> Prop) (Q : B -> C -> Prop)
    (S : A -> C -> Prop) (l : list A) (k : list B) (m : list C) :
  (forall x y z, P x y -> Q y z -> S x z) ->
  Forall2 P l k -> Forall2 Q k m -> Forall2 S l m.
Proof.
  intros H HP. revert m. induction HP; intros m HQ;
    inversion HQ; subst; constructor; eauto.
Qed.

Lemma sameIdentity_refl t : sameIdentity t t.
Proof. by repeat split. Qed.

Lemma sameIdentity_trans t1 t2 t3 :
  sameIdentity t1 t2 -> sameIdentity t2 t3 -> sameIdentity t1 t3.
Proof.
  intros (A1 & B1 & C1 & D1 & F1 & G1) (A2 & B2 & C2 & D2 & F2 & G2).
  repeat split; try congruence. intros g Hg. apply G2, G1, Hg.
Qed.

Lemma newToken_madeFrom et td kp g now t :
  sameIdentity (newToken et td kp g now) t -> madeFrom et t.
Proof.
  intros (A & B & C & _ & _ & G). repeat split; try done.
  exists g. by apply G.
Qed.

Lemma sendInvitations_succeeded (E : collaborators) (now : Z)
    (keyPairs : keyPairSet) (vpd : verifiedProviderData)
    (st : providerStore) (w : world) :
  let run := sendInvitations E now keyPairs vpd st w in
  let sel := selected now (ps_appointments st) in
  run.1.1 = Returned succeeded ->
  ps_appointments st <> [] ->
  exists w1 refs objects st1 w2 gs,
    w_tick w1 =
      S (w_tick w) +
      (if bool_decide
            (0 < length (List.filter (expired now) (ps_tokens st)))
       then 1 else 0) /\
    refill E now vpd
      (countOpenSlots (List.filter (offerable now) (ps_appointments st)))
      (List.filter (live now) (ps_tokens st)) st w1
      = (RefillDone refs objects, st1, w2) /\
    length gs = length refs /\
    ps_tokens run.1.2 =
      deref (planTokens now keyPairs sel (indexSlots sel) gs refs objects).1
        refs.
Proof.
  cbv zeta. unfold sendInvitations.
  destruct (co_lock _ _ _); [|done].
  unfold sendInvitationsLocked.
  case_bool_decide as Hempty.
  { intros _ Hne. by destruct (ps_appointments st). }
  intros Hrun _. revert Hrun.
  set (w0 := emit (CLock None) w).
  assert (Hw0 : w_tick w0 = S (w_tick w)) by done.
  match goal with |- context [if bool_decide ?c then ?a else ?b] =>
    assert (Ht : w_tick (if bool_decide c then a else b).2
                 = S (w_tick w) + (if bool_decide c then 1 else 0));
    [case_bool_decide; simpl; lia|];
    destruct (if bool_decide c then a else b) as [[[]|e] w1] end;
    [|done].
  simpl in Ht.
  destruct (refill _ _ _ _ _ _ _) as [[rf st1] w2] eqn:Hrf.
  destruct rf as [refs objects|oe]; [|by destruct oe].
  fold (selected now (ps_appointments st)).
  destruct (processTokens _ _ _ _ _ _ _ _ _ _) as [[objects2 sds] w3] eqn:Hp.
  apply processTokens_plan in Hp as (gs & Hlen & -> & _).
  intros Hrun. exists w1, refs, objects, st1, w2, gs.
  split; [done|]. split; [done|]. split; [done|].
  by destruct (co_bulkStoreData _ _ _).
Qed.

(** X4: after a cycle that succeeded on a non-empty appointment list, no
    token of the stored pool is expired. The pool starts with the live
    tokens of before, each with the secret, queue, data and keys it had
    and with its grant id if it had one. What follows comes from the
    token lists the allocator gave in this cycle, to the one request the
    cycle makes when more tokens are needed: of every list the tokens
    that were made of a sublist of it (of all its tokens that decrypt,
    when whether a token decrypts depends on the token only), and after
    each list all the tokens made so far once more, so that the tokens
    of an earlier list are in the pool once for every list from theirs
    on. Without a request nothing follows. *)
Theorem stored_pool_after_cycle (E : collaborators) (now : Z)
    (keyPairs : keyPairSet) (vpd : verifiedProviderData)
    (st : providerStore) (w : world) (decrypts : encryptedToken -> bool) :
  let run := sendInvitations E now keyPairs vpd st w in
  let stored := List.filter (live now) (ps_tokens st) in
  let asked :=
    S (w_tick w) +
    (if bool_decide (0 < length (List.filter (expired now) (ps_tokens st)))
     then 1 else 0) in
  let onOffer :=
    List.filter (fun oa =>
      bool_decide (Z.abs (ap_timestamp oa) <= 8640000000000000 /\
                   Z.abs (now + 3600000) <= 8640000000000000 /\
                   now + 3600000 < ap_timestamp oa)%Z) (ps_appointments st) in
  let openSlots :=
    length (List.filter slot_open (concat (map ap_slotData onOffer))) in
  let n := Z.max 0 (Z.of_nat openSlots * 5 - Z.of_nat (length stored)) in
  run.1.1 = Returned succeeded ->
  ps_appointments st <> [] ->
  Forall (fun t => live now t = true) (ps_tokens run.1.2) /\
  exists kept lists made,
    ps_tokens run.1.2 = kept ++ repeats [] made /\
    Forall2 sameIdentity stored kept /\
    (if bool_decide (0 < n)%Z && (length stored <? 1000)
     then co_getQueueTokens E asked n = Ok (Some lists)
     else lists = []) /\
    Forall2 (fun l from_l => exists d, sublist d l /\
               ((forall k t pk,
                   isOk (co_ecdhDecrypt E k (et_encryptedData t) pk)
                   <-> decrypts t = true) ->
                d = List.filter decrypts l) /\
               Forall2 madeFrom d from_l) lists made.
Proof.
  intros run stored asked onOffer openSlots n Hrun Hne.
  destruct (sendInvitations_succeeded E now keyPairs vpd st w Hrun Hne)
    as (w1 & refs & objects & st1 & w2 & gs & Htick & Hrf & Hlen & Htoks).
  fold run in Htoks. rewrite Htoks. fold stored in Hrf.
  apply (refill_made _ _ _ decrypts) in Hrf
    as (lists & os & Hask & -> & Hshape & Hread).
  cbv zeta in Hask.
  rewrite Htick, countOpenSlots_flat, filter_offerable in Hask.
  change (refillCount _ _) with n in Hask.
  change tokenCap with 1000 in Hask. fold asked in Hask.
  set (sel := selected now (ps_appointments st)) in *.
  pose proof (planTokens_Forall2 now keyPairs sel (indexSlots sel)
    sameIdentity sameIdentity_refl sameIdentity_trans
    (fun g t => tokenPlan_sameIdentity now keyPairs sel (indexSlots sel) g t)
    refs gs (stored ++ concat os)) as Hsame.
  assert (Hlive : Forall (fun t => live now t = true)
            (planTokens now keyPairs sel (indexSlots sel) gs refs
               (stored ++ concat os)).1).
  { apply planTokens_Forall.
    - intros g t Ht. apply tokenPlan_live. by left.
    - apply Forall_app. split.
      + apply Forall_forall. intros t Hin.
        by apply list_elem_of_In, filter_In in Hin as [_ Hin].
      + clear -Hshape.
        induction Hshape as [|l o ls os' (d & _ & _ & Hd) _ IH];
          [constructor|].
        simpl. apply Forall_app. split; [|done]. clear -Hd.
        induction Hd as [|et t d o (td & kp & g & ->) _ IH];
          constructor; [|done].
        apply bool_decide_eq_true. simpl. unfold day. lia. }
  apply (deref_Forall _ _ refs) in Hlive.
  apply Forall2_app_inv_l in Hsame as (kept & fin & Hkept & Hfin & Heq).
  rewrite Heq in *.
  destruct (Hread kept fin) as (made & -> & Hlens & Hpool).
  { symmetry. by eapply Forall2_length. }
  { symmetry. by eapply Forall2_length. }
  rewrite Hpool in *. split; [done|].
  exists kept, lists, made. split; [done|]. split; [done|]. split; [done|].
  apply Forall2_concat_shape in Hfin; [|done].
  eapply Forall2_chain; [|exact Hshape|exact Hfin].
  intros l o o' (d & Hsub & Hfil & Hd) Ho. exists d.
  split; [done|]. split; [done|].
  eapply Forall2_chain; [|exact Hd|exact Ho].
  intros et t t' (td & kp & g & ->) Ht. by eapply newToken_madeFrom.
Qed.

Lemma stored_pool_after_cycle_witness :
  let E := withAllocator
             (fun _ _ => Ok (Some [[demoEncryptedToken 0];
                                   [demoEncryptedToken 1]]))
             cooperative in
  let st := demoStore [demoAppointment (demoSlots 1)]
              [demoToken "A" (Some []) day; demoToken "B" (Some []) (-1)] in
  let run := sendInvitations E 0 demoKeys demoProvider st world0 in
  map tok_token (ps_tokens run.1.2)
    = [JStr "A"; JStr "t0"; JStr "t0"; JStr "t1"] /\
  (Forall (fun t => live 0 t = true) (ps_tokens run.1.2) /\
   exists kept lists made,
     ps_tokens run.1.2 = kept ++ repeats [] made /\
     Forall2 sameIdentity (List.filter (live 0) (ps_tokens st)) kept /\
     co_getQueueTokens E 2 4 = Ok (Some lists) /\
     Forall2 (fun l from_l => exists d, sublist d l /\
                ((forall k t pk,
                    isOk (co_ecdhDecrypt E k (et_encryptedData t) pk)
                    <-> true = true) ->
                 d = List.filter (fun _ => true) l) /\
                Forall2 madeFrom d from_l) lists made).
Proof.
  split; [reflexivity|].
  apply (stored_pool_after_cycle
           (withAllocator
              (fun _ _ => Ok (Some [[demoEncryptedToken 0];
                                    [demoEncryptedToken 1]]))
              cooperative)
           0 demoKeys demoProvider
           (demoStore [demoAppointment (demoSlots 1)]
              [demoToken "A" (Some []) day; demoToken "B" (Some []) (-1)])
           world0 (fun _ => true)).
  - reflexivity.
  - discriminate.
Defined.

Section IndexKeys.







End IndexKeys.



Section Distinct.

Lemma addFromAppointment_NoDup (cands : list slot) :
  forall ids added,
    "" ∉ map slot_id cands -> NoDup ids ->
    NoDup (addFromAppointment cands ids added).1.1.
Proof.
  induction cands as [|sl rest IH]; intros ids added Hne Hnd; [done|].
  rewrite addFromAppointment_cons. cbn [map] in Hne.
  apply not_elem_of_cons in Hne as [Hsl Hne].
  destruct (notFound ids (slot_id sl)) eqn:Hnf.
  - apply notFound_spec in Hnf as [Hnf|Hnf]; [|congruence].
    assert (Hnd' : NoDup (ids ++ [slot_id sl])).
    { apply NoDup_app. repeat split; [done| |apply NoDup_singleton].
      intros x Hx ->%list_elem_of_singleton. done. }
    destruct (slotCap <=? _); [done|]. by apply IH.
  - destruct (slotCap <=? _); [done|]. by apply IH.
Qed.

Lemma addPass_NoDup (sel : list appointment) :
  forall ids added,
    "" ∉ candidates sel -> NoDup ids -> NoDup (addPass sel ids added).1.1.
Proof.
  induction sel as [|oa rest IH]; intros ids added Hne Hnd; [done|].
  simpl. unfold candidates in Hne. simpl in Hne.
  apply not_elem_of_app in Hne as [Hoa Hne].
  pose proof (addFromAppointment_NoDup (take 3 (openSlotsOf oa)) ids added
                Hoa Hnd) as H1.
  destruct (addFromAppointment _ ids added) as [[ids1 added1] brk].
  destruct brk; [done|]. by apply IH.
Qed.

Lemma addSlotsLoop_NoDup (sel : list appointment) fuel :
  forall ids r,
    "" ∉ candidates sel -> NoDup ids ->
    addSlotsLoop fuel sel ids = Some r -> NoDup r.
Proof.
  induction fuel as [|fuel IH]; intros ids r Hne Hnd H; [done|].
  rewrite addSlotsLoop_S in H.
  destruct (length ids <? slotCap); [|by injection H as <-].
  pose proof (addPass_NoDup sel ids 0 Hne Hnd) as Hp.
  destruct (addPass sel ids 0) as [[ids1 added] brk]. simpl in Hp.
  destruct brk; [by injection H as <-|].
  destruct (added =? 0); [by injection H as <-|]. by eapply IH.
Qed.

Lemma filterSlotIDs_sublist slotsById tok (ids : list string) :
  forall r, filterSlotIDs slotsById tok ids = Ok r -> sublist r ids.
Proof.
  induction ids as [|id rest IH]; intros r H.
  - injection H as <-. constructor.
  - rewrite filterSlotIDs_cons in H.
    destruct (keepSlotID slotsById tok id) as [keep|]; [|done].
    destruct (filterSlotIDs slotsById tok rest) as [rest'|]; [|done].
    injection H as <-. destruct keep.
    + apply sublist_skip. by apply IH.
    + apply sublist_cons. by apply IH.
Qed.

End Distinct.

(** X6: a token whose slot ids are pairwise distinct keeps them so
    through the filter and the top-up, as long as no candidate slot has
    the empty id. *)
Theorem slot_ids_stay_distinct (now : Z) (sel : list appointment)
    (slotsById : gmap string slot) (tok tok' : token) :
  "" ∉ candidates sel ->
  NoDup (default [] (tok_slotIDs tok)) ->
  updateSlots now sel slotsById tok = Ok tok' ->
  NoDup (default [] (tok_slotIDs tok')).
Proof.
  intros Hne Hnd. unfold updateSlots.
  destruct (filterSlotIDs _ _ _) as [ids1|] eqn:Hf; [|done].
  intros [= <-]. cbn [tok_slotIDs setExpiresAt setSlotIDs default].
  simpl. eapply addSlotsLoop_NoDup; [done| |by apply addSlots_loop].
  eapply sublist_NoDup; [exact Hnd|]. by eapply filterSlotIDs_sublist.
Qed.

Lemma slot_ids_stay_distinct_witness :
  exists tok',
    updateSlots 0 [demoAppointment (demoSlots 4)]
      (indexSlots [demoAppointment (demoSlots 4)])
      (demoToken "A" (Some ["s1"; "gone"]) day) = Ok tok' /\
    NoDup (default [] (tok_slotIDs tok')).
Proof.
  eexists. split; [reflexivity|].
  apply (slot_ids_stay_distinct 0 [demoAppointment (demoSlots 4)]
           (indexSlots [demoAppointment (demoSlots 4)])
           (demoToken "A" (Some ["s1"; "gone"]) day)).
  - apply (bool_decide_unpack _). by vm_compute.
  - apply (bool_decide_unpack _). by vm_compute.
  - reflexivity.
Defined.

(** X7: the index is a plain object, so an id that names no slot of it
    but a property every object inherits ([constructor], [toString],
    ...) finds a value that is no slot. For a token whose secret is not
    a boolean, the filter keeps exactly the ids that have a slot in the
    index, whether the slot is open or not; and it throws a TypeError
    exactly when one of the ids belongs to a closed slot that has no
    token or is such an inherited name. *)
Theorem filter_keeps_existing_slots (slotsById : gmap string slot)
    (tok : jsval) (ids : list string) :
  (forall b, tok <> JBool b) ->
  slotsById !! "__proto__" = None ->
  match filterSlotIDs slotsById tok ids with
  | Ok r =>
      r = List.filter (fun id => bool_decide (is_Some (slotsById !! id))) ids
      /\ (forall id sl, id ∈ ids -> slotsById !! id = Some sl ->
            slot_open sl = true \/ is_Some (slot_token sl))
      /\ (forall id, id ∈ ids -> slotsById !! id = None ->
            id ∉ objectPrototypeNames)
  | Err e =>
      e = TypeError /\
      ((exists id sl, id ∈ ids /\ slotsById !! id = Some sl /\
                      slot_open sl = false /\ slot_token sl = None) \/
       (exists id, id ∈ ids /\ slotsById !! id = None /\
                   id ∈ objectPrototypeNames))
  end.
Proof.
  intros Hb _. induction ids as [|id rest IH].
  - simpl. split; [done|].
    split; [by intros ? ? ?%elem_of_nil|by intros ? ?%elem_of_nil].
  - rewrite filterSlotIDs_cons.
    assert (Hrest : forall e, filterSlotIDs slotsById tok rest = Err e ->
      e = TypeError /\
      ((exists id' sl, id' ∈ id :: rest /\ slotsById !! id' = Some sl /\
                       slot_open sl = false /\ slot_token sl = None) \/
       (exists id', id' ∈ id :: rest /\ slotsById !! id' = None /\
                    id' ∈ objectPrototypeNames))).
    { intros e He. rewrite He in IH. destruct IH as [-> IH].
      split; [done|].
      destruct IH as [(id' & sl' & ? & ? & ? & ?)|(id' & ? & ? & ?)].
      - left. exists id', sl'. split_and!; try done.
        by apply list_elem_of_further.
      - right. exists id'. split_and!; try done.
        by apply list_elem_of_further. }
    unfold keepSlotID at 1.
    destruct (slotsById !! id) as [sl|] eqn:Hsl.
    + assert (Hin : bool_decide (is_Some (slotsById !! id)) = true).
      { apply bool_decide_eq_true. by rewrite Hsl. }
      assert (Hkept : forall r,
        filterSlotIDs slotsById tok rest = Ok r ->
        slot_open sl = true \/ is_Some (slot_token sl) ->
        id :: r = List.filter
                    (fun id => bool_decide (is_Some (slotsById !! id)))
                    (id :: rest)
        /\ (forall id' sl', id' ∈ id :: rest ->
              slotsById !! id' = Some sl' ->
              slot_open sl' = true \/ is_Some (slot_token sl'))
        /\ (forall id', id' ∈ id :: rest -> slotsById !! id' = None ->
              id' ∉ objectPrototypeNames)).
      { intros r Hr Hok. rewrite Hr in IH. destruct IH as (-> & IH1 & IH2).
        simpl. rewrite Hin. split; [done|]. split.
        - intros id' sl' [->|Hin']%elem_of_cons Hl.
          + rewrite Hsl in Hl. by injection Hl as <-.
          + by eapply IH1.
        - intros id' [->|Hin']%elem_of_cons Hl; [congruence|].
          by apply IH2. }
      destruct (slot_open sl) eqn:Hopen.
      * destruct (filterSlotIDs slotsById tok rest) as [r|e] eqn:Hf.
        -- apply Hkept; [done|by left].
        -- by apply Hrest.
      * destruct (slot_token sl) as [st|] eqn:Htok.
        -- assert (Hkeep : negb (strict_eq (js_not st) tok) = true).
           { destruct tok; try done. by destruct (Hb b). }
           rewrite Hkeep.
           destruct (filterSlotIDs slotsById tok rest) as [r|e] eqn:Hf.
           ++ apply Hkept; [done|]. right. by eexists.
           ++ by apply Hrest.
        -- split; [done|]. left. exists id, sl. split_and!; try done.
           apply list_elem_of_here.
    + assert (Hin : bool_decide (is_Some (slotsById !! id)) = false).
      { apply bool_decide_eq_false. rewrite Hsl. by intros [? ?]. }
      destruct (bool_decide (id ∈ objectPrototypeNames)) eqn:Hname.
      * apply bool_decide_eq_true in Hname.
        split; [done|]. right. exists id.
        split_and!; try done. apply list_elem_of_here.
      * apply bool_decide_eq_false in Hname.
        destruct (filterSlotIDs slotsById tok rest) as [r|e] eqn:Hf.
        -- destruct IH as (-> & IH1 & IH2). simpl. rewrite Hin.
           split; [done|]. split.
           ++ intros id' sl' [->|Hin']%elem_of_cons Hl; [congruence|].
              by eapply IH1.
           ++ intros id' [->|Hin']%elem_of_cons Hl; [done|]. by apply IH2.
        -- by apply Hrest.
Qed.

Lemma filter_keeps_existing_slots_witness :
  filterSlotIDs
    (indexSlots [demoAppointment [takenSlot "s1" "B"; openSlot "s2"]])
    (JStr "A") ["gone"; "s1"; "s2"] = Ok ["s1"; "s2"].
Proof.
  pose proof (filter_keeps_existing_slots
    (indexSlots [demoAppointment [takenSlot "s1" "B"; openSlot "s2"]])
    (JStr "A") ["gone"; "s1"; "s2"]) as H.
  destruct (filterSlotIDs _ _ _) as [r|e] eqn:Hf.
  - destruct H as [-> _]; [done|reflexivity|]. reflexivity.
  - exfalso. vm_compute in Hf. discriminate.
Defined.

(** ** Further properties of the refill *)

(** X8: as long as the key lookup and the key generation do not fail, a
    list of encrypted tokens is always worked through to its end. With a
    decryption whose success depends on the token only, the tokens
    appended are those of the tokens of the list that decrypt, all of
    them and in the order of the list: a token that does not decrypt is
    left out and the loop goes on with the next. Each new token has the
    secret, queue and encrypted data of its encrypted token, a grant
    id, no slot yet and a day to live. *)
Theorem undecryptable_tokens_are_skipped (E : collaborators) (now : Z)
    (vpd : verifiedProviderData) (tokenList : list encryptedToken)
    (validTokens : list token) (w : world)
    (decrypts : encryptedToken -> bool) :
  (forall q, isOk (getQueuePrivateKey q (vp_queuePrivateKeys vpd))) ->
  (forall k, isOk (co_generateECDHKeyPair E k)) ->
  (forall k t pk, isOk (co_ecdhDecrypt E k (et_encryptedData t) pk)
                  <-> decrypts t = true) ->
  exists new,
    (decryptTokens E now vpd tokenList validTokens w).1
      = Ok (validTokens ++ new) /\
    Forall2 (fun t tok =>
               tok_token tok = et_token t /\
               tok_queue tok = et_queue t /\
               tok_encryptedData tok = et_encryptedData t /\
               tok_slotIDs tok = Some [] /\
               is_Some (tok_grantID tok) /\
               tok_expiresAt tok = (now + day)%Z)
      (List.filter decrypts tokenList) new.
Proof.
  intros Hkey Hgen Hdec. revert validTokens w.
  induction tokenList as [|t rest IH]; intros valid w; simpl.
  - exists []. rewrite app_nil_r. split; [done|constructor].
  - destruct (Hkey (et_queue t)) as [pk ->].
    destruct (co_ecdhDecrypt E (w_tick w) (et_encryptedData t) pk)
      as [d|e] eqn:Hd.
    + assert (Ht : decrypts t = true).
      { apply (Hdec (w_tick w) t pk). rewrite Hd. by eexists. }
      rewrite Ht.
      match goal with |- context [co_generateECDHKeyPair E ?k] =>
        destruct (Hgen k) as [kp ->] end.
      match goal with |- context [decryptTokens E now vpd rest ?v ?w1] =>
        destruct (IH v w1) as (new & -> & Hall) end.
      eexists (_ :: new). rewrite <- app_assoc. cbn [app].
      split; [done|]. constructor; [|done]. simpl. by split_and!.
    + assert (Ht : decrypts t = false).
      { destruct (decrypts t) eqn:Ht; [|done].
        apply (Hdec (w_tick w) t pk) in Ht as [? Hok]. congruence. }
      rewrite Ht.
      destruct (IH valid (emit (CEcdhDecrypt (et_encryptedData t) pk) w))
        as (new & -> & Hall).
      by exists new.
Qed.

Lemma undecryptable_tokens_are_skipped_witness :
  let E := {| co_lock := co_lock cooperative;
              co_returnTokens := co_returnTokens cooperative;
              co_getQueueTokens := co_getQueueTokens cooperative;
              co_ecdhDecrypt := fun _ d _ =>
                if bool_decide (ed_data d = "1") then Err TypeError
                else Ok {| td_id := ed_data d; td_publicKey := "user" |};
              co_generateECDHKeyPair := co_generateECDHKeyPair cooperative;
              co_generateECDSAKeyPair := co_generateECDSAKeyPair cooperative;
              co_generateSymmetricKey := co_generateSymmetricKey cooperative;
              co_randomBytes := co_randomBytes cooperative;
              co_sign := co_sign cooperative;
              co_ecdhEncrypt := co_ecdhEncrypt cooperative;
              co_bulkStoreData := co_bulkStoreData cooperative;
              co_ephemeralECDHEncrypt := co_ephemeralECDHEncrypt cooperative;
              co_bookSlot := co_bookSlot cooperative;
              co_toString := co_toString cooperative |} in
  exists new,
    (decryptTokens E 0
       {| vp_signedData := "provider"; vp_queuePrivateKeys := [] |}
       (map demoEncryptedToken [0; 1; 2]) [] world0).1 = Ok ([] ++ new) /\
    map tok_token new = [JStr "t0"; JStr "t2"].
Proof.
  intros E.
  destruct (undecryptable_tokens_are_skipped E 0
              {| vp_signedData := "provider"; vp_queuePrivateKeys := [] |}
              (map demoEncryptedToken [0; 1; 2]) [] world0
              (fun t => negb (bool_decide
                                (ed_data (et_encryptedData t) = "1"))))
    as (new & Hnew & _).
  - intros q. by exists None.
  - intros k. by eexists.
  - intros k t pk. simpl. case_bool_decide; simpl.
    + split; [by intros [? ?]|done].
    + split; [done|]. intros _. by eexists.
  - exists new. split; [exact Hnew|].
    vm_compute in Hnew. injection Hnew as <-. reflexivity.
Defined.

(** X9: when the allocator is asked and gives no token list ([null], or
    an exception), the cycle returns failed and the store is left as it
    was: the expired tokens, reported a moment before, are still in
    it. *)
Theorem allocator_failure_leaves_store (E : collaborators) (now : Z)
    (keyPairs : keyPairSet) (vpd : verifiedProviderData)
    (st : providerStore) (w : world) :
  isOk (co_lock E (w_tick w) None) ->
  (forall k toks, isOk (co_returnTokens E k toks)) ->
  ps_appointments st <> [] ->
  let liveTokens := length (List.filter (live now) (ps_tokens st)) in
  let openSlots :=
    countOpenSlots (List.filter (offerable now) (ps_appointments st)) in
  (Z.of_nat liveTokens < Z.of_nat openSlots * 5)%Z ->
  liveTokens < tokenCap ->
  (forall k n l, co_getQueueTokens E k n <> Ok (Some l)) ->
  let run := sendInvitations E now keyPairs vpd st w in
  tagged run.1.1 [Failed] /\ run.1.2 = st.
Proof.
  intros [u Hlock] Hret Hne liveTokens openSlots Hdef Hcap Hnone run.
  unfold run, sendInvitations. rewrite Hlock.
  unfold sendInvitationsLocked.
  rewrite bool_decide_eq_false_2.
  2:{ intros H0. by apply length_zero_iff_nil in H0. }
  match goal with |- context [if bool_decide ?c then ?a else ?b] =>
    assert (Hr : exists w1, (if bool_decide c then a else b) = (Ok tt, w1));
    [|destruct Hr as [w1 ->]] end.
  { case_bool_decide; [|by eexists].
    match goal with |- context [co_returnTokens E ?k ?l] =>
      destruct (Hret k l) as [[] ->] end. by eexists. }
  unfold refill. fold liveTokens openSlots.
  rewrite bool_decide_eq_true_2.
  2:{ unfold refillCount, overbookingFactor. lia. }
  apply Nat.ltb_lt in Hcap. rewrite Hcap. cbn [andb].
  destruct (co_getQueueTokens _ _ _) as [[l|]|e] eqn:Ha.
  - by apply Hnone in Ha.
  - cbn [fst snd]. split; [|done]. exists failed. split; [done|].
    apply list_elem_of_here.
  - cbn [fst snd]. split; [|done]. exists (failedWith e). split; [done|].
    apply list_elem_of_here.
Qed.

Lemma allocator_failure_leaves_store_witness :
  let E := withAllocator (fun _ _ => Ok None) cooperative in
  let st := demoStore [demoAppointment (demoSlots 1)]
              [demoToken "B" (Some []) (-1)] in
  let run := sendInvitations E 0 demoKeys demoProvider st world0 in
  tagged run.1.1 [Failed] /\ run.1.2 = st.
Proof.
  apply (allocator_failure_leaves_store
           (withAllocator (fun _ _ => Ok None) cooperative) 0 demoKeys
           demoProvider
           (demoStore [demoAppointment (demoSlots 1)]
              [demoToken "B" (Some []) (-1)]) world0).
  - by exists tt.
  - intros. by exists tt.
  - discriminate.
  - vm_compute. reflexivity.
  - vm_compute. lia.
  - intros k n l. discriminate.
Defined.

Section Accumulate.

Variable E : collaborators.
Variable now : Z.
Variable vpd : verifiedProviderData.
Hypothesis keys_ok :
  forall q, isOk (getQueuePrivateKey q (vp_queuePrivateKeys vpd)).
Hypothesis decrypt_ok : forall k d pk, isOk (co_ecdhDecrypt E k d pk).
Hypothesis generate_ok : forall k, isOk (co_generateECDHKeyPair E k).

Lemma decryptTokens_all (tokenList : list encryptedToken) :
  forall validTokens w, exists new,
    (decryptTokens E now vpd tokenList validTokens w).1
      = Ok (validTokens ++ new) /\
    length new = length tokenList.
Proof.
  induction tokenList as [|t rest IH]; intros valid w; simpl.
  - exists []. by rewrite app_nil_r.
  - destruct (keys_ok (et_queue t)) as [pk ->].
    destruct (decrypt_ok (w_tick w) (et_encryptedData t) pk) as [d ->].
    match goal with |- context [co_generateECDHKeyPair E ?k] =>
      destruct (generate_ok k) as [kp ->] end.
    match goal with |- context [decryptTokens E now vpd rest ?v ?w1] =>
      destruct (IH v w1) as (new & -> & Hlen) end.
    eexists (_ :: new). rewrite <- app_assoc. split; [done|]. simpl. lia.
Qed.

Lemma refillLists_all (newTokens : list (list encryptedToken)) :
  forall base openTokens validTokens w, exists refs valid,
    (refillLists E now vpd newTokens base openTokens validTokens w).1
      = Ok (refs, valid) /\
    length refs = length openTokens
                  + length validTokens * length newTokens
                  + weighted newTokens.
Proof.
  induction newTokens as [|l rest IH]; intros base openTokens valid w; simpl.
  - exists openTokens, valid. split; [done|]. lia.
  - destruct (decryptTokens_all l valid w) as (new & Hd & Hlen).
    destruct (decryptTokens E now vpd l valid w) as [r w1].
    simpl in Hd. subst r.
    destruct (IH base (openTokens ++ seq base (length (valid ++ new)))
                (valid ++ new) w1) as (refs & valid' & -> & Hrefs).
    exists refs, valid'. split; [done|].
    rewrite Hrefs, !length_app, length_seq, Hlen. nia.
Qed.

End Accumulate.

(** X10: when every token decrypts, the pool after the lists of one
    answer holds the tokens of each list once for the list itself and
    once more for every list after it: the valid tokens are not reset
    between the lists, and all of them are appended after each. *)
Theorem token_lists_accumulate (E : collaborators) (now : Z)
    (vpd : verifiedProviderData) (newTokens : list (list encryptedToken))
    (openTokens : list token) (w : world) :
  (forall q, isOk (getQueuePrivateKey q (vp_queuePrivateKeys vpd))) ->
  (forall k d pk, isOk (co_ecdhDecrypt E k d pk)) ->
  (forall k, isOk (co_generateECDHKeyPair E k)) ->
  exists refs valid,
    (refillLists E now vpd newTokens (length openTokens)
       (seq 0 (length openTokens)) [] w).1 = Ok (refs, valid) /\
    length (deref (openTokens ++ valid) refs)
      = length openTokens + weighted newTokens.
Proof.
  intros Hk Hd Hg.
  destruct (refillLists_all E now vpd Hk Hd Hg newTokens (length openTokens)
              (seq 0 (length openTokens)) [] w)
    as (refs & valid & Heq & Hlen).
  exists refs, valid. split; [done|].
  rewrite length_seq in Hlen. simpl in Hlen.
  rewrite length_deref; [lia|].
  destruct (refillLists E now vpd newTokens (length openTokens)
              (seq 0 (length openTokens)) [] w) as [r w'] eqn:Hr.
  simpl in Heq. subst r.
  apply refillLists_spec in Hr as [_ Hr].
  destruct (Hr _ _ eq_refl) as (extra & new & -> & -> & Hex & _).
  rewrite length_app. apply Forall_app. split.
  - apply Forall_forall. intros a Ha%elem_of_seq. lia.
  - eapply Forall_impl; [exact Hex|]. intros a Ha. simpl in *. lia.
Qed.

Lemma token_lists_accumulate_witness :
  exists refs valid,
    (refillLists cooperative 0 demoProvider
       [map demoEncryptedToken [0; 1]; map demoEncryptedToken [2]]
       1 [0] [] world0).1 = Ok (refs, valid) /\
    length (deref ([demoToken "A" (Some []) day] ++ valid) refs)
      = 1 + (2 * 2 + 1) /\
    map tok_token (deref ([demoToken "A" (Some []) day] ++ valid) refs) =
      [JStr "A"; JStr "t0"; JStr "t1"; JStr "t0"; JStr "t1"; JStr "t2"].
Proof.
  destruct (token_lists_accumulate cooperative 0 demoProvider
              [map demoEncryptedToken [0; 1]; map demoEncryptedToken [2]]
              [demoToken "A" (Some []) day] world0)
    as (refs & valid & Heq & Hlen).
  - intros q. unfold demoProvider. simpl. case_bool_decide; by eexists.
  - intros. by eexists.
  - intros. by eexists.
  - exists refs, valid. split; [exact Heq|]. split; [exact Hlen|].
    vm_compute in Heq. injection Heq as <- <-. reflexivity.
Defined.


(** ** Offers and envelopes *)

Section Offers.

Variable bySlot : gmap string appointment.

Lemma addToOffers_ids oa sl g (offers : list offer) :
  map of_id (addToOffers oa sl g offers) =
  if bool_decide (ap_id oa ∈ map of_id offers) then map of_id offers
  else map of_id offers ++ [ap_id oa].
Proof.
  induction offers as [|o rest IH].
  - cbn [addToOffers map app].
    rewrite bool_decide_eq_false_2; [done|apply not_elem_of_nil].
  - cbn [addToOffers]. destruct (decide (of_id o = ap_id oa)) as [Ho|Ho].
    + rewrite (bool_decide_eq_true_2 _ Ho).
      rewrite bool_decide_eq_true_2; [done|]. rewrite <- Ho.
      apply list_elem_of_here.
    + rewrite (bool_decide_eq_false_2 _ Ho). cbn [map]. rewrite IH.
      destruct (decide (ap_id oa ∈ map of_id rest)) as [Hin|Hin].
      * rewrite (bool_decide_eq_true_2 _ Hin).
        rewrite bool_decide_eq_true_2; [done|].
        by apply list_elem_of_further.
      * rewrite (bool_decide_eq_false_2 _ Hin).
        rewrite bool_decide_eq_false_2; [done|].
        intros [?|?]%elem_of_cons; [congruence|done].
Qed.

Lemma addToOffers_ok oa sl g (offers : list offer) :
  bySlot !! slot_id sl = Some oa ->
  offersOk bySlot offers -> offersOk bySlot (addToOffers oa sl g offers).
Proof.
  intros Hsl [Hnd Hf]. split.
  - rewrite addToOffers_ids. case_bool_decide as Hin; [done|].
    apply NoDup_app. repeat split; [done| |apply NoDup_singleton].
    intros x Hx ->%list_elem_of_singleton. done.
  - clear Hnd. induction Hf as [|o rest [Hlen Ho] Hrest IH].
    + cbn [addToOffers]. constructor; [|constructor].
      cbn [of_grants of_slotData]. split; [done|].
      constructor; [|constructor]. by exists oa.
    + cbn [addToOffers]. destruct (decide (of_id o = ap_id oa)) as [Hid|Hid].
      * rewrite (bool_decide_eq_true_2 _ Hid). constructor; [|done].
        cbn [of_grants of_slotData]. split.
        -- rewrite !length_app. simpl. lia.
        -- apply Forall_app. split; [done|].
           constructor; [|constructor]. exists oa. split; [done|].
           by rewrite <- Hid.
      * rewrite (bool_decide_eq_false_2 _ Hid). by constructor.
Qed.

Lemma addToOffers_slots oa sl g (offers : list offer) :
  concat (map of_slotData (addToOffers oa sl g offers))
    ≡ₚ concat (map of_slotData offers) ++ [sl] /\
  concat (map of_grants (addToOffers oa sl g offers))
    ≡ₚ concat (map of_grants offers) ++ [g].
Proof.
  induction offers as [|o rest [IH1 IH2]]; simpl; [done|].
  case_bool_decide; simpl.
  - split.
    + rewrite <- !app_assoc. apply Permutation_app_head.
      apply Permutation_app_comm.
    + rewrite <- !app_assoc. apply Permutation_app_head.
      apply Permutation_app_comm.
  - split.
    + rewrite IH1. by rewrite app_assoc.
    + rewrite IH2. by rewrite app_assoc.
Qed.

Lemma groupOffers_ok (slots : list slot) :
  forall grantsData offers offers',
    length grantsData = length slots ->
    offersOk bySlot offers ->
    groupOffers bySlot slots grantsData offers = Ok offers' ->
    offersOk bySlot offers' /\
    concat (map of_slotData offers')
      ≡ₚ concat (map of_slotData offers) ++ slots /\
    concat (map of_grants offers')
      ≡ₚ concat (map of_grants offers) ++ grantsData.
Proof.
  induction slots as [|sl slots IH]; intros grants offers offers' Hlen Hok H.
  - destruct grants; [|done]. simpl in H. injection H as <-.
    by rewrite !app_nil_r.
  - destruct grants as [|g grants]; [done|]. simpl in H.
    destruct (bySlot !! slot_id sl) as [oa|] eqn:Hsl; [|done].
    destruct (bool_decide (ap_id oa ∈ objectPrototypeNames)); [done|].
    apply IH in H as (Hok' & Hs & Hg).
    + split; [done|].
      destruct (addToOffers_slots oa sl g offers) as [Hs1 Hg1].
      split.
      * rewrite Hs, Hs1. by rewrite <- app_assoc.
      * rewrite Hg, Hg1. by rewrite <- app_assoc.
    + simpl in Hlen. lia.
    + by apply addToOffers_ok.
Qed.

End Offers.

(** X12: the offers made of a token's slots and their grant signatures:
    one offer per appointment id, with as many grants as slots; every
    slot and every signature is in exactly one offer, and each slot is
    in the offer of the appointment the index gives for it. *)
Theorem offers_group_slots_by_appointment
    (bySlot : gmap string appointment) (slots : list slot)
    (grantsData : list string) (offers : list offer) :
  length grantsData = length slots ->
  groupOffers bySlot slots grantsData [] = Ok offers ->
  NoDup (map of_id offers) /\
  Forall (fun o =>
    length (of_grants o) = length (of_slotData o) /\
    Forall (fun sl => exists oa, bySlot !! slot_id sl = Some oa /\
                                 ap_id oa = of_id o) (of_slotData o))
    offers /\
  concat (map of_slotData offers) ≡ₚ slots /\
  concat (map of_grants offers) ≡ₚ grantsData.
Proof.
  intros Hlen H.
  apply groupOffers_ok in H as ([Hnd Hf] & Hs & Hg); [done|done|].
  split; [apply NoDup_nil_2|constructor].
Qed.

Lemma offers_group_slots_by_appointment_witness :
  let a1 := demoAppointment [openSlot "s1"; openSlot "s3"] in
  let a2 := {| ap_id := "b"; ap_status := "status"; ap_cancel := "cancel";
               ap_timestamp := (100 * hour)%Z; ap_publicKey := "apk";
               ap_slotData := [openSlot "s2"] |} in
  exists offers,
    groupOffers (indexAppointmentsBySlot [a1; a2])
      [openSlot "s1"; openSlot "s2"; openSlot "s3"] ["g1"; "g2"; "g3"] []
    = Ok offers /\
    map of_id offers = ["a"; "b"] /\
    map of_grants offers = [["g1"; "g3"]; ["g2"]] /\
    concat (map of_slotData offers)
      ≡ₚ [openSlot "s1"; openSlot "s2"; openSlot "s3"].
Proof.
  intros a1 a2. eexists. split; [by vm_compute|].
  split; [reflexivity|]. split; [reflexivity|].
  refine (proj1 (proj2 (proj2 (offers_group_slots_by_appointment
    (indexAppointmentsBySlot [a1; a2])
    [openSlot "s1"; openSlot "s2"; openSlot "s3"] ["g1"; "g2"; "g3"]
    _ _ _)))).
  - reflexivity.
  - by vm_compute.
Defined.

Section Envelopes.








Variable E : collaborators.
Variable now : Z.
Variable keyPairs : keyPairSet.
Variable vpd : verifiedProviderData.
Variable sel : list appointment.











End Envelopes.

(** A token object that is in the pool twice, evaluated: the id [s]
    belongs to an open slot of the first appointment and to a closed
    slot without a token of the second, the one the index holds. The
    first visit of the token adds [s] to its list and files an envelope;
    the second visit finds [s] in the list, the filter throws, and no
    envelope is filed. *)
Lemma second_visit_sees_first_visit :
  let closedSlot := {| slot_id := "s"; slot_open := false;
                       slot_failed := false; slot_token := None |} in
  let sel := [demoAppointment [openSlot "s"]; demoAppointment [closedSlot]] in
  let objects := [demoToken "A" (Some []) day; demoToken "B" (Some []) day] in
  let out := processTokens cooperative 0 demoKeys demoProvider sel
               (indexSlots sel) (indexAppointmentsBySlot sel) [0; 0; 1]
               objects world0 in
  map sd_id out.1.2 = ["id-A"; "id-B"] /\
  map tok_slotIDs out.1.1 = [Some ["s"]; Some ["s"]].
Proof. vm_compute. by split. Qed.



(** ** Further properties of the confirmation *)

Section ConfirmSteps.

Variable E : collaborators.
Variable inv : invitation.
Variable ut : userToken.
Variable p : proofData.

Lemma eligible_skipped c sd : skipped c sd = false <-> eligible c sd.
Proof.
  unfold skipped, eligible. rewrite !orb_false_iff, negb_false_iff.
  rewrite bool_decide_eq_false. tauto.
Qed.

Lemma confirmStep_refl slots c w : confirmStep slots c w c w.
Proof.
  exists []. repeat split; try done; try constructor.
Qed.

Lemma confirmStep_trans s1 s2 c w c1 w1 c2 w2 :
  confirmStep s1 c w c1 w1 -> confirmStep s2 c1 w1 c2 w2 ->
  confirmStep (s1 ++ s2) c w c2 w2.
Proof.
  intros (l1 & Hw1 & Hb1 & Hs1 & Ht1 & Hd1 & Hc1)
         (l2 & Hw2 & Hb2 & Hs2 & Ht2 & Hd2 & Hc2).
  exists (l2 ++ l1). rewrite Hw2, Hw1, app_assoc, omap_app.
  split; [done|]. split; [by apply Forall_app|]. split.
  { apply Forall_app. split.
    - eapply Forall_impl; [exact Hs2|]. intros id (sd & Hin & Hid & He).
      exists sd. split; [apply elem_of_app; by right|]. split; [done|].
      destruct He as (? & ? & Hn). repeat split; try done.
      intros Ht. apply Hn. rewrite Hid in *. by apply Ht1.
    - eapply Forall_impl; [exact Hs1|]. intros id (sd & Hin & Hid & He).
      exists sd. split; [apply elem_of_app; by left|done]. }
  split; [intros id Hid; by apply Ht2, Ht1|].
  split; [intros id Hid; by apply Hd2, Hd1|].
  intros id Hne.
  destruct (decide (c2 !! id = c1 !! id)) as [Heq|Hne2].
  - assert (Hne1 : c1 !! id <> c !! id) by congruence.
    destruct (Hc1 id Hne1) as [Hm Hin]. split.
    + unfold marked in *. by rewrite Heq.
    + apply elem_of_app. by right.
  - destruct (Hc2 id Hne2) as [Hm Hin]. split; [done|].
    apply elem_of_app. by left.
Qed.

Lemma confirmStep_weaken s s' c w c' w' :
  (forall sd, sd ∈ s -> sd ∈ s') ->
  confirmStep s c w c' w' -> confirmStep s' c w c' w'.
Proof.
  intros Hsub (l & Hw & Hb & Hs & Hrest). exists l.
  split; [done|]. split; [done|]. split; [|done].
  eapply Forall_impl; [exact Hs|]. intros id (sd & ? & ? & ?).
  exists sd. split; [by apply Hsub|done].
Qed.

(** One attempt: the encryption, the booking call when the encryption
    worked, and the mark the handler wrote, if any. *)
Lemma confirmStep_attempt sd c w c' w' (later : list call) :
  eligible c sd ->
  w_calls w' = later ++ w_calls w ->
  Forall isBookingCall later ->
  omap bookingOfCall later = [] \/
    omap bookingOfCall later = [slot_id sd] ->
  (c' = c \/
   (omap bookingOfCall later = [slot_id sd] /\
    exists s, s <> StOpen /\ c' = <[slot_id sd := s]> c)) ->
  confirmStep [sd] c w c' w'.
Proof.
  intros He Hw Hb Hbook Hc. exists later.
  split; [done|]. split; [done|]. split.
  { destruct Hbook as [->| ->]; [constructor|].
    constructor; [|constructor]. exists sd.
    split; [apply list_elem_of_here|done]. }
  destruct Hc as [->|(Hbooked & s & Hs & ->)]; [by repeat split|].
  destruct He as (_ & _ & Hn).
  split.
  { intros id Hid. rewrite lookup_insert_ne; [done|]. congruence. }
  split.
  { intros id Hid. destruct (decide (slot_id sd = id)) as [<-|?].
    - by rewrite lookup_insert_eq.
    - by rewrite lookup_insert_ne. }
  intros id Hne. destruct (decide (slot_id sd = id)) as [<-|Hid].
  - split; [|rewrite Hbooked; apply list_elem_of_here].
    unfold marked. rewrite lookup_insert_eq.
    destruct s; [done|by left|by right].
  - by rewrite lookup_insert_ne in Hne.
Qed.

(** The slots loop of one offer. *)
Lemma trySlots_step o (slots : list slot) :
  forall c w,
    let out := trySlots E inv ut p o slots c w in
    confirmStep slots c w out.1.2 out.2 /\
    (forall sd, out.1.1 = Ok (Some sd) ->
       sd ∈ slots /\ eligible c sd /\
       exists later,
         w_calls out.2 = later ++ w_calls w /\
         head (omap bookingOfCall later) = Some (slot_id sd)).
Proof.
  induction slots as [|sd rest IH]; intros c w out; unfold out; clear out.
  - split; [apply confirmStep_refl|done].
  - rewrite trySlots_cons.
    destruct (skipped c sd) eqn:Hsk.
    { destruct (IH c w) as [Hstep Hsucc]. split.
      - eapply confirmStep_weaken; [|exact Hstep].
        intros. by apply list_elem_of_further.
      - intros sd' Hsd'. destruct (Hsucc sd' Hsd') as (? & ? & ?).
        split; [by apply list_elem_of_further|done]. }
    apply eligible_skipped in Hsk. cbv zeta.
    set (w1 := emit (CEphemeralECDHEncrypt p (of_publicKey o)) w).
    destruct (co_ephemeralECDHEncrypt E (w_tick w) p (of_publicKey o))
      as [encryptedData|e].
    2:{ cbn [fst snd]. split; [|done].
        eapply confirmStep_weaken;
          [|eapply (confirmStep_attempt sd c w c w1 [_]); try done].
        - intros sd0 ->%list_elem_of_singleton. apply list_elem_of_here.
        - by repeat constructor.
        - by left.
        - by left. }
    set (req := bookRequestFor inv ut sd encryptedData).
    set (w2 := emit (CBookSlot req (ut_signingKeyPair ut)) w1).
    assert (Hatt : forall c',
      (c' = c \/ exists s, s <> StOpen /\ c' = <[slot_id sd := s]> c) ->
      confirmStep [sd] c w c' w2).
    { intros c' Hc'. eapply (confirmStep_attempt sd c w c' w2 [_; _]);
        try done.
      - by repeat constructor.
      - by right.
      - destruct Hc' as [->|?]; [by left|by right]. }
    destruct (co_bookSlot E (w_tick w1) req (ut_signingKeyPair ut)) as [|e].
    { cbn [fst snd]. split.
      - eapply confirmStep_weaken; [|apply Hatt; by left].
        intros sd0 ->%list_elem_of_singleton. apply list_elem_of_here.
      - intros sd' [= <-]. split; [apply list_elem_of_here|].
        split; [done|]. by eexists [_; _]. }
    assert (Hgo : forall c',
      (c' = c \/ exists s, s <> StOpen /\ c' = <[slot_id sd := s]> c) ->
      let out := trySlots E inv ut p o rest c' w2 in
      confirmStep (sd :: rest) c w out.1.2 out.2 /\
      (forall sd', out.1.1 = Ok (Some sd') ->
         sd' ∈ sd :: rest /\ eligible c sd' /\
         exists later,
           w_calls out.2 = later ++ w_calls w /\
           head (omap bookingOfCall later) = Some (slot_id sd'))).
    { intros c' Hc'. destruct (IH c' w2) as [Hstep Hsucc].
      pose proof (Hatt c' Hc') as Hfirst. split.
      - apply (confirmStep_trans [sd] rest _ _ _ _ _ _ Hfirst Hstep).
      - intros sd' Hsd'.
        destruct (Hsucc sd' Hsd') as (Hin & He & l & Hl & Hhead).
        split; [by apply list_elem_of_further|]. split.
        + destruct Hfirst as (_ & _ & _ & _ & Ht & _).
          destruct He as (? & ? & Hn). repeat split; try done.
          intros Hx. apply Hn. by apply Ht.
        + exists (l ++ [CBookSlot req (ut_signingKeyPair ut);
                        CEphemeralECDHEncrypt p (of_publicKey o)]).
          rewrite Hl, <- app_assoc. split; [done|].
          rewrite omap_app. by destruct (omap bookingOfCall l). }
    destruct (bookingMark e) as [[s|]|e'] eqn:Hm.
    + apply Hgo. right. exists s. split; [|done].
      by eapply bookingMark_not_open.
    + apply Hgo. by left.
    + cbn [fst snd]. split; [|done].
      eapply confirmStep_weaken; [|apply Hatt; by left].
      intros sd0 ->%list_elem_of_singleton. apply list_elem_of_here.
Qed.

End ConfirmSteps.

Section ConfirmRuns.

Variable E : collaborators.
Variable inv : invitation.
Variable ut : userToken.

Lemma tryOffers_step p (offers : list offer) :
  forall c w,
    let out := tryOffers E inv ut p offers c w in
    confirmStep (offeredSlots offers) c w out.1.2 out.2 /\
    (forall o sd, out.1.1 = Some (o, sd) ->
       o ∈ offers /\ sd ∈ of_slotData o /\ eligible c sd /\
       exists later,
         w_calls out.2 = later ++ w_calls w /\
         head (omap bookingOfCall later) = Some (slot_id sd)).
Proof.
  induction offers as [|o rest IH]; intros c w out; unfold out; clear out.
  - split; [apply confirmStep_refl|done].
  - cbn [tryOffers]. unfold offeredSlots. cbn [map concat].
    fold (offeredSlots rest).
    destruct (trySlots_step E inv ut p o (of_slotData o) c w)
      as [Hstep Hsucc].
    destruct (trySlots E inv ut p o (of_slotData o) c w)
      as [[r c1] w1] eqn:Hs. cbn [fst snd] in *.
    assert (Hgo :
      let out := tryOffers E inv ut p rest c1 w1 in
      confirmStep (of_slotData o ++ offeredSlots rest) c w out.1.2 out.2 /\
      (forall o' sd, out.1.1 = Some (o', sd) ->
         o' ∈ o :: rest /\ sd ∈ of_slotData o' /\ eligible c sd /\
         exists later,
           w_calls out.2 = later ++ w_calls w /\
           head (omap bookingOfCall later) = Some (slot_id sd))).
    { destruct (IH c1 w1) as [Hstep2 Hsucc2]. split.
      - by eapply confirmStep_trans.
      - intros o' sd Ho'.
        destruct (Hsucc2 o' sd Ho') as (Hin & Hsd & He & l & Hl & Hhead).
        split; [by apply list_elem_of_further|]. split; [done|]. split.
        + destruct Hstep as (_ & _ & _ & _ & Ht & _).
          destruct He as (? & ? & Hn). repeat split; try done.
          intros Hx. apply Hn. by apply Ht.
        + destruct Hstep as (l1 & Hl1 & _). exists (l ++ l1).
          rewrite Hl, Hl1, app_assoc. split; [done|].
          rewrite omap_app. by destruct (omap bookingOfCall l). }
    destruct r as [[sd|]|e]; [|exact Hgo|exact Hgo].
    cbn [fst snd]. split.
    + eapply confirmStep_weaken; [|exact Hstep].
      intros. apply elem_of_app. by left.
    + intros o' sd' [= <- <-].
      destruct (Hsucc sd eq_refl) as (? & ? & ?).
      split; [apply list_elem_of_here|done].
Qed.

Lemma bookingsTried_emit (c : call) (w : world) :
  bookingsTried (emit c w) = bookingsTried w ++ option_list (bookingOfCall c).
Proof.
  unfold bookingsTried, emit. simpl.
  change (match c with CBookSlot r _ => Some (br_id r) | _ => None end)
    with (bookingOfCall c).
  destruct (bookingOfCall c); simpl; [done|by rewrite app_nil_r].
Qed.

Lemma newBookings_later (w w' : world) (later : list call) :
  w_calls w' = later ++ w_calls w ->
  newBookings w w' = rev (omap bookingOfCall later).
Proof.
  intros Hw. unfold newBookings, bookingsTried. rewrite Hw.
  change (fun c => match c with CBookSlot r _ => Some (br_id r)
                                | _ => None end) with bookingOfCall.
  by rewrite omap_app, rev_app_distr, drop_app_length.
Qed.

(** The whole call in terms of its loop: the loop runs, if at all, from
    the stored cache, and what it leaves is stored. *)
Lemma confirmOffers_step (offers : list offer) (st : userStore) (w : world) :
  let run := confirmOffers E offers inv ut st w in
  exists later,
    newBookings w run.2 = rev (omap bookingOfCall later) /\
    Forall (fun id => exists sd, sd ∈ offeredSlots offers /\
                        slot_id sd = id /\ eligible (us_slots st) sd)
      (omap bookingOfCall later) /\
    (forall id, us_slots st !! id = Some StTaken ->
                us_slots run.1.2 !! id = Some StTaken) /\
    (forall id, is_Some (us_slots st !! id) ->
                is_Some (us_slots run.1.2 !! id)) /\
    (forall id, us_slots run.1.2 !! id <> us_slots st !! id ->
       marked (us_slots run.1.2) id /\ id ∈ omap bookingOfCall later) /\
    (forall o, run.1.1 = Returned o -> oc_status o = Succeeded ->
       exists ofr sd,
         oc_data o = Some (ofr, sd) /\ ofr ∈ offers /\ sd ∈ of_slotData ofr /\
         eligible (us_slots st) sd /\
         us_accepted run.1.2 = Some (ofr, inv, sd) /\
         head (omap bookingOfCall later) = Some (slot_id sd)) /\
    (forall o, run.1.1 = Returned o -> oc_status o = Failed ->
       us_accepted run.1.2 = us_accepted st).
Proof.
  unfold confirmOffers.
  assert (Hnone : forall w' l,
    w_calls w' = l ++ w_calls w -> omap bookingOfCall l = [] ->
    exists later,
      newBookings w w' = rev (omap bookingOfCall later) /\
      Forall (fun id => exists sd, sd ∈ offeredSlots offers /\
                          slot_id sd = id /\ eligible (us_slots st) sd)
        (omap bookingOfCall later) /\
      (forall id, us_slots st !! id = Some StTaken ->
                  us_slots st !! id = Some StTaken) /\
      (forall id, is_Some (us_slots st !! id) ->
                  is_Some (us_slots st !! id)) /\
      (forall id, us_slots st !! id <> us_slots st !! id ->
         marked (us_slots st) id /\ id ∈ omap bookingOfCall later)).
  { intros w' l Hw' Hl. exists [].
    rewrite (newBookings_later _ _ _ Hw'), Hl. by repeat split. }
  destruct (co_lock _ _ _).
  2:{ cbn [fst snd].
      destruct (Hnone (emit (CLock (Some "confirmOffers")) w) [_] eq_refl)
        as (later & ? & ? & ? & ? & ?); [done|].
      exists later. repeat split; try done. }
  cbv zeta.
  set (w0 := emit (CLock (Some "confirmOffers")) w).
  set (w1 := emit (CEcdhEncrypt _ _ _) w0).
  destruct (co_ecdhEncrypt _ _ _ _ _).
  2:{ cbn [fst snd].
      destruct (Hnone (emit (CUnlock (Some "confirmOffers")) w1) [_; _; _]
                  eq_refl) as (later & ? & ? & ? & ? & ?); [done|].
      exists later. repeat split; try done. }
  destruct (tryOffers_step (proofOf ut) offers (us_slots st) w1)
    as [(later & Hw & _ & Hs & Ht & Hd & Hc) Hsucc].
  destruct (tryOffers E inv ut (proofOf ut) offers (us_slots st) w1)
    as [[r c'] w2]. cbn [fst snd] in *.
  assert (Hnew : forall w',
    w' = emit (CUnlock (Some "confirmOffers")) w2 ->
    newBookings w w' = rev (omap bookingOfCall later)).
  { intros w' ->.
    rewrite (newBookings_later w _
      (CUnlock (Some "confirmOffers") :: later ++
         [CEcdhEncrypt (PlainProof (proofOf ut)) (ut_keyPair ut)
            (inv_publicKey inv); CLock (Some "confirmOffers")])).
    - cbn [omap bookingOfCall]. rewrite omap_cons_None by done.
      rewrite omap_app. simpl. by rewrite app_nil_r.
    - simpl. rewrite Hw. by rewrite <- app_assoc. }
  exists later.
  destruct r as [[ofr sd]|]; cbn [fst snd us_slots us_accepted];
    (split; [by apply Hnew|]);
    refine (conj Hs (conj Ht (conj Hd (conj Hc (conj _ _))))).
  - intros o [= <-] _.
    destruct (Hsucc ofr sd eq_refl) as (? & ? & ? & l & Hl & Hhead).
    exists ofr, sd. rewrite Hw in Hl. apply app_inv_tail in Hl. by subst l.
  - by intros o [= <-].
  - by intros o [= <-].
  - by intros o [= <-].
Qed.

End ConfirmRuns.

Lemma last_rev_head {A} (l : list A) : last (rev l) = head l.
Proof. destruct l as [|x l]; [done|]. simpl. apply last_snoc. Qed.

(** X14: whatever the collaborators answer, a confirmation asks
    [bookSlot] only for slots of the offers at hand that are open, not
    failed, and not recorded as taken in the cache the call started
    from. *)
Theorem bookings_only_for_eligible_slots (E : collaborators)
    (offers : list offer) (inv : invitation) (ut : userToken)
    (st : userStore) (w : world) :
  let run := confirmOffers E offers inv ut st w in
  Forall (fun id =>
            us_slots st !! id <> Some StTaken /\
            exists o sd, o ∈ offers /\ sd ∈ of_slotData o /\
                         slot_id sd = id /\
                         slot_open sd = true /\ slot_failed sd = false)
    (newBookings w run.2).
Proof.
  cbv zeta.
  destruct (confirmOffers_step E inv ut offers st w)
    as (later & -> & Hs & _).
  apply Forall_forall. intros id Hid.
  apply list_elem_of_In, in_rev, list_elem_of_In in Hid.
  rewrite Forall_forall in Hs.
  destruct (Hs id Hid) as (sd & Hsd & <- & Hf & Ho & Ht).
  split; [done|].
  apply elem_of_concat in Hsd as (l & Hsd & Hl).
  apply list_elem_of_fmap in Hl as (o & -> & Ho').
  by exists o, sd.
Qed.

(** X15: whatever the collaborators answer, a confirmation only adds
    marks to the slot-status cache: a slot recorded as taken stays taken,
    no entry is removed, and an entry that differs afterwards is a mark
    (taken or error) on a slot this call asked to book. *)
Theorem cache_only_gains_marks (E : collaborators)
    (offers : list offer) (inv : invitation) (ut : userToken)
    (st : userStore) (w : world) :
  let run := confirmOffers E offers inv ut st w in
  forall id,
    (us_slots st !! id = Some StTaken ->
     us_slots run.1.2 !! id = Some StTaken) /\
    (is_Some (us_slots st !! id) -> is_Some (us_slots run.1.2 !! id)) /\
    (us_slots run.1.2 !! id = us_slots st !! id \/
     marked (us_slots run.1.2) id /\ id ∈ newBookings w run.2).
Proof.
  intros run id.
  destruct (confirmOffers_step E inv ut offers st w)
    as (later & Hn & _ & Ht & Hd & Hc & _).
  fold run in Hn, Ht, Hd, Hc.
  split; [apply Ht|]. split; [apply Hd|].
  destruct (decide (us_slots run.1.2 !! id = us_slots st !! id)) as [|Hne];
    [by left|right].
  destruct (Hc id Hne) as [Hm Hin]. split; [done|].
  rewrite Hn. by apply list_elem_of_In, in_rev, list_elem_of_In in Hin.
Qed.

(** X16: a confirmation that returns succeeded accepted a slot of one of
    the offers, open, not failed and not recorded as taken when the call
    started; that slot is the last one the call asked to book, and the
    offer, the invitation and the slot are what it stores as accepted. *)
Theorem accepted_slot_is_last_booking (E : collaborators)
    (offers : list offer) (inv : invitation) (ut : userToken)
    (st : userStore) (w : world) (o : outcome (offer * slot)) :
  let run := confirmOffers E offers inv ut st w in
  run.1.1 = Returned o ->
  oc_status o = Succeeded ->
  exists ofr sd,
    oc_data o = Some (ofr, sd) /\
    ofr ∈ offers /\ sd ∈ of_slotData ofr /\
    eligible (us_slots st) sd /\
    us_accepted run.1.2 = Some (ofr, inv, sd) /\
    last (newBookings w run.2) = Some (slot_id sd).
Proof.
  intros run Hr Ho.
  destruct (confirmOffers_step E inv ut offers st w)
    as (later & Hn & _ & _ & _ & _ & Hsucc & _).
  fold run in Hn, Hsucc.
  destruct (Hsucc o Hr Ho) as (ofr & sd & ? & ? & ? & ? & ? & Hhead).
  exists ofr, sd. rewrite Hn, last_rev_head. by split_and!.
Qed.

(** X16, witness: the slot [s1] is in conflict, [s2] is booked. *)
Lemma accepted_slot_is_last_booking_witness :
  let E := bookingBy (fun id => if bool_decide (id = "s1") then Err conflict
                                else Ok tt) in
  let o1 := demoOffer "a1" [openSlot "s1"] in
  let o2 := demoOffer "a2" [openSlot "s2"] in
  let run := confirmOffers E [o1; o2] demoInvitation demoUserToken
               emptyUserStore world0 in
  exists ofr sd,
    oc_data {| oc_status := Succeeded; oc_data := Some (o2, openSlot "s2");
               oc_error := None |} = Some (ofr, sd) /\
    ofr ∈ [o1; o2] /\ sd ∈ of_slotData ofr /\
    eligible (us_slots emptyUserStore) sd /\
    us_accepted run.1.2 = Some (ofr, demoInvitation, sd) /\
    last (newBookings world0 run.2) = Some (slot_id sd).
Proof.
  apply (accepted_slot_is_last_booking
           (bookingBy (fun id => if bool_decide (id = "s1") then Err conflict
                                 else Ok tt))
           [demoOffer "a1" [openSlot "s1"]; demoOffer "a2" [openSlot "s2"]]
           demoInvitation demoUserToken emptyUserStore world0).
  - reflexivity.
  - reflexivity.
Defined.

(** X17: when no slot of the offers is open, not failed and not recorded
    as taken (so also when there are no offers), a confirmation asks for
    no booking, leaves the stored cache and the accepted offer as they
    were, and the only outcome it can return is failed. *)
Theorem nothing_eligible_nothing_booked (E : collaborators)
    (offers : list offer) (inv : invitation) (ut : userToken)
    (st : userStore) (w : world) :
  let run := confirmOffers E offers inv ut st w in
  Forall (fun sd => ~ eligible (us_slots st) sd) (offeredSlots offers) ->
  newBookings w run.2 = [] /\
  run.1.2 = st /\
  (forall o, run.1.1 = Returned o -> oc_status o = Failed).
Proof.
  intros run Hnone.
  destruct (confirmOffers_step E inv ut offers st w)
    as (later & Hn & Hs & _ & _ & Hc & Hsucc & Hfail).
  fold run in Hn, Hc, Hsucc, Hfail.
  assert (Hl : omap bookingOfCall later = []).
  { destruct (omap bookingOfCall later) as [|id l]; [done|].
    apply Forall_cons in Hs as [(sd & Hsd & _ & He) _].
    rewrite Forall_forall in Hnone. by destruct (Hnone sd Hsd). }
  rewrite Hl in *.
  assert (Hst : forall o, run.1.1 = Returned o -> oc_status o = Failed).
  { intros o Ho. destruct (oc_status o) eqn:Hos; try done.
    - by destruct (Hsucc o Ho Hos) as (? & ? & _ & _ & _ & _ & _ & ?).
    - revert Ho Hos. unfold run, confirmOffers.
      destruct (co_lock _ _ _); [|done]. cbv zeta.
      destruct (co_ecdhEncrypt _ _ _ _ _); [|done].
      destruct (tryOffers _ _ _ _ _ _ _) as [[[[? ?]|] ?] ?];
        cbn [fst snd]; by intros [= <-]. }
  split; [done|]. split; [|done].
  assert (Hsl : us_slots run.1.2 = us_slots st).
  { apply map_eq. intros id.
    destruct (decide (us_slots run.1.2 !! id = us_slots st !! id)) as [|Hne];
      [done|].
    destruct (Hc id Hne) as [_ Hin]. by apply elem_of_nil in Hin. }
  assert (Hacc : us_accepted run.1.2 = us_accepted st).
  { revert Hst. unfold run, confirmOffers.
    destruct (co_lock _ _ _); [|done]. cbv zeta.
    destruct (co_ecdhEncrypt _ _ _ _ _); [|done].
    destruct (tryOffers _ _ _ _ _ _ _) as [[[[? ?]|] ?] ?];
      cbn [fst snd]; [|done].
    intros H. by specialize (H _ eq_refl). }
  destruct run.1.2 as [s a], st as [s0 a0]. simpl in *. by subst.
Qed.

(** X17, witness: the only slot offered is closed. *)
Lemma nothing_eligible_nothing_booked_witness :
  let run := confirmOffers cooperative [demoOffer "a1" [takenSlot "s1" "B"]]
               demoInvitation demoUserToken emptyUserStore world0 in
  newBookings world0 run.2 = [] /\
  run.1.2 = emptyUserStore /\
  (forall o, run.1.1 = Returned o -> oc_status o = Failed).
Proof.
  apply (nothing_eligible_nothing_booked cooperative
           [demoOffer "a1" [takenSlot "s1" "B"]]
           demoInvitation demoUserToken emptyUserStore world0).
  constructor; [|constructor]. by intros (_ & ? & _).
Defined.

(** ** Key pairs, new appointments, queue data *)

(** X18: once [keyPairs] has returned key pairs they are the stored
    ones, and a later call, with any collaborators, generates nothing:
    it only locks and unlocks, leaves the store as it is, and returns the
    same key pairs (or throws, when its lock fails). *)
Theorem key_pairs_generated_once (E E' : collaborators)
    (st : providerStore) (w w' : world) (kps : keyPairSet) :
  let run := keyPairs E st w in
  let again := keyPairs E' run.1.2 w' in
  run.1.1 = Returned (loaded kps) ->
  ps_keyPairs run.1.2 = Some kps /\
  again.1.2 = run.1.2 /\
  w_calls again.2 = CUnlock None :: CLock None :: w_calls w' /\
  (again.1.1 = Returned (loaded kps) \/ exists e, again.1.1 = Threw e).
Proof.
  intros run again Hrun.
  assert (Hst : ps_keyPairs run.1.2 = Some kps).
  { revert Hrun. unfold run, keyPairs.
    destruct (co_lock E _ _); [|done].
    destruct (ps_keyPairs st) eqn:Hk;
      [cbn [fst snd]; unfold loaded; by intros [= ->]|].
    destruct (co_generateECDSAKeyPair E _);
      [|unfold failedWithText; by destruct (toStringOf _ _)].
    destruct (co_generateECDHKeyPair E _);
      [|unfold failedWithText; by destruct (toStringOf _ _)].
    cbn [fst snd ps_keyPairs]. unfold loaded. by intros [= ->]. }
  split; [done|]. unfold again, keyPairs. rewrite Hst.
  destruct (co_lock E' _ _) as [|e]; cbn [fst snd].
  - repeat split; by left.
  - repeat split; right; by exists e.
Qed.

(** X18, witness: the first call generates, the second finds the pairs. *)
Lemma key_pairs_generated_once_witness :
  let run := keyPairs cooperative (demoStore [] []) world0 in
  let again := keyPairs cooperative run.1.2 run.2 in
  ps_keyPairs run.1.2 = Some demoKeys /\
  again.1.2 = run.1.2 /\
  w_calls again.2 = CUnlock None :: CLock None :: w_calls run.2 /\
  (again.1.1 = Returned (loaded demoKeys) \/ exists e, again.1.1 = Threw e).
Proof.
  apply (key_pairs_generated_once cooperative cooperative (demoStore [] [])
           world0 (keyPairs cooperative (demoStore [] []) world0).2 demoKeys).
  reflexivity.
Defined.

(** X19: the same for the variant with a lock name and a sync key: once
    it has returned key pairs they are the stored ones, and a later call
    generates no key, leaves the store as it is and returns the same key
    pairs, or throws [null] right after the failed [lock]. *)
Theorem named_key_pairs_generated_once (E E' : collaborators)
    (lockName lockName' : option string)
    (st : providerStore) (w w' : world) (kps : keyPairSet) :
  let run := keyPairsNamed E lockName st w in
  let again := keyPairsNamed E' lockName' run.1.2 w' in
  let name := Some (default "keyPairs" lockName') in
  run.1.1 = Returned (loaded kps) ->
  ps_keyPairs run.1.2 = Some kps /\
  again.1.2 = run.1.2 /\
  (again.1.1 = Returned (loaded kps) /\
   w_calls again.2 = CUnlock name :: CLock name :: w_calls w' \/
   again.1.1 = Threw ThNull /\
   w_calls again.2 = CLock name :: w_calls w').
Proof.
  intros run again name Hrun.
  assert (Hst : ps_keyPairs run.1.2 = Some kps).
  { revert Hrun. unfold run, keyPairsNamed. cbv zeta.
    destruct (co_lock E _ _); [|done].
    destruct (ps_keyPairs st) eqn:Hk;
      [cbn [fst snd]; unfold loaded; by intros [= ->]|].
    destruct (co_generateSymmetricKey E _); [|done].
    destruct (co_generateECDSAKeyPair E _); [|done].
    destruct (co_generateECDHKeyPair E _); [|done].
    cbn [fst snd ps_keyPairs]. unfold loaded. by intros [= ->]. }
  split; [done|]. unfold again, keyPairsNamed. cbv zeta. rewrite Hst.
  destruct (co_lock E' _ _) as [|e]; cbn [fst snd].
  - split; [done|]. by left.
  - split; [done|]. by right.
Qed.

(** X19, witness: two calls under the default lock name. *)
Lemma named_key_pairs_generated_once_witness :
  let kps := {| kps_sync := Some "sync"; kps_signing := demoKeyPair;
                kps_encryption := demoKeyPair |} in
  let run := keyPairsNamed cooperative None (demoStore [] []) world0 in
  let again := keyPairsNamed cooperative (Some "other") run.1.2 run.2 in
  let name := Some (default "keyPairs" (Some "other")) in
  ps_keyPairs run.1.2 = Some kps /\
  again.1.2 = run.1.2 /\
  (again.1.1 = Returned (loaded kps) /\
   w_calls again.2 = CUnlock name :: CLock name :: w_calls run.2 \/
   again.1.1 = Threw ThNull /\
   w_calls again.2 = CLock name :: w_calls run.2).
Proof.
  apply (named_key_pairs_generated_once cooperative cooperative None
           (Some "other") (demoStore [] []) world0
           (keyPairsNamed cooperative None (demoStore [] []) world0).2
           {| kps_sync := Some "sync"; kps_signing := demoKeyPair;
              kps_encryption := demoKeyPair |}).
  reflexivity.
Defined.

(** X20: both variants of [keyPairs] touch nothing but the stored key
    pairs, never replace stored key pairs, and store new ones only when
    every generation succeeded: a call that does not return loaded
    (failed generation, failed lock) leaves the store as it was. *)
Theorem key_pair_store_is_atomic (E : collaborators)
    (lockName : option string) (st : providerStore) (w : world) :
  let holds (run : completion (outcome keyPairSet) * providerStore * world) :=
    ps_appointments run.1.2 = ps_appointments st /\
    ps_tokens run.1.2 = ps_tokens st /\
    (is_Some (ps_keyPairs st) -> run.1.2 = st) /\
    (run.1.2 = st \/
     exists kps, run.1.1 = Returned (loaded kps) /\
                 ps_keyPairs st = None /\
                 ps_keyPairs run.1.2 = Some kps) in
  holds (keyPairs E st w) /\ holds (keyPairsNamed E lockName st w).
Proof.
  cbv zeta. split.
  - unfold keyPairs. cbv zeta.
    destruct (co_lock E _ _); [|by repeat split; try left].
    destruct (ps_keyPairs st) eqn:Hk; [by repeat split; try left|].
    destruct (co_generateECDSAKeyPair E _);
      [|by repeat split; try left; try intros [? [=]]].
    destruct (co_generateECDHKeyPair E _);
      [|by repeat split; try left; try intros [? [=]]].
    cbn [fst snd ps_appointments ps_tokens ps_keyPairs].
    repeat split; [by intros [? [=]]|]. right. by eexists.
  - unfold keyPairsNamed. cbv zeta.
    destruct (co_lock E _ _); [|by repeat split; try left].
    destruct (ps_keyPairs st) eqn:Hk; [by repeat split; try left|].
    destruct (co_generateSymmetricKey E _);
      [|by repeat split; try left; try intros [? [=]]].
    destruct (co_generateECDSAKeyPair E _);
      [|by repeat split; try left; try intros [? [=]]].
    destruct (co_generateECDHKeyPair E _);
      [|by repeat split; try left; try intros [? [=]]].
    cbn [fst snd ps_appointments ps_tokens ps_keyPairs].
    repeat split; [by intros [? [=]]|]. right. by eexists.
Qed.

Lemma hasSlots_nonempty (oa : appointment) :
  hasSlots oa = bool_decide (ap_slotData oa <> []).
Proof.
  unfold hasSlots.
  assert (Hall : forall l : list slot,
            List.filter (fun sl => slot_open sl || true) l = l).
  { induction l as [|x l IH]; [done|]. simpl.
    rewrite orb_true_r. by f_equal. }
  rewrite Hall. destruct (ap_slotData oa); [done|].
  rewrite bool_decide_eq_true_2 by (simpl; lia).
  by rewrite bool_decide_eq_true_2.
Qed.

Lemma selected_spec (now : Z) (apps : list appointment) :
  selected now apps
  = List.filter (fun oa => bool_decide (ap_slotData oa <> []))
      (List.filter (fun oa =>
         bool_decide (Z.abs (ap_timestamp oa) <= 8640000000000000 /\
                      Z.abs (now + 3600000) <= 8640000000000000 /\
                      now + 3600000 < ap_timestamp oa)%Z) apps).
Proof.
  unfold selected. rewrite filter_offerable.
  apply List.filter_ext. intros oa. apply hasSlots_nonempty.
Qed.

(** X21: [createAppointment] under an acquired lock appends one
    appointment with the caller's timestamp, key and slots and keeps the
    stored ones in order. A cycle at the instant [now] works on the
    appointments on offer that have a slot, and counts the open slots of
    those on offer; an appointment is on offer when its timestamp and
    the instant an hour after [now] are dates (at most
    8,640,000,000,000,000 ms from the epoch) and the timestamp is the
    later. The new appointment is on offer exactly when that holds for
    the caller's timestamp: then its open slots are added to the count
    and, when it has a slot at all, it is the last of the appointments
    worked on; otherwise the appointments on offer are those of
    before. *)
Theorem created_appointment_enters_cycle (E : collaborators)
    (a : appointmentSpec) (st : providerStore) (w : world) (now : Z) :
  let run := createAppointment E a st w in
  let onOffer :=
    List.filter (fun oa =>
      bool_decide (Z.abs (ap_timestamp oa) <= 8640000000000000 /\
                   Z.abs (now + 3600000) <= 8640000000000000 /\
                   now + 3600000 < ap_timestamp oa)%Z) in
  let openSlots apps :=
    length (List.filter slot_open (concat (map ap_slotData (onOffer apps)))) in
  let workedOn apps :=
    List.filter (fun oa => bool_decide (ap_slotData oa <> [])) (onOffer apps) in
  let inTime :=
    (Z.abs (as_timestamp a) <= 8640000000000000 /\
     Z.abs (now + 3600000) <= 8640000000000000 /\
     now + 3600000 < as_timestamp a)%Z in
  isOk (co_lock E (w_tick w) None) ->
  exists oa,
    ps_appointments run.1.2 = ps_appointments st ++ [oa] /\
    ap_timestamp oa = as_timestamp a /\
    ap_publicKey oa = as_publicKey a /\
    ap_slotData oa = as_slotData a /\
    selected now (ps_appointments run.1.2)
      = workedOn (ps_appointments run.1.2) /\
    countOpenSlots (List.filter (offerable now) (ps_appointments run.1.2))
      = openSlots (ps_appointments run.1.2) /\
    (inTime ->
     openSlots (ps_appointments run.1.2) =
       openSlots (ps_appointments st) +
       length (List.filter slot_open (as_slotData a)) /\
     workedOn (ps_appointments run.1.2) =
       workedOn (ps_appointments st) ++
       (if bool_decide (as_slotData a <> []) then [oa] else [])) /\
    (~ inTime ->
     onOffer (ps_appointments run.1.2) = onOffer (ps_appointments st)).
Proof.
  intros run onOffer openSlots workedOn inTime [u Hlock].
  unfold run, createAppointment. cbv zeta.
  rewrite Hlock. cbn [fst snd ps_appointments].
  set (oa := Build_appointment _ _ _ _ _ _).
  exists oa. do 4 (split; [done|]).
  split; [apply selected_spec|].
  split; [by rewrite filter_offerable, countOpenSlots_flat|].
  unfold openSlots, workedOn, onOffer. rewrite !List.filter_app.
  cbn [List.filter].
  change (ap_timestamp oa) with (as_timestamp a).
  change (ap_slotData oa) with (as_slotData a).
  split; intros Hts.
  - rewrite (bool_decide_eq_true_2 _ Hts). split.
    + rewrite map_app, concat_app, List.filter_app, length_app.
      f_equal. simpl. by rewrite app_nil_r.
    + f_equal.
  - rewrite (bool_decide_eq_false_2 _ Hts). by rewrite app_nil_r.
Qed.

(** X21, witness: an appointment with two open slots, a hundred hours
    ahead. *)
Lemma created_appointment_enters_cycle_witness :
  let a := {| as_timestamp := (100 * hour)%Z; as_publicKey := "apk";
              as_slotData := demoSlots 2 |} in
  let run := createAppointment cooperative a (demoStore [] []) world0 in
  exists oa,
    ps_appointments run.1.2 = [oa] /\
    selected 0 (ps_appointments run.1.2) = [oa] /\
    countOpenSlots (List.filter (offerable 0) (ps_appointments run.1.2)) = 2.
Proof.
  destruct (created_appointment_enters_cycle cooperative
              {| as_timestamp := (100 * hour)%Z; as_publicKey := "apk";
                 as_slotData := demoSlots 2 |} (demoStore [] []) world0 0%Z)
    as (oa & Happs & _ & _ & _ & Hsel & Hcount & Hin & _).
  - by exists tt.
  - exists oa. split; [exact Happs|].
    destruct Hin as [Hopen Hworked].
    + unfold hour. simpl. lia.
    + split.
      * rewrite Hsel, Hworked. reflexivity.
      * rewrite Hcount, Hopen. reflexivity.
Defined.

(** X22: [queueData] is a store-then-read: data given to it is what this
    call and every later call without data return as loaded, until other
    data is given; a call without data never changes the store, and such
    a call fails exactly when the store is empty. *)
Theorem queue_data_round_trip {D} (d : D) (stored : option D) :
  let put := queueData (Some (Some d)) stored in
  let get := queueData None put.2 in
  put.1 = loaded d /\ get.1 = loaded d /\ get.2 = put.2 /\
  (forall s : option D,
     (queueData None s).2 = s /\
     ((queueData None s).1 = failed <-> s = None)).
Proof.
  cbv zeta. repeat split; try done.
  - destruct s; [done|]. by intros _.
  - by intros ->.
Qed.
